(** * Skoda connector data objects: origin-copy migration and log sanitizer

    A shallow embedding of
    - [util_override.py]   (the quiet [log_extra_keys] and [_truncate]),
    - [service_partner.py] ([ServicePartner]),
    - [specification.py]   ([Engine], [ExteriorDimensions], [Gearbox],
                            [Specification]),
    - [vehicle.py]         ([SkodaVehicle] and its three subtypes),
    together with the properties the specification states about them.

    Python objects live in a heap; an object is a class tag and an attribute
    dictionary.  Constructors are computations in a state-and-exception
    monad over that heap, so that aliasing and re-parenting are visible. *)

From Stdlib Require Import ZArith NArith Ascii Lia.
From stdpp Require Import gmap strings list fin_maps.

Local Open Scope Z_scope.

(** ** Python strings

    A Python [str] is a sequence of Unicode code points; [len] and slicing
    count code points.  Attribute names and dictionary keys, for which only
    equality matters, are kept as [string]. *)

Definition pystr := list N.

Definition lit (s : string) : pystr :=
  (λ a, N_of_ascii a) <$> String.list_ascii_of_string s.

(** [s[:n]] for a Python integer [n]: a negative bound counts from the end. *)
Definition slice_to {A} (s : list A) (n : Z) : list A :=
  if 0 <=? n then take (Z.to_nat n) s
  else take (Z.to_nat (Z.of_nat (length s) + n)) s.

(** [str.lower] restricted to the ASCII letters, which is all the claims
    about the environment toggle use. *)
Definition lower_cp (c : N) : N :=
  if ((65 <=? c) && (c <=? 90))%N then (c + 32)%N else c.

Definition py_lower (s : pystr) : pystr := lower_cp <$> s.

(** ** util_override.py *)

Module UtilOverride.

Inductive level := DEBUG | INFO.

Record log_record := LogRecord { lr_level : level; lr_msg : pystr }.

Section Sanitizer.
(** The values of the mapping ([Any]) and the library routines the module
    calls: [json.dumps] (which may raise, hence [option]), the [str]
    fallback, the [repr] of a set inside the f-string, and the upstream
    [config_remove_credentials]. *)
Context {V : Type}.
Variable json_dumps : gmap string V → option pystr.
Variable py_str : gmap string V → pystr.
Variable repr_keys : gset string → pystr.
Variable config_remove_credentials : gmap string V → gmap string V.

Definition ellipsis : pystr := lit "...".

(** The length test and the slice of [_truncate], on the serialized
    string. *)
Definition cut (s : pystr) (max_len : Z) : pystr :=
  if Z.of_nat (length s) >? max_len then slice_to s max_len ++ ellipsis
  else s.

(** [_truncate(obj, max_len=300)] *)
Definition _truncate (obj : gmap string V) (max_len : Z) : pystr :=
  let s := match json_dumps obj with
           | Some s => s
           | None => py_str obj
           end in
  cut s max_len.

Definition default_max_len : Z := 300.

(** [os.getenv(name, default)] *)
Definition os_getenv (environ : gmap string pystr) (name : string)
    (default : pystr) : pystr :=
  match environ !! name with
  | Some v => v
  | None => default
  end.

Definition show_info (environ : gmap string pystr) : bool :=
  bool_decide
    (os_getenv environ "CARCONNECTIVITY_SHOW_EXTRA_KEYS" (lit "0")
       ∈ [lit "1"; lit "true"; lit "True"]).

Definition extra_keys (dictionary : gmap string V)
    (allowed_keys : option (gset string)) : gset string :=
  let allowed := match allowed_keys with
                 | None => ∅
                 | Some a => a
                 end in
  dom dictionary ∖ allowed.

Definition message (where_ : pystr) (extra : gset string)
    (dictionary : gmap string V) : pystr :=
  lit "Unexpected keys found in " ++ where_ ++ lit ": " ++ repr_keys extra
    ++ lit " Dictionary is "
    ++ _truncate (config_remove_credentials dictionary) default_max_len.

(** [log_extra_keys(log, where, dictionary, allowed_keys=None)].  The
    logger is modelled by what is handed to it: [None] when the function
    returns without logging, otherwise the one record and the method
    ([log.info] or [log.debug]) it is passed to. *)
Definition log_extra_keys (environ : gmap string pystr) (where_ : pystr)
    (dictionary : gmap string V) (allowed_keys : option (gset string))
    : option log_record :=
  let extra := extra_keys dictionary allowed_keys in
  if decide (extra = ∅) then None
  else
    let msg := message where_ extra dictionary in
    if show_info environ then Some (LogRecord INFO msg)
    else Some (LogRecord DEBUG msg).

(** The string [_truncate] cuts: what [json.dumps] returns, or the [str]
    fallback when it raises. *)
Definition serialized (obj : gmap string V) : pystr :=
  match json_dumps obj with
  | Some s => s
  | None => py_str obj
  end.

(** The toggle as the specification words it: ['1'] exactly, or ['true']
    compared without regard to case. *)
Definition spec_toggle (v : pystr) : bool :=
  bool_decide (v = lit "1") || bool_decide (py_lower v = lit "true").

End Sanitizer.

(** The mapping of the specification's example, with keys [a], [b] and
    [secret]. *)
Definition example_dictionary : gmap string nat :=
  <["a" := 1%nat]> (<["b" := 2%nat]> (<["secret" := 3%nat]> ∅)).

End UtilOverride.

Local Close Scope Z_scope.

(** ** The object heap

    Python objects have identity and are shared by reference; the
    constructors below re-parent objects they did not create, so the model
    keeps one store of objects and passes addresses around. *)

Module Py.

Abbreviation addr := nat.

Inductive value :=
| VNone
| VBool (b : bool)
| VStr (s : pystr)
| VTags (t : list string)
| VRef (a : addr).

#[global] Instance value_eq_dec : EqDecision value.
Proof. solve_decision. Defined.

(** The classes [isinstance] and the constructors distinguish. *)
Inductive class :=
| CObject
| CStringAttribute | CBooleanAttribute | CDateAttribute | CEnumAttribute
| CEngine | CExteriorDimensions | CGearbox | CSpecification
| CServicePartner
| CCapabilities | CClimatization | CSkodaClimatization
| CCharging | CSkodaCharging
| CGenericVehicle | CElectricVehicle | CCombustionVehicle | CHybridVehicle
| CSkodaVehicle | CSkodaElectricVehicle | CSkodaCombustionVehicle
| CSkodaHybridVehicle.

#[global] Instance class_eq_dec : EqDecision class.
Proof. solve_decision. Defined.

Record object := Obj { cls : class; dict : gmap string value }.

(** The heap is the list of all objects ever allocated; an address is an
    index into it, so a new object never has the address of an old one. *)
Abbreviation heap := (list object).

Inductive exn := AttributeError.

Inductive result (A : Type) :=
| Ok (a : A) (h : heap)
| Raise (e : exn) (h : heap).
Arguments Ok {A} a h.
Arguments Raise {A} e h.

(** Computations that read and write the heap and may raise. *)
Definition M (A : Type) := heap → result A.

Definition ret {A} (a : A) : M A := λ h, Ok a h.

Definition bind {A B} (m : M A) (f : A → M B) : M B :=
  λ h, match m h with
       | Ok a h' => f a h'
       | Raise e h' => Raise e h'
       end.

Definition raise {A} (e : exn) : M A := λ h, Raise e h.

(** [try: body  except Exception: handler].  What [body] wrote before it
    raised stays written. *)
Definition try_except {A} (body handler : M A) : M A :=
  λ h, match body h with
       | Ok a h' => Ok a h'
       | Raise _ h' => handler h'
       end.

Declare Scope py_scope.
Delimit Scope py_scope with py.
Notation "'let*' x := m 'in' k" := (bind m (λ x, k))
  (at level 10, x name, m at level 100, k at level 200,
   format "'[v' 'let*'  x  :=  m  'in' '/' k ']'") : py_scope.
Notation "m ;; k" := (bind m (λ _, k))
  (at level 100, k at level 200, right associativity,
   format "'[v' m ;; '/' k ']'") : py_scope.
Local Open Scope py_scope.

(** *** Reading and writing attributes *)

(** The attribute [k] of the object at [a], if both exist. *)
Definition get (h : heap) (a : addr) (k : string) : option value :=
  h !! a ≫= λ o, dict o !! k.

(** [o.k = v] on the object at [a]. *)
Definition write (h : heap) (a : addr) (k : string) (v : value) : heap :=
  match h !! a with
  | Some o => <[a := Obj (cls o) (<[k := v]> (dict o))]> h
  | None => h
  end.

Definition class_of (h : heap) (a : addr) : option class := cls <$> h !! a.

(** [hasattr(v, name)]: only heap objects carry the attributes asked for
    here; [None], booleans and strings have none of them. *)
Definition hasattr (v : value) (name : string) : M bool :=
  λ h, match v with
       | VRef a => Ok (bool_decide (is_Some (get h a name))) h
       | _ => Ok false h
       end.

(** [v.name], raising [AttributeError] when it is missing. *)
Definition getattr (v : value) (name : string) : M value :=
  λ h, match v with
       | VRef a => match get h a name with
                   | Some x => Ok x h
                   | None => Raise AttributeError h
                   end
       | _ => Raise AttributeError h
       end.

(** [v.name = x]; assigning to an attribute of [None], a boolean or a
    string raises [AttributeError]. *)
Definition setattr (v : value) (name : string) (x : value) : M unit :=
  λ h, match v with
       | VRef a => match h !! a with
                   | Some _ => Ok tt (write h a name x)
                   | None => Raise AttributeError h
                   end
       | _ => Raise AttributeError h
       end.

(** A new object of class [c] with the attributes [d]. *)
Definition new_object (c : class) (d : gmap string value) : M addr :=
  λ h, Ok (length h) (h ++ [Obj c d]).

(** Allocation of the instance a constructor call then initialises. *)
Definition alloc (c : class) : M addr := new_object c ∅.

(** Fails like an attribute access does unless [v] is an object. *)
Definition require_object (v : value) : M unit :=
  λ h, match v with
       | VRef a => match h !! a with
                   | Some _ => Ok tt h
                   | None => Raise AttributeError h
                   end
       | _ => Raise AttributeError h
       end.

(** [v is not None] *)
Definition is_not_None (v : value) : bool :=
  match v with VNone => false | _ => true end.

End Py.

(** ** The framework the connector builds on

    The [carconnectivity] base package is not part of the sources; what the
    connector relies on is modelled here from the specification. *)

Module Framework.
Import Py.
Local Open Scope py_scope.

(** Modelled from the spec: the base type of every entity
    ([carconnectivity.objects.GenericObject], not in the sources), "a
    generic attribute-container base type supporting named, typed attributes
    with parent linkage".  Its constructor wires the parent; in the
    migrating mode it reads its bookkeeping off the origin, which therefore
    has to be an object.  It creates none of the named fields. *)
Definition GenericObject_init (self : addr) (object_id : value)
    (parent origin : value) : M unit :=
  if is_not_None origin then
    require_object origin;;
    setattr (VRef self) "parent" parent
  else
    setattr (VRef self) "id" object_id;;
    setattr (VRef self) "parent" parent.

(** Modelled from the spec: the attribute kinds of
    [carconnectivity.attributes] (string, boolean, date, enumerated), "with
    parent linkage and a settable value"; a new attribute has no value. *)
Definition Attribute_new (c : class) (name : string) (parent : value)
    (tags : list string) : M addr :=
  new_object c
    (<["name" := VStr (lit name)]> (<["parent" := parent]>
      (<["value" := VNone]> (<["tags" := VTags tags]> ∅)))).

Definition StringAttribute := Attribute_new CStringAttribute.
Definition BooleanAttribute := Attribute_new CBooleanAttribute.
Definition DateAttribute := Attribute_new CDateAttribute.
Definition EnumAttribute := Attribute_new CEnumAttribute.

(** [attr._set_value(v)] and [attr.value] *)
Definition _set_value (attr v : value) : M unit := setattr attr "value" v.
Definition value_of (attr : value) : M value := getattr attr "value".

(** [isinstance(v, ElectricVehicle)]: the electric classes are
    [ElectricVehicle], [HybridVehicle] and the two brand classes that
    derive from them. *)
Definition electric_class (c : class) : bool :=
  match c with
  | CElectricVehicle | CHybridVehicle
  | CSkodaElectricVehicle | CSkodaHybridVehicle => true
  | _ => false
  end.

Definition isinstance_ElectricVehicle (v : value) : M bool :=
  λ h, match v with
       | VRef a => match class_of h a with
                   | Some c => Ok (electric_class c) h
                   | None => Ok false h
                   end
       | _ => Ok false h
       end.

(** Modelled from the spec: the nested entities whose classes are not in the
    sources ([Capabilities], [Climatization], [Charging] and the brand's
    [SkodaClimatization], [SkodaCharging]).  Fresh construction yields an
    object wired to its vehicle; migration construction yields a new object
    that carries the origin's fields, wired to the new vehicle. *)
Definition Nested_new (c : class) (vehicle origin : value) : M addr :=
  λ h, match origin with
       | VNone => new_object c (<["parent" := vehicle]> ∅) h
       | VRef a => match h !! a with
                   | Some o => new_object c (<["parent" := vehicle]> (dict o)) h
                   | None => Raise AttributeError h
                   end
       | _ => Raise AttributeError h
       end.

Definition Capabilities (vehicle : value) : M addr :=
  Nested_new CCapabilities vehicle VNone.
Definition Climatization (vehicle : value) : M addr :=
  Nested_new CClimatization vehicle VNone.
Definition Charging (vehicle : value) : M addr :=
  Nested_new CCharging vehicle VNone.
Definition SkodaClimatization := Nested_new CSkodaClimatization.
Definition SkodaCharging := Nested_new CSkodaCharging.

(** Modelled from the spec: a base field migrated by the protocol of the
    specification's section 4.1, "if origin possesses that field, the same
    attribute object is re-parented onto self; fields origin lacks are
    default-initialized". *)
Definition migrate_base_field (self : addr) (origin : value) (name : string)
    (default : M addr) : M unit :=
  let* b := hasattr origin name in
  if b then
    let* x := getattr origin name in
    setattr (VRef self) name x;;
    let* p := hasattr x "parent" in
    if p then setattr x "parent" (VRef self) else ret tt
  else
    let* a := default in
    setattr (VRef self) name (VRef a).

(** The signature of a vehicle [__init__]:
    [(self, vin, garage, managing_connector, origin)]. *)
Definition vehicle_init := addr → value → value → value → value → M unit.

(** Modelled from the spec: [carconnectivity.vehicle.GenericVehicle], of
    which the connector uses the [manufacturer] attribute and the
    [climatization] entity. *)
Definition GenericVehicle_init : vehicle_init :=
  λ self vin garage managing_connector origin,
  if is_not_None origin then
    GenericObject_init self VNone garage origin;;
    migrate_base_field self origin "manufacturer"
      (StringAttribute "manufacturer" (VRef self) ["carconnectivity"]);;
    migrate_base_field self origin "climatization"
      (Climatization (VRef self))
  else
    GenericObject_init self vin garage VNone;;
    let* m := StringAttribute "manufacturer" (VRef self) ["carconnectivity"] in
    setattr (VRef self) "manufacturer" (VRef m);;
    let* c := Climatization (VRef self) in
    setattr (VRef self) "climatization" (VRef c).

(** Modelled from the spec: [ElectricVehicle], whose [charging] entity is
    taken over from an electric origin and defaulted otherwise.  [next] is
    the constructor [super().__init__] resolves to. *)
Definition ElectricVehicle_init (next : vehicle_init) : vehicle_init :=
  λ self vin garage managing_connector origin,
  if is_not_None origin then
    next self VNone garage VNone origin;;
    let* e := isinstance_ElectricVehicle origin in
    if e then
      let* c := getattr origin "charging" in
      setattr (VRef self) "charging" c;;
      setattr c "parent" (VRef self)
    else
      let* c := Charging (VRef self) in
      setattr (VRef self) "charging" (VRef c)
  else
    next self vin garage managing_connector VNone;;
    let* c := Charging (VRef self) in
    setattr (VRef self) "charging" (VRef c).

(** Modelled from the spec: [CombustionVehicle] and [HybridVehicle] add
    nothing the connector reads; they pass construction on along the method
    resolution order. *)
Definition CombustionVehicle_init (next : vehicle_init) : vehicle_init :=
  λ self vin garage managing_connector origin,
  if is_not_None origin then next self VNone garage VNone origin
  else next self vin garage managing_connector VNone.

Definition HybridVehicle_init (next : vehicle_init) : vehicle_init :=
  λ self vin garage managing_connector origin,
  if is_not_None origin then next self VNone garage VNone origin
  else next self vin garage managing_connector VNone.

End Framework.

(** ** service_partner.py *)

Module ServicePartner.
Import Py Framework.
Local Open Scope py_scope.

Definition custom : list string := ["connector_custom"].

(** [self.service_partner_id = StringAttribute('service_partner_id',
    parent=self, tags={'connector_custom'})] *)
Definition fresh_id (self : addr) : M unit :=
  let* a := StringAttribute "service_partner_id" (VRef self) custom in
  setattr (VRef self) "service_partner_id" (VRef a).

(** [ServicePartner._copy_attributes_from_origin] *)
Definition _copy_attributes_from_origin (self : addr) (origin : value)
    : M unit :=
  try_except
    (fresh_id self;;
     let* b := hasattr origin "service_partner_id" in
     let* c :=
       (if b then
          let* o := getattr origin "service_partner_id" in
          let* v := value_of o in
          ret (is_not_None v)
        else ret false) in
     if c then
       let* mine := getattr (VRef self) "service_partner_id" in
       let* o := getattr origin "service_partner_id" in
       let* v := value_of o in
       _set_value mine v
     else ret tt)
    (fresh_id self).

(** [ServicePartner.__init__(self, parent, origin)] *)
Definition init (self : addr) (parent origin : value) : M unit :=
  GenericObject_init self (VStr (lit "service_partner")) parent VNone;;
  if is_not_None origin then _copy_attributes_from_origin self origin
  else fresh_id self.

(** [ServicePartner(parent=..., origin=...)] *)
Definition new (parent origin : value) : M addr :=
  let* self := alloc CServicePartner in
  init self parent origin;;
  ret self.

End ServicePartner.

(** ** specification.py *)

Module Specification.
Import Py Framework.
Local Open Scope py_scope.

Definition custom : list string := ["connector_custom"].

(** [self.name = Kind(name='name', parent=self, tags={'connector_custom'})] *)
Definition fresh_attr (kind : string → value → list string → M addr)
    (self : addr) (name : string) : M unit :=
  let* a := kind name (VRef self) custom in
  setattr (VRef self) name (VRef a).

(** [_copy_attribute_from_origin(self, origin, attr_name)].  The four
    classes of the module each define this method with the same body. *)
Definition _copy_attribute_from_origin (self : addr) (origin : value)
    (attr_name : string) : M unit :=
  let* b := hasattr origin attr_name in
  if b then
    let* source_attr := getattr origin attr_name in
    setattr (VRef self) attr_name source_attr;;
    let* p := hasattr source_attr "parent" in
    if p then setattr source_attr "parent" (VRef self) else ret tt
  else ret tt.

(** A constructor of a nested class, called as
    [object_class(parent=..., origin=...)]. *)
Definition constructor := value → value → M addr.

(** [Engine.__init__] *)
Definition Engine_init (self : addr) (parent origin : value) : M unit :=
  if is_not_None origin then
    GenericObject_init self (VStr (lit "engine")) parent origin;;
    _copy_attribute_from_origin self origin "type";;
    _copy_attribute_from_origin self origin "powerInKW";;
    _copy_attribute_from_origin self origin "capacityInLiters"
  else
    GenericObject_init self (VStr (lit "engine")) parent VNone;;
    fresh_attr StringAttribute self "type";;
    fresh_attr StringAttribute self "powerInKW";;
    fresh_attr StringAttribute self "capacityInLiters".

Definition Engine : constructor :=
  λ parent origin,
  let* self := alloc CEngine in
  Engine_init self parent origin;;
  ret self.

(** [ExteriorDimensions.__init__] *)
Definition ExteriorDimensions_init (self : addr) (parent origin : value)
    : M unit :=
  if is_not_None origin then
    GenericObject_init self (VStr (lit "exteriorDimensions")) parent origin;;
    _copy_attribute_from_origin self origin "lengthInMm";;
    _copy_attribute_from_origin self origin "widthInMm";;
    _copy_attribute_from_origin self origin "heightInMm"
  else
    GenericObject_init self (VStr (lit "exteriorDimensions")) parent VNone;;
    fresh_attr StringAttribute self "lengthInMm";;
    fresh_attr StringAttribute self "widthInMm";;
    fresh_attr StringAttribute self "heightInMm".

Definition ExteriorDimensions : constructor :=
  λ parent origin,
  let* self := alloc CExteriorDimensions in
  ExteriorDimensions_init self parent origin;;
  ret self.

(** [Gearbox.__init__] *)
Definition Gearbox_init (self : addr) (parent origin : value) : M unit :=
  if is_not_None origin then
    GenericObject_init self (VStr (lit "gearbox")) parent origin;;
    _copy_attribute_from_origin self origin "type"
  else
    GenericObject_init self (VStr (lit "gearbox")) parent VNone;;
    fresh_attr StringAttribute self "type".

Definition Gearbox : constructor :=
  λ parent origin,
  let* self := alloc CGearbox in
  Gearbox_init self parent origin;;
  ret self.

(** [Specification._copy_nested_object_from_origin] *)
Definition _copy_nested_object_from_origin (self : addr) (origin : value)
    (attr_name : string) (object_class : constructor) : M unit :=
  let* b := hasattr origin attr_name in
  if b then
    let* origin_nested := getattr origin attr_name in
    let* n := object_class (VRef self) origin_nested in
    setattr (VRef self) attr_name (VRef n)
  else
    let* n := object_class (VRef self) VNone in
    setattr (VRef self) attr_name (VRef n).

(** [Specification._initialize_attributes] *)
Definition _initialize_attributes (self : addr) : M unit :=
  fresh_attr StringAttribute self "title";;
  fresh_attr DateAttribute self "manufacturing_date";;
  fresh_attr StringAttribute self "trim_level";;
  fresh_attr StringAttribute self "system_code";;
  fresh_attr StringAttribute self "system_model_id";;
  fresh_attr StringAttribute self "body";;
  fresh_attr StringAttribute self "exterior_colour";;
  fresh_attr StringAttribute self "model_year";;
  fresh_attr EnumAttribute self "steering_wheel_position";;
  (let* n := ExteriorDimensions (VRef self) VNone in
   setattr (VRef self) "exteriorDimensions" (VRef n));;
  (let* n := Engine (VRef self) VNone in
   setattr (VRef self) "engine" (VRef n));;
  (let* n := Gearbox (VRef self) VNone in
   setattr (VRef self) "gearbox" (VRef n)).

(** [Specification.__init__] *)
Definition init (self : addr) (parent origin : value) : M unit :=
  if is_not_None origin then
    GenericObject_init self (VStr (lit "specification")) parent origin;;
    _copy_attribute_from_origin self origin "title";;
    _copy_attribute_from_origin self origin "manufacturing_date";;
    _copy_attribute_from_origin self origin "trim_level";;
    _copy_attribute_from_origin self origin "system_code";;
    _copy_attribute_from_origin self origin "system_model_id";;
    _copy_attribute_from_origin self origin "body";;
    _copy_attribute_from_origin self origin "exterior_colour";;
    _copy_attribute_from_origin self origin "model_year";;
    _copy_attribute_from_origin self origin "steering_wheel_position";;
    _copy_nested_object_from_origin self origin "exteriorDimensions"
      ExteriorDimensions;;
    _copy_nested_object_from_origin self origin "engine" Engine;;
    _copy_nested_object_from_origin self origin "gearbox" Gearbox
  else
    GenericObject_init self (VStr (lit "specification")) parent VNone;;
    _initialize_attributes self.

Definition new : constructor :=
  λ parent origin,
  let* self := alloc CSpecification in
  init self parent origin;;
  ret self.

End Specification.

(** ** vehicle.py *)

Module Vehicle.
Import Py Framework.
Local Open Scope py_scope.

Definition custom : list string := ["connector_custom"].

(** The brand literal ['Škoda']; its first letter is U+0160. *)
Definition brand : pystr := 352%N :: lit "koda".

(** [self.name = origin.name] followed by [self.name.parent = self], the
    pair of statements the migrating branch repeats for each field. *)
Definition adopt (self : addr) (origin : value) (name : string) : M unit :=
  let* x := getattr origin name in
  setattr (VRef self) name x;;
  let* mine := getattr (VRef self) name in
  setattr mine "parent" (VRef self).

(** The same pair under [if hasattr(origin, 'name'):]. *)
Definition adopt_if_present (self : addr) (origin : value) (name : string)
    : M unit :=
  let* b := hasattr origin name in
  if b then adopt self origin name else ret tt.

(** [self.specification.field = origin.legacy] and
    [self.specification.field.parent = self.specification], under
    [if hasattr(origin, 'legacy'):]. *)
Definition adopt_legacy (self : addr) (origin : value)
    (legacy field : string) : M unit :=
  let* b := hasattr origin legacy in
  if b then
    let* x := getattr origin legacy in
    let* spec := getattr (VRef self) "specification" in
    setattr spec field x;;
    let* spec1 := getattr (VRef self) "specification" in
    let* mine := getattr spec1 field in
    let* spec2 := getattr (VRef self) "specification" in
    setattr mine "parent" spec2
  else ret tt.

(** [self.name = Kind(name='name', parent=self, tags={'connector_custom'})] *)
Definition fresh_attr (kind : string → value → list string → M addr)
    (self : addr) (name : string) : M unit :=
  let* a := kind name (VRef self) custom in
  setattr (VRef self) name (VRef a).

Section WithImages.
(** The module constant [SUPPORT_IMAGES]: whether PIL could be imported. *)
Variable SUPPORT_IMAGES : bool.

(** The specification part of the migrating branch (lines 81-93). *)
Definition migrate_specification (self : addr) (origin : value) : M unit :=
  let* b := hasattr origin "specification" in
  if b then
    let* os := getattr origin "specification" in
    let* s := Specification.new (VRef self) os in
    setattr (VRef self) "specification" (VRef s)
  else
    (let* s := Specification.new (VRef self) VNone in
     setattr (VRef self) "specification" (VRef s));;
    adopt_legacy self origin "spec_engine_fuel_type" "engine_fuel_type";;
    adopt_legacy self origin "spec_exterior_colour" "exterior_colour";;
    adopt_legacy self origin "spec_model_year" "model_year".

(** [SkodaVehicle.__init__]; [super().__init__] is [GenericVehicle]'s in
    every method resolution order the module builds. *)
Definition SkodaVehicle_init : vehicle_init :=
  λ self vin garage managing_connector origin,
  (if is_not_None origin then
     GenericVehicle_init self VNone garage VNone origin;;
     adopt self origin "capabilities";;
     adopt self origin "in_motion";;
     adopt_if_present self origin "raw_api";;
     adopt_if_present self origin "extras";;
     adopt_if_present self origin "title";;
     adopt_if_present self origin "system_model_id";;
     adopt_if_present self origin "priority";;
     adopt_if_present self origin "device_platform";;
     adopt_if_present self origin "skoda_state";;
     adopt_if_present self origin "workshop_mode_enabled";;
     adopt_if_present self origin "service_partner";;
     adopt_if_present self origin "renders";;
     adopt_if_present self origin "composite_renders";;
     adopt_if_present self origin "composite_render_urls";;
     migrate_specification self origin;;
     if SUPPORT_IMAGES then
       let* i := getattr origin "_car_images" in
       setattr (VRef self) "_car_images" i
     else ret tt
   else
     GenericVehicle_init self vin garage managing_connector VNone;;
     (let* old := getattr (VRef self) "climatization" in
      let* c := SkodaClimatization (VRef self) old in
      setattr (VRef self) "climatization" (VRef c));;
     (let* c := Capabilities (VRef self) in
      setattr (VRef self) "capabilities" (VRef c));;
     fresh_attr BooleanAttribute self "in_motion";;
     fresh_attr StringAttribute self "raw_api";;
     fresh_attr StringAttribute self "extras";;
     fresh_attr StringAttribute self "renders";;
     fresh_attr StringAttribute self "composite_renders";;
     fresh_attr StringAttribute self "composite_render_urls";;
     fresh_attr StringAttribute self "title";;
     fresh_attr StringAttribute self "system_model_id";;
     fresh_attr StringAttribute self "priority";;
     fresh_attr StringAttribute self "device_platform";;
     fresh_attr StringAttribute self "skoda_state";;
     fresh_attr BooleanAttribute self "workshop_mode_enabled";;
     (let* p := ServicePartner.new (VRef self) VNone in
      setattr (VRef self) "service_partner" (VRef p));;
     (let* s := Specification.new (VRef self) VNone in
      setattr (VRef self) "specification" (VRef s));;
     if SUPPORT_IMAGES then
       let* d := new_object CObject ∅ in
       setattr (VRef self) "_car_images" (VRef d)
     else ret tt);;
  let* m := getattr (VRef self) "manufacturer" in
  _set_value m (VStr brand).

(** [SkodaElectricVehicle.__init__]; in its method resolution order
    [super()] is [ElectricVehicle], followed by [SkodaVehicle]. *)
Definition SkodaElectricVehicle_init : vehicle_init :=
  λ self vin garage managing_connector origin,
  if is_not_None origin then
    ElectricVehicle_init SkodaVehicle_init self VNone garage VNone origin;;
    let* e := isinstance_ElectricVehicle origin in
    if e then
      let* oc := getattr origin "charging" in
      let* c := SkodaCharging (VRef self) oc in
      setattr (VRef self) "charging" (VRef c)
    else
      let* sc := getattr (VRef self) "charging" in
      let* c := SkodaCharging (VRef self) sc in
      setattr (VRef self) "charging" (VRef c)
  else
    ElectricVehicle_init SkodaVehicle_init self vin garage
      managing_connector VNone;;
    let* sc := getattr (VRef self) "charging" in
    let* c := SkodaCharging (VRef self) sc in
    setattr (VRef self) "charging" (VRef c).

(** [SkodaCombustionVehicle.__init__] *)
Definition SkodaCombustionVehicle_init : vehicle_init :=
  λ self vin garage managing_connector origin,
  if is_not_None origin then
    CombustionVehicle_init SkodaVehicle_init self VNone garage VNone origin
  else
    CombustionVehicle_init SkodaVehicle_init self vin garage
      managing_connector VNone.

(** [SkodaHybridVehicle.__init__]; the method resolution order is
    [HybridVehicle], [ElectricVehicle], [CombustionVehicle],
    [SkodaVehicle], [GenericVehicle]. *)
Definition SkodaHybridVehicle_init : vehicle_init :=
  λ self vin garage managing_connector origin,
  let chain :=
    HybridVehicle_init
      (ElectricVehicle_init (CombustionVehicle_init SkodaVehicle_init)) in
  if is_not_None origin then chain self VNone garage VNone origin
  else chain self vin garage managing_connector VNone.

(** The four vehicle classes of the module. *)
Inductive kind := Generic | Electric | Combustion | Hybrid.

Definition class_of_kind (k : kind) : class :=
  match k with
  | Generic => CSkodaVehicle
  | Electric => CSkodaElectricVehicle
  | Combustion => CSkodaCombustionVehicle
  | Hybrid => CSkodaHybridVehicle
  end.

Definition init_of_kind (k : kind) : vehicle_init :=
  match k with
  | Generic => SkodaVehicle_init
  | Electric => SkodaElectricVehicle_init
  | Combustion => SkodaCombustionVehicle_init
  | Hybrid => SkodaHybridVehicle_init
  end.

(** [Class(vin=..., garage=..., managing_connector=..., origin=...)] *)
Definition new (k : kind) (vin garage managing_connector origin : value)
    : M addr :=
  let* self := alloc (class_of_kind k) in
  init_of_kind k self vin garage managing_connector origin;;
  ret self.

End WithImages.

End Vehicle.

(** ** The vocabulary of the properties *)

Module Logic.
Import Py.

(** What a computation does from the heap [h]: [Q] of its result when it
    returns, [E] of the heap it leaves when it raises. *)
Definition outcome {A} (m : M A) (h : heap) (Q : A → heap → Prop)
    (E : heap → Prop) : Prop :=
  match m h with
  | Ok a h' => Q a h'
  | Raise _ h' => E h'
  end.

(** The computation returns, without raising, a result satisfying [Q]. *)
Definition post {A} (m : M A) (h : heap) (Q : A → heap → Prop) : Prop :=
  outcome m h Q (λ _, False).

(** [x] is a reference to an object of the heap. *)
Definition objref (h : heap) (x : value) : Prop :=
  ∃ a, x = VRef a ∧ a < length h.

(** The field [k] of [o], when there is one, holds an object. *)
Definition field_ok (h : heap) (o : addr) (k : string) : Prop :=
  ∀ x, get h o k = Some x → objref h x.

(** From [h] to [h'] no object disappeared or changed class, and the only
    attributes of the objects of [h] that changed are parent links and the
    attributes [Gs] of [self]. *)
Definition changes (self : addr) (Gs : list string) (h h' : heap) : Prop :=
  length h ≤ length h'
  ∧ (∀ b, b < length h → class_of h' b = class_of h b)
  ∧ (∀ b k, b < length h → k ≠ "parent" → ¬ (b = self ∧ k ∈ Gs) →
       get h' b k = get h b k).

(** From [h] to [h'] objects were only added. *)
Definition extends (h h' : heap) : Prop := ∃ l, h' = h ++ l.

(** What one re-parenting copy of the field [G] of the origin [o] onto
    [self] does to the heap: [self.G] becomes the origin's object, whose
    parent link now points to [self]; nothing is done when the origin has no
    such field. *)
Definition copied (self o : addr) (G : string) (h h' : heap) : Prop :=
  length h' = length h
  ∧ (∀ b, class_of h' b = class_of h b)
  ∧ (∀ b k, k ≠ "parent" → ¬ (b = self ∧ k = G) → get h' b k = get h b k)
  ∧ get h' self G
    = match get h o G with Some x => Some x | None => get h self G end
  ∧ (∀ b, get h' b "parent" = get h b "parent"
          ∨ (get h o G = Some (VRef b)
             ∧ get h' b "parent" = Some (VRef self)))
  ∧ (∀ b, get h o G = Some (VRef b) → is_Some (get h b "parent") →
          get h' b "parent" = Some (VRef self)).

(** The same for a run of copies, one for each field of [Gs]. *)
Definition copied_all (self o : addr) (Gs : list string) (h h' : heap)
    : Prop :=
  length h' = length h
  ∧ (∀ b, class_of h' b = class_of h b)
  ∧ (∀ b k, k ≠ "parent" → ¬ (b = self ∧ k ∈ Gs) → get h' b k = get h b k)
  ∧ (∀ G, G ∈ Gs →
       get h' self G
       = match get h o G with Some x => Some x | None => get h self G end)
  ∧ (∀ b, get h' b "parent" = get h b "parent"
          ∨ ((∃ G, G ∈ Gs ∧ get h o G = Some (VRef b))
             ∧ get h' b "parent" = Some (VRef self)))
  ∧ (∀ G b, G ∈ Gs → get h o G = Some (VRef b) →
          is_Some (get h b "parent") →
          get h' b "parent" = Some (VRef self)).

(** The steps for [xs], one after the other, followed by [k]: the shape of
    the constructors' runs of copies and of initialisations. *)
Fixpoint then_each {A B} (step : B → M unit) (xs : list B) (k : M A) : M A :=
  match xs with
  | [] => k
  | x :: xs => bind (step x) (λ _, then_each step xs k)
  end.

(** [self] is the new object a migration constructor made of the origin
    [o] in the heap [h]: it holds the origin's [Gs] (and lacks those the
    origin lacks); of the objects of [h] only parent links changed, and
    only those of the values of these fields, which now point to [self]. *)
Definition migrated (c : class) (Gs : list string) (o : addr) (h : heap)
    (self : addr) (h' : heap) : Prop :=
  self = length h
  ∧ length h' = S (length h)
  ∧ class_of h' self = Some c
  ∧ (∀ b, b < length h → class_of h' b = class_of h b)
  ∧ (∀ b k, b < length h → k ≠ "parent" → get h' b k = get h b k)
  ∧ (∀ G, G ∈ Gs → get h' self G = get h o G)
  ∧ (∀ b, b < length h →
       get h' b "parent" = get h b "parent"
       ∨ ((∃ G, G ∈ Gs ∧ get h o G = Some (VRef b))
          ∧ get h' b "parent" = Some (VRef self)))
  ∧ (∀ G b, G ∈ Gs → get h o G = Some (VRef b) →
       is_Some (get h b "parent") →
       get h' b "parent" = Some (VRef self)).

(** From [h] to [h'] objects were added and the attributes [Gs] of [self]
    assigned; every other object of [h] is as it was. *)
Definition grown (self : addr) (Gs : list string) (h h' : heap) : Prop :=
  length h ≤ length h'
  ∧ (∀ b, b < length h → b ≠ self → h' !! b = h !! b)
  ∧ class_of h' self = class_of h self
  ∧ (∀ k, k ∉ Gs → get h' self k = get h self k).

(** The field [G] of [self] holds an attribute in its default state: an
    object made after [self], without a value, whose parent is [self]. *)
Definition has_default (h : heap) (self : addr) (G : string) : Prop :=
  ∃ d, get h self G = Some (VRef d) ∧ self < d
       ∧ get h d "value" = Some VNone
       ∧ get h d "parent" = Some (VRef self).

(** The field [N] of [self] holds a nested entity of class [c] in its
    default state: its parent is [self] and its fields [Gs] hold default
    attributes. *)
Definition has_default_nested (h : heap) (self : addr) (N : string)
    (c : class) (Gs : list string) : Prop :=
  ∃ n, get h self N = Some (VRef n) ∧ self < n
       ∧ class_of h n = Some c
       ∧ get h n "parent" = Some (VRef self)
       ∧ ∀ G, G ∈ Gs → has_default h n G.

(** [self] is the new object a constructor made without an origin in the
    heap [h]: the objects of [h] are as they were, and the fields [Gs] of
    [self] hold default attributes. *)
Definition defaulted (c : class) (Gs : list string) (parent : value)
    (h : heap) (self : addr) (h' : heap) : Prop :=
  self = length h
  ∧ extends h h'
  ∧ class_of h' self = Some c
  ∧ get h' self "parent" = Some parent
  ∧ (∀ G, G ∈ Gs → has_default h' self G).

(** The three leaf entities of [specification.py]. *)
Inductive leaf := LEngine | LExteriorDimensions | LGearbox.

Definition leaf_class (l : leaf) : class :=
  match l with
  | LEngine => CEngine
  | LExteriorDimensions => CExteriorDimensions
  | LGearbox => CGearbox
  end.

Definition leaf_fields (l : leaf) : list string :=
  match l with
  | LEngine => ["type"; "powerInKW"; "capacityInLiters"]
  | LExteriorDimensions => ["lengthInMm"; "widthInMm"; "heightInMm"]
  | LGearbox => ["type"]
  end.

Definition leaf_new (l : leaf) : Specification.constructor :=
  match l with
  | LEngine => Specification.Engine
  | LExteriorDimensions => Specification.ExteriorDimensions
  | LGearbox => Specification.Gearbox
  end.

(** The name under which [Specification] holds each leaf. *)
Definition leaf_name (l : leaf) : string :=
  match l with
  | LEngine => "engine"
  | LExteriorDimensions => "exteriorDimensions"
  | LGearbox => "gearbox"
  end.

(** The scalar fields of [Specification]. *)
Definition spec_scalars : list string :=
  ["title"; "manufacturing_date"; "trim_level"; "system_code";
   "system_model_id"; "body"; "exterior_colour"; "model_year";
   "steering_wheel_position"].

(** The scalar fields of [Specification] with the class of the attribute
    [_initialize_attributes] gives each. *)
Definition spec_pairs : list (class * string) :=
  [(CStringAttribute, "title"); (CDateAttribute, "manufacturing_date");
   (CStringAttribute, "trim_level"); (CStringAttribute, "system_code");
   (CStringAttribute, "system_model_id"); (CStringAttribute, "body");
   (CStringAttribute, "exterior_colour"); (CStringAttribute, "model_year");
   (CEnumAttribute, "steering_wheel_position")].

(** What the constructor of a nested entity accepts as origin: [None] or an
    object. *)
Definition origin_ok (h : heap) (x : value) : Prop :=
  x = VNone ∨ objref h x.

(** The nested entities of the specification [os], where it has them, are
    acceptable origins, and the objects their fields refer to exist. *)
Definition nested_ok (h : heap) (os : addr) : Prop :=
  (∀ l x, get h os (leaf_name l) = Some x → origin_ok h x)
  ∧ (∀ l on G b, get h os (leaf_name l) = Some (VRef on) →
       G ∈ leaf_fields l → get h on G = Some (VRef b) → b < length h).

(** The leaf [l] of the new specification [s], in [h']: a new object of
    the leaf's class that holds the fields of the origin's leaf when the
    origin [os] had one in [h], and default attributes otherwise. *)
Definition leaf_of (h : heap) (os : addr) (h' : heap) (s : addr) (l : leaf)
    : Prop :=
  ∃ n, get h' s (leaf_name l) = Some (VRef n)
       ∧ length h < n
       ∧ class_of h' n = Some (leaf_class l)
       ∧ match get h os (leaf_name l) with
         | Some (VRef on) =>
             ∀ G, G ∈ leaf_fields l → get h' n G = get h on G
         | _ => get h' n "parent" = Some (VRef s)
                ∧ ∀ G, G ∈ leaf_fields l → has_default h' n G
         end.

(** What [_copy_nested_object_from_origin] for the leaf [l] does, from
    [h] to [h']: a new leaf is made and assigned to [s]; of the objects of
    [h] only the parent links of the fields of the origin's leaf change. *)
Definition nested_done (l : leaf) (s os : addr) (h h' : heap) : Prop :=
  length h < length h'
  ∧ (∀ b, b < length h → class_of h' b = class_of h b)
  ∧ (∀ b k, b < length h → k ≠ "parent" → ¬ (b = s ∧ k = leaf_name l) →
       get h' b k = get h b k)
  ∧ get h' s (leaf_name l) = Some (VRef (length h))
  ∧ class_of h' (length h) = Some (leaf_class l)
  ∧ match get h os (leaf_name l) with
    | Some (VRef on) =>
        ∀ G, G ∈ leaf_fields l → get h' (length h) G = get h on G
    | _ => get h' (length h) "parent" = Some (VRef s)
           ∧ ∀ G, G ∈ leaf_fields l → has_default h' (length h) G
    end
  ∧ (∀ b, b < length h →
       get h' b "parent" = get h b "parent"
       ∨ ∃ on G, get h os (leaf_name l) = Some (VRef on)
                 ∧ G ∈ leaf_fields l ∧ get h on G = Some (VRef b)).

(** [b] is the value of a field of a nested entity of [os]. *)
Definition nested_value (h : heap) (os b : addr) : Prop :=
  ∃ l on G, get h os (leaf_name l) = Some (VRef on)
            ∧ G ∈ leaf_fields l ∧ get h on G = Some (VRef b).

(** [s] is the new specification [Specification(parent, origin=os)] made
    in the heap [h]. *)
Definition spec_migrated (os : addr) (h : heap) (s : addr) (h' : heap)
    : Prop :=
  s = length h
  ∧ length h < length h'
  ∧ class_of h' s = Some CSpecification
  ∧ (∀ b, b < length h → class_of h' b = class_of h b)
  ∧ (∀ b k, b < length h → k ≠ "parent" → get h' b k = get h b k)
  ∧ (∀ G, G ∈ spec_scalars → get h' s G = get h os G)
  ∧ (∀ l, leaf_of h os h' s l)
  ∧ (∀ b, b < length h →
       get h' b "parent" = get h b "parent"
       ∨ (∃ G, G ∈ spec_scalars ∧ get h os G = Some (VRef b))
       ∨ nested_value h os b)
  ∧ (∀ G b, G ∈ spec_scalars → get h os G = Some (VRef b) →
       is_Some (get h b "parent") → ¬ nested_value h os b →
       get h' b "parent" = Some (VRef s)).

(** [s] is the new specification [Specification(parent)] made in [h]. *)
Definition spec_defaulted (parent : value) (h : heap) (s : addr)
    (h' : heap) : Prop :=
  defaulted CSpecification spec_scalars parent h s h'
  ∧ (∀ l, has_default_nested h' s (leaf_name l) (leaf_class l)
            (leaf_fields l))
  ∧ (∀ k, k ∉ spec_scalars → (∀ l, k ≠ leaf_name l) → k ≠ "id" →
          k ≠ "parent" → get h' s k = None).

(** The value [ServicePartner] copies from its origin: the value of the
    origin's [service_partner_id] when there is one and it is not [None]. *)
Definition copied_value (h : heap) (origin : value) : value :=
  match origin with
  | VRef o =>
      match get h o "service_partner_id" with
      | Some (VRef x) =>
          match get h x "value" with
          | Some v => if is_not_None v then v else VNone
          | None => VNone
          end
      | _ => VNone
      end
  | _ => VNone
  end.

(** [self] is the new service partner made in [h] from [origin]: the
    objects of [h] are as they were; [self.service_partner_id] is a new
    string attribute whose parent is [self] and whose value is the one
    copied from the origin. *)
Definition partner_made (h : heap) (origin : value) (self : addr)
    (h' : heap) : Prop :=
  self = length h
  ∧ extends h h'
  ∧ class_of h' self = Some CServicePartner
  ∧ ∃ a, get h' self "service_partner_id" = Some (VRef a)
         ∧ length h < a
         ∧ class_of h' a = Some CStringAttribute
         ∧ get h' a "parent" = Some (VRef self)
         ∧ get h' a "value" = Some (copied_value h origin).

(** From [h] to [h'] the object [self] took fields over: besides the
    attributes [Gs] of [self], the only change to the objects of [h] is
    that parent links of other objects may now point to [self]. *)
Definition adopts (self : addr) (Gs : list string) (h h' : heap) : Prop :=
  changes self Gs h h'
  ∧ (∀ b, b < length h → b ≠ self →
       get h' b "parent" = get h b "parent"
       ∨ get h' b "parent" = Some (VRef self)).

(** The fields [SkodaVehicle] takes over from its origin one by one. *)
Definition guarded_fields : list string :=
  ["raw_api"; "extras"; "title"; "system_model_id"; "priority";
   "device_platform"; "skoda_state"; "workshop_mode_enabled";
   "service_partner"; "renders"; "composite_renders";
   "composite_render_urls"].

Definition adopt_fields : list string :=
  "capabilities" :: "in_motion" :: guarded_fields.

(** The legacy flat fields of an origin without specification, with the
    field of the specification each becomes. *)
Definition legacy_fields : list (string * string) :=
  [("spec_engine_fuel_type", "engine_fuel_type");
   ("spec_exterior_colour", "exterior_colour");
   ("spec_model_year", "model_year")].

(** What one legacy field does to the heap: the origin's attribute, when
    there is one, becomes the field [f] of the specification [s] and gets
    [s] as parent. *)
Definition legacy_step (s o : addr) (L f : string) (h : heap) : heap :=
  match get h o L with
  | Some (VRef x) => write (write h s f (VRef x)) x "parent" (VRef s)
  | _ => h
  end.

Definition legacy_steps (s o : addr) (h : heap) : heap :=
  legacy_step s o "spec_model_year" "model_year"
    (legacy_step s o "spec_exterior_colour" "exterior_colour"
       (legacy_step s o "spec_engine_fuel_type" "engine_fuel_type" h)).

(** The framework's part of a vehicle migration, from [h] to [h']:
    [self] took over (or was given anew) its manufacturer and its
    climatization. *)
Definition base_done (self o : addr) (h h' : heap) : Prop :=
  adopts self ["manufacturer"; "climatization"] h h'
  ∧ get h' self "manufacturer"
    = Some (match get h o "manufacturer" with
            | Some x => x
            | None => VRef (length h)
            end)
  ∧ (get h o "manufacturer" = None → length h < length h').

(** The specification part of a vehicle migration, from [h] to [h']: the
    new specification is the object at [length h]; it is migrated from the
    origin's specification when that is an object, and made anew
    otherwise, the legacy fields being taken over when the origin has no
    specification at all. *)
Definition spec_done (self o : addr) (h h' : heap) : Prop :=
  let s := length h in
  match get h o "specification" with
  | Some (VRef os) =>
      ∃ h1, spec_migrated os h s h1
            ∧ h' = write h1 self "specification" (VRef s)
  | Some _ =>
      ∃ h1, spec_defaulted (VRef self) h s h1
            ∧ h' = write h1 self "specification" (VRef s)
  | None =>
      ∃ h1, spec_defaulted (VRef self) h s h1
            ∧ h' = legacy_steps s o
                     (write h1 self "specification" (VRef s))
  end.

(** [self._car_images = origin._car_images], when images are supported. *)
Definition images (SUPPORT_IMAGES : bool) (self o : addr) (h : heap)
    : heap :=
  if SUPPORT_IMAGES then
    match get h o "_car_images" with
    | Some i => write h self "_car_images" i
    | None => h
    end
  else h.

(** [self.manufacturer._set_value('Škoda')] *)
Definition branded (self : addr) (h h' : heap) : Prop :=
  ∃ m, get h self "manufacturer" = Some (VRef m)
       ∧ m < length h
       ∧ h' = write h m "value" (VStr Vehicle.brand).

(** The run of [SkodaVehicle.__init__] with the origin [o], from the heap
    [h] in which [self] is allocated to the heap [h'] it leaves. *)
Definition vehicle_run (SUPPORT_IMAGES : bool) (self o : addr)
    (h h' : heap) : Prop :=
  ∃ hA hB hC,
    base_done self o h hA
    ∧ copied_all self o adopt_fields hA hB
    ∧ spec_done self o hB hC
    ∧ branded self (images SUPPORT_IMAGES self o hC) h'.

(** The vehicle classes whose construction passes through
    [ElectricVehicle]. *)
Definition has_charging (k : Vehicle.kind) : bool :=
  match k with
  | Vehicle.Electric | Vehicle.Hybrid => true
  | _ => false
  end.

(** [isinstance(o, ElectricVehicle)] in the heap [h]. *)
Definition is_electric (h : heap) (o : addr) : bool :=
  match class_of h o with
  | Some c => Framework.electric_class c
  | None => false
  end.

(** What [ElectricVehicle.__init__] adds: the charging entity of an
    electric origin is taken over, otherwise a default one is made. *)
Definition upstream_charging (self o : addr) (h h' : heap) : Prop :=
  if is_electric h o then copied self o "charging" h h'
  else h' = write (h ++ [Obj CCharging (<["parent" := VRef self]> ∅)])
              self "charging" (VRef (length h)).

(** What [SkodaElectricVehicle.__init__] adds: a new [SkodaCharging],
    the object at [length h], migrated from the charging entity [src] of
    the origin when the origin is electric, and from the new instance's own
    charging entity otherwise. *)
Definition skoda_charging (self o : addr) (h h' : heap) : Prop :=
  ∃ src obj,
    (if is_electric h o then get h o "charging" = Some (VRef src)
     else get h self "charging" = Some (VRef src))
    ∧ h !! src = Some obj
    ∧ h' = write (h ++ [Obj CSkodaCharging
                          (<["parent" := VRef self]> (dict obj))])
             self "charging" (VRef (length h)).

(** The run of the constructor of the vehicle class [k] with the origin
    [o], from the heap [h] in which [self] is allocated. *)
Definition kind_run (SUPPORT_IMAGES : bool) (k : Vehicle.kind)
    (self o : addr) (h h' : heap) : Prop :=
  ∃ hE, vehicle_run SUPPORT_IMAGES self o h hE
        ∧ match k with
          | Vehicle.Generic | Vehicle.Combustion => h' = hE
          | Vehicle.Hybrid => upstream_charging self o hE h'
          | Vehicle.Electric =>
              ∃ hU, upstream_charging self o hE hU
                    ∧ skoda_charging self o hU h'
          end.

(** The origin [o] is fit to migrate a vehicle of kind [k] from: it has
    the two fields read without a check, each field taken over holds an
    object, the specification and its nested entities are objects or
    [None], and an electric origin has its charging entity. *)
Definition vehicle_ok (SUPPORT_IMAGES : bool) (k : Vehicle.kind) (h : heap)
    (o : addr) : Prop :=
  o < length h
  ∧ field_ok h o "manufacturer"
  ∧ (∃ x, get h o "capabilities" = Some x ∧ objref h x)
  ∧ (∃ x, get h o "in_motion" = Some x ∧ objref h x)
  ∧ (∀ G, G ∈ guarded_fields → field_ok h o G)
  ∧ (∀ x, get h o "specification" = Some x →
       x = VNone ∨ ∃ os, x = VRef os ∧ os < length h ∧ nested_ok h os)
  ∧ (get h o "specification" = None →
       ∀ p, p ∈ legacy_fields → field_ok h o p.1)
  ∧ (SUPPORT_IMAGES = true → is_Some (get h o "_car_images"))
  ∧ (has_charging k = true → is_electric h o = true →
       ∃ x, get h o "charging" = Some x ∧ objref h x).

(** What the constructors of the electric classes do after
    [SkodaVehicle.__init__], from [h] to [h']: objects are added and
    [self.charging] is assigned; of the objects of [h] nothing else
    changes but the parent link of the origin's charging entity, which, when
    it changes, points to [self]. *)
Definition charged (self o : addr) (h h' : heap) : Prop :=
  length h ≤ length h'
  ∧ (∀ b, b < length h → class_of h' b = class_of h b)
  ∧ (∀ b k, b < length h → k ≠ "parent" → ¬ (b = self ∧ k = "charging") →
       get h' b k = get h b k)
  ∧ (∀ b, b < length h →
       get h' b "parent" = get h b "parent"
       ∨ (is_electric h o = true
          ∧ get h o "charging" = Some (VRef b)
          ∧ get h' b "parent" = Some (VRef self))).

(** The manufacturer attribute of the vehicle [v] holds the brand. *)
Definition brand_set (h : heap) (v : addr) : Prop :=
  ∃ m, get h v "manufacturer" = Some (VRef m)
       ∧ get h m "value" = Some (VStr Vehicle.brand).

(** The object [b] is none of those a vehicle constructor hands to
    another owner or overwrites when it migrates from [o]: the origin's
    manufacturer attribute, whose value is set to the brand; a scalar field
    of the origin's specification or a field of one of its nested
    entities, which the new specification and its nested entities take;
    and, when the origin has no specification, one of its legacy fields,
    which the new specification takes. *)
Definition unshared (h : heap) (o b : addr) : Prop :=
  get h o "manufacturer" ≠ Some (VRef b)
  ∧ (∀ os, get h o "specification" = Some (VRef os) →
       (∀ G, G ∈ spec_scalars → get h os G ≠ Some (VRef b))
       ∧ ¬ nested_value h os b)
  ∧ (get h o "specification" = None →
       ∀ p, p ∈ legacy_fields → get h o p.1 ≠ Some (VRef b)).

(** The new instance [e] holds the origin's attribute [b] as its field
    [G]; the attribute has kept its value and its parent is [e]. *)
Definition round_trip (h : heap) (G : string) (b : addr) (e : addr)
    (h' : heap) : Prop :=
  get h' e G = Some (VRef b)
  ∧ get h' b "parent" = Some (VRef e)
  ∧ get h' b "value" = get h b "value".

(** The computation raises [e] from the heap [h]. *)
Definition raises {A} (m : M A) (h : heap) (e : exn) : Prop :=
  match m h with
  | Raise e' _ => e' = e
  | Ok _ _ => False
  end.

(** The heap a computation leaves. *)
Definition heap_after {A} (r : result A) : heap :=
  match r with
  | Ok _ h => h
  | Raise _ h => h
  end.

(** The address a field holds, for the examples. *)
Definition ref_of (x : option value) : addr :=
  match x with
  | Some (VRef a) => a
  | _ => 0
  end.

(** *** Checks that compute *)

Definition objrefb (h : heap) (x : value) : bool :=
  match x with
  | VRef a => bool_decide (a < length h)
  | _ => false
  end.

Definition field_okb (h : heap) (o : addr) (k : string) : bool :=
  match get h o k with
  | Some x => objrefb h x
  | None => true
  end.

Definition has_objectb (h : heap) (o : addr) (k : string) : bool :=
  match get h o k with
  | Some x => objrefb h x
  | None => false
  end.

Definition leaves : list leaf := [LEngine; LExteriorDimensions; LGearbox].

Definition nested_okb (h : heap) (os : addr) : bool :=
  forallb
    (λ l, match get h os (leaf_name l) with
          | None | Some VNone => true
          | Some (VRef on) =>
              bool_decide (on < length h)
              && forallb (λ G, match get h on G with
                               | Some (VRef b) => bool_decide (b < length h)
                               | _ => true
                               end) (leaf_fields l)
          | Some _ => false
          end) leaves.

Definition vehicle_okb (SUPPORT_IMAGES : bool) (k : Vehicle.kind)
    (h : heap) (o : addr) : bool :=
  bool_decide (o < length h)
  && field_okb h o "manufacturer"
  && has_objectb h o "capabilities"
  && has_objectb h o "in_motion"
  && forallb (field_okb h o) guarded_fields
  && match get h o "specification" with
     | Some VNone => true
     | Some (VRef os) => bool_decide (os < length h) && nested_okb h os
     | Some _ => false
     | None => forallb (λ p : string * string, field_okb h o p.1)
                 legacy_fields
     end
  && (negb SUPPORT_IMAGES || bool_decide (is_Some (get h o "_car_images")))
  && (negb (has_charging k) || negb (is_electric h o)
      || has_objectb h o "charging").

Definition nested_valueb (h : heap) (os b : addr) : bool :=
  existsb
    (λ l, match get h os (leaf_name l) with
          | Some (VRef on) =>
              existsb (λ G, bool_decide (get h on G = Some (VRef b)))
                (leaf_fields l)
          | _ => false
          end) leaves.

Definition unsharedb (h : heap) (o b : addr) : bool :=
  bool_decide (get h o "manufacturer" ≠ Some (VRef b))
  && match get h o "specification" with
     | Some (VRef os) =>
         forallb (λ G, bool_decide (get h os G ≠ Some (VRef b)))
           spec_scalars
         && negb (nested_valueb h os b)
     | Some _ => true
     | None =>
         forallb
           (λ p : string * string,
              bool_decide (get h o p.1 ≠ Some (VRef b))) legacy_fields
     end.

(** What [SkodaVehicle.__init__] does once the specification [s] is
    constructed in [h]: it assigns [self.specification], takes the legacy
    fields over when the origin has no specification ([legacy]), assigns
    the images and sets the brand on the manufacturer attribute [m]. *)
Definition finish (SUPPORT_IMAGES legacy : bool) (self o s m : addr)
    (h : heap) : heap :=
  let hS := write h self "specification" (VRef s) in
  let hL := if legacy then legacy_steps s o hS else hS in
  write (images SUPPORT_IMAGES self o hL) m "value" (VStr Vehicle.brand).

(** The course of the migration of a vehicle of kind [k] from the origin
    [o] in the heap [h], ending in [h']: [hB] is the heap when the fields
    of the origin are taken over, [hC] the heap when the specification,
    the object at [length hB], is constructed, and [m] the manufacturer
    attribute. *)
Definition anatomy (SUPPORT_IMAGES : bool) (k : Vehicle.kind) (h : heap)
    (o : addr) (h' hB hC : heap) (m : addr) : Prop :=
  let self := length h in
  let s := length hB in
  self < s
  ∧ (∀ a f, a < length h → f ≠ "parent" → get hB a f = get h a f)
  ∧ (∀ a, a < length h → class_of hB a = class_of h a)
  ∧ (∀ a, a < length h →
       get hB a "parent" = get h a "parent"
       ∨ get hB a "parent" = Some (VRef self))
  ∧ (∀ G, G ∈ adopt_fields → get hB self G = get h o G)
  ∧ (∀ G b, G ∈ adopt_fields → get h o G = Some (VRef b) →
       is_Some (get h b "parent") →
       get hB b "parent" = Some (VRef self))
  ∧ get hB self "manufacturer" = Some (VRef m)
  ∧ m < s ∧ m ≠ self
  ∧ (m < length h → get h o "manufacturer" = Some (VRef m))
  ∧ class_of hB self = Some (Vehicle.class_of_kind k)
  ∧ match get h o "specification" with
    | Some (VRef os) => spec_migrated os hB s hC
    | _ => spec_defaulted (VRef self) hB s hC
    end
  ∧ ∃ hE,
      hE = finish SUPPORT_IMAGES
             (bool_decide (get h o "specification" = None)) self o s m hC
      ∧ match k with
        | Vehicle.Generic | Vehicle.Combustion => h' = hE
        | Vehicle.Hybrid => upstream_charging self o hE h'
        | Vehicle.Electric =>
            ∃ hU, upstream_charging self o hE hU
                  ∧ skoda_charging self o hU h'
        end.

(** A step of a constructor that only adds objects and assigns attributes
    of [self] other than the manufacturer. *)
Definition quiet (self : addr) (step : M unit) : Prop :=
  ∀ h, self < length h →
    post step h (λ _ h', ∃ Gs, ("manufacturer" ∉ Gs) ∧ grown self Gs h h').

(** The manufacturer attribute of [self], an object made after [self],
    holds the brand. *)
Definition brand_own (h : heap) (self : addr) : Prop :=
  ∃ m, self < m ∧ get h self "manufacturer" = Some (VRef m)
       ∧ get h m "value" = Some (VStr Vehicle.brand).

(** The computation returns a result that passes the test [q]. *)
Definition checks {A} (m : M A) (h : heap) (q : A → heap → bool) : bool :=
  match m h with
  | Ok a h' => q a h'
  | Raise _ _ => false
  end.

End Logic.

(** ** Heaps for the examples *)

Module Samples.
Import Py Logic Framework.

Definition vin : value := VStr (lit "TMBJJ7NE1L0000001").

(** An attribute object as the framework's attribute classes make it. *)
Definition attribute (c : class) (name : string) (parent : addr)
    (v : value) : object :=
  Obj c (<["name" := VStr (lit name)]> (<["parent" := VRef parent]>
          (<["value" := v]> (<["tags" := VTags ["connector_custom"]]> ∅)))).

(** A garage with one [SkodaVehicle], constructed without origin and
    then given a title: the vehicle is the object 0. *)
Definition garage : heap :=
  let h := heap_after
             (Vehicle.new false Vehicle.Generic vin VNone VNone VNone []) in
  write h (ref_of (get h 0 "title")) "value" (VStr (lit "Octavia")).

(** A garage with one [SkodaElectricVehicle], constructed without
    origin. *)
Definition electric_garage : heap :=
  heap_after (Vehicle.new false Vehicle.Electric vin VNone VNone VNone []).

(** A vehicle as an earlier version of the connector left it: it has no
    specification but the flat fields for the colour and the model year,
    and none of the fields added since. *)
Definition legacy_garage : heap :=
  [ Obj CGenericVehicle
      (<["manufacturer" := VRef 1]> (<["capabilities" := VRef 2]>
        (<["in_motion" := VRef 3]> (<["spec_exterior_colour" := VRef 4]>
          (<["spec_model_year" := VRef 5]> ∅)))));
    attribute CStringAttribute "manufacturer" 0 (VStr (lit "Skoda Auto"));
    Obj CCapabilities (<["parent" := VRef 0]> ∅);
    attribute CBooleanAttribute "in_motion" 0 (VBool false);
    attribute CStringAttribute "spec_exterior_colour" 0
      (VStr (lit "Race Blue"));
    attribute CStringAttribute "spec_model_year" 0 (VStr (lit "2020")) ].

(** A specification that has only a title and an engine, the engine only
    a type; and a service partner with its id. *)
Definition partial_heap : heap :=
  [ Obj CSpecification (<["title" := VRef 1]> (<["engine" := VRef 2]> ∅));
    attribute CStringAttribute "title" 0 (VStr (lit "Octavia"));
    Obj CEngine (<["type" := VRef 3]> ∅);
    attribute CStringAttribute "type" 2 (VStr (lit "TDI"));
    Obj CServicePartner (<["service_partner_id" := VRef 5]> ∅);
    attribute CStringAttribute "service_partner_id" 4
      (VStr (lit "CZE-0042")) ].

(** A vehicle and an engine without any field. *)
Definition bare_vehicle : heap := [Obj CSkodaVehicle ∅].
Definition bare_engine : heap := [Obj CEngine ∅].

(** The vehicle of an earlier version with a [specification] that is
    [None] beside its flat fields. *)
Definition none_garage : heap :=
  write legacy_garage 0 "specification" VNone.

(** A garage with one [SkodaVehicle], constructed without origin while
    images are supported. *)
Definition image_garage : heap :=
  heap_after (Vehicle.new true Vehicle.Generic vin VNone VNone VNone []).

(** The garage after a [SkodaHybridVehicle] has been migrated from its
    vehicle: the new vehicle is the object 39, and the vehicle it was
    migrated from is still there. *)
Definition migrated_garage : heap :=
  heap_after
    (Vehicle.new false Vehicle.Hybrid vin VNone VNone (VRef 0) garage).

End Samples.

(** * Reasoning about the heap *)

Module PyFacts.
Import Py Logic.

(** Membership in a list of field names that is given explicitly. *)
Ltac not_in_list :=
  let H := fresh in
  intros H; unfold spec_scalars in H; cbn in H;
  repeat (apply elem_of_cons in H as [H|H]; [discriminate|]);
  by apply elem_of_nil in H.

(** The same for a goal [¬ (b = self ∧ k ∈ Gs)]. *)
Ltac not_in_list_and :=
  let H := fresh in
  intros [_ H]; revert H; not_in_list.

(** Inclusion between two such lists. *)
Ltac sub_list :=
  let x := fresh in
  let H := fresh in
  intros x H; cbn in H;
  repeat (apply elem_of_cons in H as [H|H];
          [subst x; cbn; repeat first [apply list_elem_of_here
                                      |apply list_elem_of_further]|]);
  by apply elem_of_nil in H.

(** Membership of an explicit element in an explicit list. *)
Ltac sub_in :=
  cbn; repeat first [apply list_elem_of_here | apply list_elem_of_further].

Lemma get_lt h a k v : get h a k = Some v → a < length h.
Proof.
  unfold get. destruct (h !! a) eqn:E; [|done].
  intros _. by eapply lookup_lt_Some.
Qed.

Lemma get_ge h a k : length h ≤ a → get h a k = None.
Proof. intros H. unfold get. by rewrite lookup_ge_None_2. Qed.

Lemma length_write h a k v : length (write h a k v) = length h.
Proof. unfold write. destruct (h !! a); [|done]. apply length_insert. Qed.

Lemma class_of_write h a k v b : class_of (write h a k v) b = class_of h b.
Proof.
  unfold class_of, write. destruct (h !! a) as [o|] eqn:E; [|done].
  destruct (decide (a = b)) as [->|Hne].
  - rewrite list_lookup_insert_eq by (by eapply lookup_lt_Some).
    by rewrite E.
  - by rewrite list_lookup_insert_ne.
Qed.

Lemma get_write h a k v b k' :
  get (write h a k v) b k'
  = if decide (a = b ∧ k = k' ∧ a < length h) then Some v else get h b k'.
Proof.
  unfold get, write. destruct (h !! a) as [o|] eqn:E.
  - assert (a < length h) by (by eapply lookup_lt_Some).
    destruct (decide (a = b)) as [->|Hne].
    + rewrite list_lookup_insert_eq by done. rewrite E. simpl.
      destruct (decide (k = k')) as [->|Hk].
      * rewrite lookup_insert_eq. by rewrite decide_True.
      * rewrite lookup_insert_ne by done. rewrite decide_False; [done|].
        intros (_ & ? & _). done.
    + rewrite list_lookup_insert_ne by done. rewrite decide_False; [done|].
      intros (? & _). done.
  - rewrite decide_False; [done|]. intros (_ & _ & Hlt).
    apply lookup_ge_None in E. lia.
Qed.

Lemma get_write_eq h a k v : a < length h → get (write h a k v) a k = Some v.
Proof. intros. rewrite get_write. by rewrite decide_True. Qed.

Lemma get_write_ne h a k v b k' :
  a ≠ b ∨ k ≠ k' → get (write h a k v) b k' = get h b k'.
Proof.
  intros Hne. rewrite get_write. rewrite decide_False; [done|].
  intros (? & ? & _). destruct Hne; done.
Qed.

Lemma get_app_old h l b k : b < length h → get (h ++ l) b k = get h b k.
Proof. intros. unfold get. by rewrite lookup_app_l. Qed.

Lemma get_app_new h c d k : get (h ++ [Obj c d]) (length h) k = d !! k.
Proof.
  unfold get. rewrite lookup_app_r by done.
  by rewrite Nat.sub_diag.
Qed.

Lemma class_of_app_old h l b : b < length h → class_of (h ++ l) b = class_of h b.
Proof. intros. unfold class_of. by rewrite lookup_app_l. Qed.

Lemma class_of_app_new h c d : class_of (h ++ [Obj c d]) (length h) = Some c.
Proof.
  unfold class_of. rewrite lookup_app_r by done.
  by rewrite Nat.sub_diag.
Qed.

Lemma class_of_is_Some h a : a < length h → is_Some (class_of h a).
Proof.
  intros H. unfold class_of. apply lookup_lt_is_Some_2 in H.
  destruct H as [o ->]. by eexists.
Qed.

Lemma class_of_Some_lt h a c : class_of h a = Some c → a < length h.
Proof.
  unfold class_of. destruct (h !! a) eqn:E; [|done].
  intros _. by eapply lookup_lt_Some.
Qed.

(** *** Outcomes *)

Lemma outcome_bind {A B} (m : M A) (f : A → M B) h Q E :
  outcome m h (λ a h1, outcome (f a) h1 Q E) E → outcome (bind m f) h Q E.
Proof. unfold outcome, bind. by destruct (m h). Qed.

Lemma outcome_mono {A} (m : M A) h (Q Q' : A → heap → Prop)
    (E E' : heap → Prop) :
  outcome m h Q E → (∀ a h1, Q a h1 → Q' a h1) → (∀ h1, E h1 → E' h1) →
  outcome m h Q' E'.
Proof. unfold outcome. destruct (m h); auto. Qed.

Lemma outcome_try {A} (body handler : M A) h Q E :
  outcome body h Q (λ h1, outcome handler h1 Q E) →
  outcome (try_except body handler) h Q E.
Proof. unfold outcome, try_except. by destruct (body h). Qed.

Lemma post_bind {A B} (m : M A) (f : A → M B) h Q :
  post m h (λ a h1, post (f a) h1 Q) → post (bind m f) h Q.
Proof. apply outcome_bind. Qed.

Lemma post_mono {A} (m : M A) h (Q Q' : A → heap → Prop) :
  post m h Q → (∀ a h1, Q a h1 → Q' a h1) → post m h Q'.
Proof. intros H HQ. eapply outcome_mono; eauto. Qed.

Lemma post_ret {A} (a : A) h (Q : A → heap → Prop) : Q a h → post (ret a) h Q.
Proof. done. Qed.

Lemma post_outcome {A} (m : M A) h Q E : post m h Q → outcome m h Q E.
Proof. intros H. eapply outcome_mono; eauto. done. Qed.

Lemma post_Ok {A} (m : M A) h Q :
  post m h Q ↔ ∃ a h', m h = Ok a h' ∧ Q a h'.
Proof.
  unfold post, outcome. destruct (m h); split; eauto.
  - intros (? & ? & [= <- <-] & ?). done.
  - done.
  - intros (? & ? & ? & ?). done.
Qed.

(** Two facts about one run combine. *)
Lemma post_and {A} (m : M A) h (Q Q' : A → heap → Prop) :
  post m h Q → post m h Q' → post m h (λ a h1, Q a h1 ∧ Q' a h1).
Proof. unfold post, outcome. destruct (m h); auto. Qed.

(** *** The primitives *)

Lemma post_hasattr v name h Q :
  Q (match v with
     | VRef a => bool_decide (is_Some (get h a name))
     | _ => false
     end) h →
  post (hasattr v name) h Q.
Proof. unfold post, outcome, hasattr. by destruct v. Qed.

Lemma post_getattr a name x h Q :
  get h a name = Some x → Q x h → post (getattr (VRef a) name) h Q.
Proof. intros Hx HQ. unfold post, outcome, getattr. by rewrite Hx. Qed.

Lemma post_setattr a name x h (Q : unit → heap → Prop) :
  a < length h → Q tt (write h a name x) → post (setattr (VRef a) name x) h Q.
Proof.
  intros Hlt HQ. unfold post, outcome, setattr.
  apply lookup_lt_is_Some_2 in Hlt. destruct Hlt as [o ->]. done.
Qed.

Lemma post_new_object c d h (Q : addr → heap → Prop) :
  Q (length h) (h ++ [Obj c d]) → post (new_object c d) h Q.
Proof. done. Qed.

Lemma post_require_object a h (Q : unit → heap → Prop) :
  a < length h → Q tt h → post (require_object (VRef a)) h Q.
Proof.
  intros Hlt HQ. unfold post, outcome, require_object.
  apply lookup_lt_is_Some_2 in Hlt. destruct Hlt as [o ->]. done.
Qed.

(** *** Changes *)

Lemma changes_refl self Gs h : changes self Gs h h.
Proof. by split_and!. Qed.

Lemma changes_trans self Gs h1 h2 h3 :
  changes self Gs h1 h2 → changes self Gs h2 h3 → changes self Gs h1 h3.
Proof.
  intros (L1 & C1 & G1) (L2 & C2 & G2). split_and!.
  - lia.
  - intros b Hb. rewrite C2 by lia. by apply C1.
  - intros b k Hb Hk Hn. rewrite G2 by (done || lia). by apply G1.
Qed.

Lemma changes_weaken self Gs Gs' h h' :
  Gs ⊆ Gs' → changes self Gs h h' → changes self Gs' h h'.
Proof.
  intros Hsub (L & C & G). split_and!; [done..|].
  intros b k Hb Hk Hn. apply G; [done..|].
  intros [-> Hin]. apply Hn. split; [done|]. by apply Hsub.
Qed.

Lemma changes_write_self self G Gs h v :
  G ∈ Gs → changes self Gs h (write h self G v).
Proof.
  intros Hin. split_and!.
  - by rewrite length_write.
  - intros b _. apply class_of_write.
  - intros b k Hb Hk Hn. apply get_write_ne.
    destruct (decide (self = b)) as [->|]; [|by left].
    right. intros ->. by apply Hn.
Qed.

Lemma changes_write_parent self Gs h a v :
  changes self Gs h (write h a "parent" v).
Proof.
  split_and!.
  - by rewrite length_write.
  - intros b _. apply class_of_write.
  - intros b k Hb Hk Hn. apply get_write_ne. right. done.
Qed.

Lemma changes_app self Gs h l : changes self Gs h (h ++ l).
Proof.
  split_and!.
  - rewrite length_app. lia.
  - intros b Hb. by apply class_of_app_old.
  - intros b k Hb _ _. by apply get_app_old.
Qed.

(** A write to an object that [h] does not have yet is no change of [h]. *)
Lemma changes_write_new self Gs h h' a k v :
  length h ≤ a → changes self Gs h h' → changes self Gs h (write h' a k v).
Proof.
  intros Ha (L & C & G). split_and!.
  - rewrite length_write. lia.
  - intros b Hb. rewrite class_of_write. by apply C.
  - intros b k' Hb Hk Hn. rewrite get_write_ne by (left; lia). by apply G.
Qed.

Lemma extends_refl h : extends h h.
Proof. exists []. by rewrite app_nil_r. Qed.

Lemma extends_trans h1 h2 h3 : extends h1 h2 → extends h2 h3 → extends h1 h3.
Proof. intros [l1 ->] [l2 ->]. exists (l1 ++ l2). by rewrite app_assoc. Qed.

Lemma extends_get h h' b k : extends h h' → b < length h → get h' b k = get h b k.
Proof. intros [l ->] Hb. by apply get_app_old. Qed.

Lemma extends_length h h' : extends h h' → length h ≤ length h'.
Proof. intros [l ->]. rewrite length_app. lia. Qed.

End PyFacts.

(** * The copy steps *)

Module CopyFacts.
Import Py Logic PyFacts Framework.

Lemma copied_all_nil self o h : copied_all self o [] h h.
Proof.
  split_and!; try done.
  - intros G HG. by apply elem_of_nil in HG.
  - intros b. by left.
  - intros G b HG. by apply elem_of_nil in HG.
Qed.

Lemma copied_origin self o G h h' k :
  copied self o G h h' → o ≠ self → k ≠ "parent" → get h' o k = get h o k.
Proof.
  intros (_ & _ & F & _) Hne Hk. apply F; [done|]. intros [? _]. done.
Qed.

Lemma copied_all_one self o G h h' :
  copied self o G h h' → copied_all self o [G] h h'.
Proof.
  intros (L & K & F & S & P & R). split_and!; try done.
  - intros b k Hk Hn. apply F; [done|]. intros [-> ->]. apply Hn.
    split; [done|]. by left.
  - intros G' HG'. apply list_elem_of_singleton in HG' as ->. done.
  - intros b. destruct (P b) as [?|[? ?]]; [by left|right].
    split; [|done]. exists G. split; [by left|done].
  - intros G' b HG'. apply list_elem_of_singleton in HG' as ->. apply R.
Qed.

Lemma copied_all_app self o Gs1 Gs2 h h1 h2 :
  o ≠ self → "parent" ∉ Gs1 ++ Gs2 →
  copied_all self o Gs1 h h1 → copied_all self o Gs2 h1 h2 →
  copied_all self o (Gs1 ++ Gs2) h h2.
Proof.
  intros Hne Hpar C1 C2.
  assert (∀ G', G' ∈ Gs1 ++ Gs2 → G' ≠ "parent") as HGs.
  { intros G' Hin ->. done. }
  destruct C1 as (L1 & K1 & F1 & S1 & P1 & R1).
  destruct C2 as (L2 & K2 & F2 & S2 & P2 & R2).
  assert (∀ k, k ≠ "parent" → get h1 o k = get h o k) as Ho.
  { intros k Hk. apply F1; [done|]. intros [? _]. done. }
  split_and!.
  - congruence.
  - intros b. by rewrite K2.
  - intros b k Hk Hn. rewrite F2, F1; [done..| |done|].
    + intros [-> ?]. apply Hn. split; [done|]. apply elem_of_app. by left.
    + intros [-> ?]. apply Hn. split; [done|]. apply elem_of_app. by right.
  - intros G' HG'. specialize (HGs G' HG').
    destruct (decide (G' ∈ Gs2)) as [Hin|Hnin].
    + rewrite (S2 G' Hin), (Ho G') by done.
      destruct (get h o G') as [x|] eqn:E; [done|].
      destruct (decide (G' ∈ Gs1)) as [Hin1|Hnin1].
      * rewrite (S1 G' Hin1), E. done.
      * apply F1; [done|]. intros [_ ?]. done.
    + apply elem_of_app in HG' as [Hin1|?]; [|done].
      rewrite F2; [by apply S1|done|]. intros [_ ?]. done.
  - intros b. destruct (P2 b) as [E2|[(G' & Hin & E2) E3]].
    + rewrite E2. destruct (P1 b) as [E1|[(G' & Hin & E1) E1']].
      * by left.
      * right. split; [|done]. exists G'. split; [|done].
        apply elem_of_app. by left.
    + right. split; [|done]. exists G'.
      assert (G' ∈ Gs1 ++ Gs2) as Hin' by (apply elem_of_app; by right).
      split; [done|]. rewrite <- (Ho G') by auto. done.
  - intros G' b HG' E Hs. specialize (HGs G' HG').
    assert (is_Some (get h1 b "parent")) as Hs1.
    { destruct (P1 b) as [->|[_ ->]]; [done|by eexists]. }
    destruct (decide (G' ∈ Gs2)) as [Hin|Hnin].
    + eapply R2; [done| |done]. rewrite Ho by done. done.
    + apply elem_of_app in HG' as [Hin1|?]; [|done].
      destruct (P2 b) as [->|[_ ->]]; [|done]. by eapply R1.
Qed.

Lemma copied_all_cons self o G Gs h h1 h2 :
  o ≠ self → "parent" ∉ G :: Gs →
  copied self o G h h1 → copied_all self o Gs h1 h2 →
  copied_all self o (G :: Gs) h h2.
Proof.
  intros Hne Hpar C1 C2.
  apply (copied_all_app self o [G] Gs h h1 h2); try done.
  by apply copied_all_one.
Qed.

(** A run of copies followed by [k]: the steps succeed one after the other
    and [k] starts from a heap in which all of them are done. *)
Lemma post_then_each {A} (step : string → M unit) (k : M A) self o Gs h Q :
  o ≠ self → "parent" ∉ Gs → self < length h →
  (∀ G h1, G ∈ Gs → self < length h1 →
     (∀ k', k' ≠ "parent" → get h1 o k' = get h o k') →
     length h1 = length h →
     post (step G) h1 (λ _ h2, copied self o G h1 h2)) →
  (∀ h', copied_all self o Gs h h' → post k h' Q) →
  post (then_each step Gs k) h Q.
Proof.
  intros Hne Hpar Hself Hstep Hk.
  revert h Q Hself Hstep Hk.
  induction Gs as [|G Gs IH]; intros h Q Hself Hstep Hk; simpl.
  - apply Hk, copied_all_nil.
  - apply post_bind. eapply post_mono.
    { apply Hstep; [by left|done|done|done]. }
    intros u h1 C1. simpl in C1.
    assert (length h1 = length h) as Hl by apply C1.
    assert (∀ k', k' ≠ "parent" → get h1 o k' = get h o k') as Ho.
    { intros k' Hk'. by eapply copied_origin. }
    apply IH.
    + intros Hin. apply Hpar. by right.
    + lia.
    + intros G' h2 HG' Hs2 Ho2 Hl2. apply Hstep; [by right|done| |lia].
      intros k' Hk'. rewrite Ho2, Ho by done. done.
    + intros h' C2. apply Hk. by eapply copied_all_cons.
Qed.

(** A run of copies that ends the computation. *)
Lemma post_each_last (step : string → M unit) self o Gs G h :
  o ≠ self → "parent" ∉ Gs ++ [G] → self < length h →
  (∀ G' h1, G' ∈ Gs ++ [G] → self < length h1 →
     (∀ k', k' ≠ "parent" → get h1 o k' = get h o k') →
     length h1 = length h →
     post (step G') h1 (λ _ h2, copied self o G' h1 h2)) →
  post (then_each step Gs (step G)) h
    (λ _ h', copied_all self o (Gs ++ [G]) h h').
Proof.
  intros Hne Hpar Hself Hstep.
  eapply (post_then_each _ _ self o); try done.
  - intros Hin. apply Hpar, elem_of_app. by left.
  - intros G' h1 HG'. apply Hstep, elem_of_app. by left.
  - intros h' Hc.
    assert (length h' = length h) as Hl by apply Hc.
    assert (∀ k', k' ≠ "parent" → get h' o k' = get h o k') as Ho.
    { intros k' Hk'. destruct Hc as (_ & _ & F & _). apply F; [done|].
      intros [? _]. done. }
    eapply post_mono.
    { apply Hstep; [|lia|done|done]. apply elem_of_app. right. by left. }
    intros u h2 C. simpl in C.
    eapply copied_all_app; [done|done|done|]. by apply copied_all_one.
Qed.

Lemma copied_absent self o G h :
  get h o G = None → copied self o G h h.
Proof.
  intros E. split_and!; try done.
  - by rewrite E.
  - intros b. by left.
  - intros b Hb. by rewrite Hb in E.
Qed.

(** The field is assigned and its value has no parent link to update. *)
Lemma copied_plain self o G h x :
  self < length h → G ≠ "parent" →
  get h o G = Some x →
  (∀ b, x = VRef b → get h b "parent" = None) →
  copied self o G h (write h self G x).
Proof.
  intros Hself HG E Hx. split_and!.
  - apply length_write.
  - intros b. apply class_of_write.
  - intros b k Hk Hn. apply get_write_ne.
    destruct (decide (self = b)) as [->|]; [|by left].
    right. intros ->. by apply Hn.
  - rewrite E. by apply get_write_eq.
  - intros b. left. apply get_write_ne. by right.
  - intros b Hb [p Hp]. rewrite E in Hb. injection Hb as ->.
    rewrite (Hx b) in Hp; done.
Qed.

(** The field is assigned and the parent link of its value updated. *)
Lemma copied_linked self o G h b :
  self < length h → G ≠ "parent" →
  get h o G = Some (VRef b) → b < length h →
  copied self o G h
    (write (write h self G (VRef b)) b "parent" (VRef self)).
Proof.
  intros Hself HG E Hb.
  assert (∀ c, get (write (write h self G (VRef b)) b "parent" (VRef self))
                 c "parent"
               = if decide (b = c) then Some (VRef self)
                 else get h c "parent") as Hpar.
  { intros c. rewrite get_write. rewrite length_write.
    destruct (decide (b = c)) as [->|Hne].
    - by rewrite decide_True.
    - rewrite decide_False by (by intros (? & _)).
      apply get_write_ne. by right. }
  split_and!.
  - by rewrite !length_write.
  - intros c. by rewrite !class_of_write.
  - intros c k Hk Hn. rewrite get_write_ne by (by right).
    apply get_write_ne.
    destruct (decide (self = c)) as [->|]; [|by left].
    right. intros ->. by apply Hn.
  - rewrite E. rewrite get_write_ne by (by right). by apply get_write_eq.
  - intros c. rewrite Hpar. case_decide as Hc; [|by left].
    subst c. by right.
  - intros c Hc _. rewrite E in Hc. injection Hc as ->.
    rewrite Hpar. by rewrite decide_True.
Qed.

(** One re-parenting copy, as [specification.py] writes it. *)
Lemma copy_attribute_spec self o G h :
  self < length h → G ≠ "parent" →
  post (Specification._copy_attribute_from_origin self (VRef o) G) h
    (λ _ h', copied self o G h h').
Proof.
  intros Hself HG. unfold Specification._copy_attribute_from_origin.
  apply post_bind, post_hasattr.
  destruct (get h o G) as [x|] eqn:E.
  - rewrite bool_decide_eq_true_2 by (by eexists).
    apply post_bind. eapply post_getattr; [done|].
    apply post_bind, post_setattr; [done|].
    apply post_bind, post_hasattr.
    assert (∀ b, get (write h self G x) b "parent" = get h b "parent")
      as Hp1.
    { intros b. apply get_write_ne. by right. }
    destruct x as [| | | |b];
      try (apply post_ret; by apply copied_plain).
    rewrite Hp1. destruct (get h b "parent") as [p|] eqn:Eb.
    + rewrite bool_decide_eq_true_2 by (by eexists).
      apply post_setattr.
      * rewrite length_write. by eapply get_lt.
      * apply copied_linked; try done. by eapply get_lt.
    + rewrite bool_decide_eq_false_2 by (by intros [? ?]).
      apply post_ret. apply copied_plain; try done.
      by intros ? [= <-].
  - rewrite bool_decide_eq_false_2 by (by intros [? ?]).
    apply post_ret. by apply copied_absent.
Qed.

(** A value that is not an object has no fields to copy. *)
Lemma copy_attribute_scalar self v G h :
  (∀ o, v ≠ VRef o) →
  Specification._copy_attribute_from_origin self v G h = Ok tt h.
Proof. intros Hv. destruct v; try done. by destruct (Hv a). Qed.

(** *** Default initialisation *)

Lemma grown_refl self h : grown self [] h h.
Proof. by split_and!. Qed.

Lemma grown_trans self Gs1 Gs2 h h1 h2 :
  grown self Gs1 h h1 → grown self Gs2 h1 h2 →
  grown self (Gs1 ++ Gs2) h h2.
Proof.
  intros (L1 & O1 & K1 & F1) (L2 & O2 & K2 & F2). split_and!.
  - lia.
  - intros b Hb Hne. rewrite O2 by (done || lia). by apply O1.
  - by rewrite K2.
  - intros k Hk. rewrite F2, F1; [done|..];
      intros Hin; apply Hk, elem_of_app; auto.
Qed.

Lemma grown_weaken self Gs Gs' h h' :
  Gs ⊆ Gs' → grown self Gs h h' → grown self Gs' h h'.
Proof.
  intros Hsub (L & O & K & F). split_and!; try done.
  intros k Hk. apply F. intros Hin. by apply Hk, Hsub.
Qed.

Lemma grown_get self Gs h h' b k :
  grown self Gs h h' → b < length h → b ≠ self → get h' b k = get h b k.
Proof. intros (_ & O & _) Hb Hne. unfold get. by rewrite O. Qed.

Lemma grown_class self Gs h h' b :
  grown self Gs h h' → b < length h → class_of h' b = class_of h b.
Proof.
  intros (_ & O & K & _) Hb. destruct (decide (b = self)) as [->|Hne].
  - done.
  - unfold class_of. by rewrite O.
Qed.

Lemma has_default_grown self Gs h h' G :
  has_default h self G → grown self Gs h h' → G ∉ Gs →
  has_default h' self G.
Proof.
  intros (d & E & Hd & Ev & Ep) Hg Hn.
  assert (d < length h) by (by eapply get_lt).
  exists d. split_and!; [|done|..].
  - destruct Hg as (_ & _ & _ & F). by rewrite F.
  - rewrite (grown_get self Gs h h') by (done || lia). done.
  - rewrite (grown_get self Gs h h') by (done || lia). done.
Qed.

(** A default attribute of an object made after [self] is not touched by
    what is later assigned to [self]. *)
Lemma has_default_grown_other self Gs h h' n G :
  has_default h n G → grown self Gs h h' → self < n →
  has_default h' n G.
Proof.
  intros (d & E & Hd & Ev & Ep) Hg Hn.
  assert (d < length h) by (by eapply get_lt).
  assert (n < length h) by (by eapply get_lt).
  exists d. split_and!; [|done|..];
    rewrite (grown_get self Gs h h') by (done || lia); done.
Qed.

Lemma has_default_nested_grown self Gs h h' N c Fs :
  has_default_nested h self N c Fs → grown self Gs h h' → N ∉ Gs →
  has_default_nested h' self N c Fs.
Proof.
  intros (n & E & Hn & Ec & Ep & Hf) Hg HN.
  assert (n < length h) by (by eapply get_lt).
  exists n. split_and!; [|done|..].
  - destruct Hg as (_ & _ & _ & F). by rewrite F.
  - rewrite (grown_class self Gs h h') by done. done.
  - rewrite (grown_get self Gs h h') by (done || lia). done.
  - intros G HG. eapply has_default_grown_other; eauto.
Qed.

(** [self.G = Kind(name='G', parent=self, tags=...)] *)
Lemma fresh_attr_spec c self G tags h :
  self < length h →
  post (let* a := Attribute_new c G (VRef self) tags in
        setattr (VRef self) G (VRef a))%py h
    (λ _ h', grown self [G] h h' ∧ has_default h' self G
             ∧ length h' = S (length h)
             ∧ class_of h' (length h) = Some c).
Proof.
  intros Hself. apply post_bind. unfold Attribute_new.
  apply post_new_object. apply post_setattr.
  { rewrite length_app. lia. }
  set (d := <["name":=VStr (lit G)]> _).
  split_and!.
  - split_and!.
    + rewrite length_write, length_app. lia.
    + intros b Hb Hne. unfold write.
      rewrite lookup_app_l by done.
      apply lookup_lt_is_Some_2 in Hself as [o Ho]. rewrite Ho.
      rewrite list_lookup_insert_ne by done. by apply lookup_app_l.
    + rewrite class_of_write. by apply class_of_app_old.
    + intros k Hk. rewrite get_write_ne.
      * by apply get_app_old.
      * right. intros ->. apply Hk. by left.
  - exists (length h). split_and!.
    + apply get_write_eq. rewrite length_app. lia.
    + done.
    + rewrite get_write_ne by (left; lia). by rewrite get_app_new.
    + rewrite get_write_ne by (left; lia). by rewrite get_app_new.
  - rewrite length_write, length_app. simpl. lia.
  - rewrite class_of_write. apply class_of_app_new.
Qed.

(** A run of default initialisations followed by [k]. *)
Lemma post_then_fresh {A} (k : M A) self tags (pairs : list (class * string))
    h Q :
  self < length h →
  (∀ h', grown self pairs.*2 h h' →
         (∀ G, G ∈ pairs.*2 → has_default h' self G) →
         post k h' Q) →
  post (then_each
          (λ p, let* a := Attribute_new p.1 p.2 (VRef self) tags in
                setattr (VRef self) p.2 (VRef a))%py pairs k) h Q.
Proof.
  revert h Q. induction pairs as [|[c G] pairs IH]; intros h Q Hself Hk.
  - simpl. apply Hk; [apply grown_refl|].
    intros G HG. by apply elem_of_nil in HG.
  - simpl. apply post_bind. eapply post_mono.
    { by apply (fresh_attr_spec c self G tags). }
    intros u h1 (Hg1 & Hd1 & Hl1 & _). simpl in *.
    apply IH; [lia|]. intros h' Hg Hd. apply Hk.
    + by apply (grown_trans self [G] _ h h1 h').
    + intros G' HG'. destruct (decide (G' ∈ pairs.*2)) as [Hin|Hnin].
      * by apply Hd.
      * apply elem_of_cons in HG' as [->|?]; [|done].
        by eapply has_default_grown.
Qed.

(** A run of default initialisations that ends the computation. *)
Lemma post_fresh_last self tags (pairs : list (class * string)) p h :
  self < length h →
  post (then_each
          (λ p, let* a := Attribute_new p.1 p.2 (VRef self) tags in
                setattr (VRef self) p.2 (VRef a))%py pairs
          (let* a := Attribute_new p.1 p.2 (VRef self) tags in
           setattr (VRef self) p.2 (VRef a))%py) h
    (λ _ h', grown self (pairs ++ [p]).*2 h h'
             ∧ ∀ G, G ∈ (pairs ++ [p]).*2 → has_default h' self G).
Proof.
  intros Hself. apply post_then_fresh; [done|].
  intros h1 Hg Hd. eapply post_mono.
  { apply (fresh_attr_spec p.1 self p.2 tags).
    destruct Hg as (L & _). lia. }
  intros u h' (Hg1 & Hd1 & _). simpl in *.
  rewrite fmap_app. simpl. split.
  - by eapply grown_trans.
  - intros G HG. destruct (decide (G = p.2)) as [->|Hne]; [done|].
    apply elem_of_app in HG as [HG|HG].
    + eapply has_default_grown; [by apply Hd|done|].
      intros Hin. apply list_elem_of_singleton in Hin. done.
    + apply list_elem_of_singleton in HG. done.
Qed.

Lemma extends_of_lookup (h h' : heap) :
  length h ≤ length h' → (∀ b, b < length h → h' !! b = h !! b) →
  extends h h'.
Proof.
  intros Hl Hb. exists (drop (length h) h').
  rewrite <- (take_drop (length h) h') at 1. f_equal.
  apply list_eq. intros i. destruct (decide (i < length h)) as [Hi|Hi].
  - rewrite lookup_take_lt by done. by apply Hb.
  - rewrite lookup_take_ge by lia. symmetry. apply lookup_ge_None. lia.
Qed.

End CopyFacts.

(** * The entities of specification.py *)

Module SpecificationFacts.
Import Py Logic PyFacts Framework CopyFacts.

(** The heap in which a migrating constructor starts its copies: the new
    instance is allocated and wired to its parent. *)
Lemma migrated_of_copied c Gs parent o h h' :
  o < length h → "parent" ∉ Gs →
  copied_all (length h) o Gs
    (write (h ++ [Obj c ∅]) (length h) "parent" parent) h' →
  migrated c Gs o h (length h) h'.
Proof.
  intros Ho Hpar (L & K & F & S & P & R).
  set (self := length h) in *.
  set (h1 := h ++ [Obj c ∅]) in *.
  set (h2 := write h1 self "parent" parent) in *.
  assert (length h2 = Datatypes.S (length h)) as Hl2.
  { unfold h2, h1. rewrite length_write, length_app. simpl. lia. }
  assert (∀ b k, b < length h → get h2 b k = get h b k) as Hold.
  { intros b k Hb. unfold h2. rewrite get_write_ne by (left; lia).
    by apply get_app_old. }
  assert (∀ k, k ≠ "parent" → get h2 self k = None) as Hnew.
  { intros k Hk. unfold h2. rewrite get_write_ne by (by right).
    unfold h1, self. by rewrite get_app_new. }
  split_and!.
  - done.
  - lia.
  - rewrite K. unfold h2. rewrite class_of_write. apply class_of_app_new.
  - intros b Hb. rewrite K. unfold h2. rewrite class_of_write.
    by apply class_of_app_old.
  - intros b k Hb Hk. rewrite F, Hold; [done..|]. intros [-> _]. lia.
  - intros G HG. rewrite (S G HG), Hold by done.
    destruct (get h o G); [done|]. apply Hnew. by intros ->.
  - intros b Hb. destruct (P b) as [E|[(G & HG & E) E']].
    + left. by rewrite E, Hold.
    + right. split; [|done]. exists G. by rewrite <- Hold.
  - intros G b HG E Hs.
    assert (b < length h) as Hb by (destruct Hs; by eapply get_lt).
    eapply R; [done|by rewrite Hold|by rewrite Hold].
Qed.

(** A leaf entity migrated from an object holds the origin's fields. *)
Lemma leaf_migrate_spec l parent o h :
  o < length h →
  post (leaf_new l parent (VRef o)) h
    (λ self h', migrated (leaf_class l) (leaf_fields l) o h self h').
Proof.
  intros Ho.
  assert (∀ G, G ∈ leaf_fields l → G ≠ "parent") as Hnp.
  { intros G HG ->. destruct l; simpl in HG;
      repeat (apply elem_of_cons in HG as [HG|HG]; [discriminate|]);
      by apply elem_of_nil in HG. }
  assert ("parent" ∉ leaf_fields l) as Hpar.
  { intros Hin. by apply (Hnp _ Hin). }
  set (self := length h).
  set (h1 := h ++ [Obj (leaf_class l) ∅]).
  set (h2 := write h1 self "parent" parent).
  assert (self < length h1) as Hs1.
  { unfold h1, self. rewrite length_app. simpl. lia. }
  assert (self < length h2) as Hs2 by (unfold h2; by rewrite length_write).
  assert (∀ front lastf, leaf_fields l = front ++ [lastf] →
            post (then_each
                    (Specification._copy_attribute_from_origin self (VRef o))
                    front
                    (Specification._copy_attribute_from_origin self (VRef o)
                       lastf)) h2
              (λ _ h', migrated (leaf_class l) (leaf_fields l) o h self h'))
    as Hrun.
  { intros front lastf Hf. eapply post_mono.
    - eapply (post_each_last _ self o); try done.
      + unfold self. lia.
      + by rewrite <- Hf.
      + intros G h3 HG Hs3 _ _. apply copy_attribute_spec; [done|].
        apply Hnp. by rewrite Hf.
    - intros u h' Hc. simpl in Hc. rewrite <- Hf in Hc.
      by eapply migrated_of_copied. }
  assert (post (Framework.GenericObject_init self
                  (VStr (lit (leaf_name l))) parent (VRef o)) h1
            (λ _ h', h' = h2)) as Hbase.
  { unfold Framework.GenericObject_init. simpl is_not_None. cbv iota.
    apply post_bind, post_require_object.
    { unfold h1. rewrite length_app. lia. }
    by apply post_setattr. }
  destruct l; unfold leaf_new, Specification.Engine,
    Specification.ExteriorDimensions, Specification.Gearbox, alloc;
    apply post_bind, post_new_object; fold self h1;
    unfold Specification.Engine_init, Specification.ExteriorDimensions_init,
      Specification.Gearbox_init; simpl is_not_None; cbv iota;
    apply post_bind, post_bind;
    (eapply post_mono; [apply Hbase|]); intros u h' ->.
  - eapply post_mono;
      [apply (Hrun ["type"; "powerInKW"] "capacityInLiters" eq_refl)|].
    intros u' h' Hm. by apply post_ret.
  - eapply post_mono;
      [apply (Hrun ["lengthInMm"; "widthInMm"] "heightInMm" eq_refl)|].
    intros u' h' Hm. by apply post_ret.
  - eapply post_mono; [apply (Hrun [] "type" eq_refl)|].
    intros u' h' Hm. by apply post_ret.
Qed.

(** The heap in which a constructor without origin starts its
    initialisations. *)
Lemma defaulted_of_grown c Gs Gs' oid parent h h' :
  "parent" ∉ Gs' →
  grown (length h) Gs'
    (write (write (h ++ [Obj c ∅]) (length h) "id" oid) (length h)
       "parent" parent) h' →
  (∀ G, G ∈ Gs → has_default h' (length h) G) →
  defaulted c Gs parent h (length h) h'.
Proof.
  intros Hpar Hg Hd.
  set (self := length h) in *.
  set (h2 := write (write (h ++ [Obj c ∅]) self "id" oid) self
               "parent" parent) in *.
  assert (length h2 = S (length h)) as Hl2.
  { unfold h2. rewrite !length_write, length_app. simpl. lia. }
  assert (∀ b, b < length h → h2 !! b = h !! b) as Hold.
  { intros b Hb. unfold h2, write.
    assert (self < length (h ++ [Obj c ∅])) as Hs.
    { rewrite length_app. simpl. unfold self. lia. }
    apply lookup_lt_is_Some_2 in Hs as [o1 Ho1]. rewrite Ho1.
    rewrite list_lookup_insert_eq by (by eapply lookup_lt_Some).
    rewrite list_lookup_insert_ne by (unfold self; lia).
    rewrite list_lookup_insert_ne by (unfold self; lia).
    by apply lookup_app_l. }
  destruct Hg as (L & O & K & F).
  split_and!; try done.
  - apply extends_of_lookup; [lia|].
    intros b Hb. rewrite O by (unfold self; lia). by apply Hold.
  - rewrite K. unfold h2. rewrite !class_of_write. apply class_of_app_new.
  - rewrite F by done. unfold h2. apply get_write_eq.
    rewrite length_write, length_app. simpl. unfold self. lia.
Qed.

Lemma base_init_fresh self oid parent h :
  self < length h →
  post (GenericObject_init self oid parent VNone) h
    (λ _ h', h' = write (write h self "id" oid) self "parent" parent).
Proof.
  intros Hs. unfold GenericObject_init. simpl.
  apply post_bind, post_setattr; [done|].
  apply post_setattr; [by rewrite length_write|done].
Qed.

(** A leaf entity constructed without origin has default attributes. *)
Lemma leaf_fresh_spec l parent h :
  post (leaf_new l parent VNone) h
    (λ self h', defaulted (leaf_class l) (leaf_fields l) parent h self h').
Proof.
  set (self := length h).
  set (h1 := h ++ [Obj (leaf_class l) ∅]).
  assert (self < length h1) as Hs1.
  { unfold h1, self. rewrite length_app. simpl. lia. }
  set (h2 := write (write h1 self "id" (VStr (lit (leaf_name l)))) self
               "parent" parent).
  assert (self < length h2) as Hs2 by (unfold h2; by rewrite !length_write).
  assert (∀ pairs p, (pairs ++ [p]).*2 = leaf_fields l →
            post (then_each
                    (λ p, let* a := Attribute_new p.1 p.2 (VRef self)
                                      Specification.custom in
                          setattr (VRef self) p.2 (VRef a))%py pairs
                    (let* a := Attribute_new p.1 p.2 (VRef self)
                                 Specification.custom in
                     setattr (VRef self) p.2 (VRef a))%py) h2
              (λ _ h', defaulted (leaf_class l) (leaf_fields l) parent h
                         self h')) as Hrun.
  { intros pairs p Hp. eapply post_mono.
    { by apply post_fresh_last. }
    intros u h' [Hg Hd]. simpl in Hg, Hd. rewrite Hp in *.
    eapply defaulted_of_grown; [|done|done].
    destruct l; simpl; intros Hin;
      repeat (apply elem_of_cons in Hin as [Hin|Hin]; [discriminate|]);
      by apply elem_of_nil in Hin. }
  destruct l; unfold leaf_new, Specification.Engine,
    Specification.ExteriorDimensions, Specification.Gearbox, alloc;
    apply post_bind, post_new_object; fold self h1;
    unfold Specification.Engine_init, Specification.ExteriorDimensions_init,
      Specification.Gearbox_init; simpl is_not_None; cbv iota;
    apply post_bind, post_bind;
    (eapply post_mono; [by apply base_init_fresh|]); intros u h' ->.
  - eapply post_mono;
      [apply (Hrun [(CStringAttribute, "type");
                    (CStringAttribute, "powerInKW")]
                (CStringAttribute, "capacityInLiters") eq_refl)|].
    intros u' h' Hm. by apply post_ret.
  - eapply post_mono;
      [apply (Hrun [(CStringAttribute, "lengthInMm");
                    (CStringAttribute, "widthInMm")]
                (CStringAttribute, "heightInMm") eq_refl)|].
    intros u' h' Hm. by apply post_ret.
  - eapply post_mono;
      [apply (Hrun [] (CStringAttribute, "type") eq_refl)|].
    intros u' h' Hm. by apply post_ret.
Qed.

Lemma leaf_name_not_parent l : leaf_name l ≠ "parent".
Proof. by destruct l. Qed.

Lemma leaf_fields_not_parent l G : G ∈ leaf_fields l → G ≠ "parent".
Proof.
  intros HG ->. destruct l; simpl in HG;
    repeat (apply elem_of_cons in HG as [HG|HG]; [discriminate|]);
    by apply elem_of_nil in HG.
Qed.

(** [self.N = Leaf(parent=self)] *)
Lemma nested_fresh_step l self h :
  self < length h →
  post (let* n := leaf_new l (VRef self) VNone in
        setattr (VRef self) (leaf_name l) (VRef n))%py h
    (λ _ h', grown self [leaf_name l] h h'
             ∧ get h' self (leaf_name l) = Some (VRef (length h))
             ∧ has_default_nested h' self (leaf_name l) (leaf_class l)
                 (leaf_fields l)).
Proof.
  intros Hself. apply post_bind. eapply post_mono.
  { apply leaf_fresh_spec. }
  intros n h1 (-> & Hext & Hc & Hp & Hd). simpl.
  assert (length h < length h1) as Hl.
  { apply class_of_Some_lt in Hc. done. }
  apply post_setattr; [lia|].
  assert (grown self [leaf_name l] h (write h1 self (leaf_name l)
                                        (VRef (length h)))) as Hg.
  { destruct Hext as [ext ->]. split_and!.
    - rewrite length_write. lia.
    - intros b Hb Hne. unfold write.
      rewrite (lookup_app_l h ext self) by done.
      apply lookup_lt_is_Some_2 in Hself as [o Ho]. rewrite Ho.
      rewrite list_lookup_insert_ne by done. by apply lookup_app_l.
    - rewrite class_of_write. by apply class_of_app_old.
    - intros k Hk. rewrite get_write_ne.
      + by apply get_app_old.
      + right. intros <-. apply Hk. by left. }
  split_and!; [done|apply get_write_eq; lia|].
  exists (length h). split_and!.
  - apply get_write_eq. lia.
  - done.
  - by rewrite class_of_write.
  - rewrite get_write_ne by (left; lia). done.
  - intros G HG. destruct (Hd G HG) as (d & E & Hlt & Ev & Ep).
    exists d. split_and!; [|done|..];
      rewrite get_write_ne by (left; lia); done.
Qed.

Lemma nested_done_of_fresh l s os h h' :
  s < length h →
  (∀ on, get h os (leaf_name l) ≠ Some (VRef on)) →
  grown s [leaf_name l] h h' →
  get h' s (leaf_name l) = Some (VRef (length h)) →
  has_default_nested h' s (leaf_name l) (leaf_class l) (leaf_fields l) →
  nested_done l s os h h'.
Proof.
  intros Hs Hno Hg Hget (n & E & Hn & Hc & Hp & Hd).
  rewrite Hget in E. injection E as <-.
  assert (length h < length h') as Hl by (by eapply class_of_Some_lt).
  split_and!; try done.
  - intros b Hb. by eapply grown_class.
  - intros b k Hb Hk Hnot. destruct (decide (b = s)) as [->|Hne].
    + destruct Hg as (_ & _ & _ & F). apply F.
      intros Hin. apply list_elem_of_singleton in Hin. by apply Hnot.
    + by eapply grown_get.
  - destruct (get h os (leaf_name l)) as [[| | | |on]|] eqn:E; try done.
    by destruct (Hno on).
  - intros b Hb. left. destruct (decide (b = s)) as [->|Hne].
    + destruct Hg as (_ & _ & _ & F). apply F.
      intros Hin. apply list_elem_of_singleton in Hin.
      by apply (leaf_name_not_parent l).
    + by eapply grown_get.
Qed.

(** [_copy_nested_object_from_origin(origin, name, Leaf)] *)
Lemma nested_step_spec l s os h :
  s < length h → os < length h →
  (∀ x, get h os (leaf_name l) = Some x → origin_ok h x) →
  post (Specification._copy_nested_object_from_origin s (VRef os)
          (leaf_name l) (leaf_new l)) h
    (λ _ h', nested_done l s os h h').
Proof.
  intros Hs Hos Hok. unfold Specification._copy_nested_object_from_origin.
  apply post_bind, post_hasattr.
  destruct (get h os (leaf_name l)) as [x|] eqn:E.
  - rewrite bool_decide_eq_true_2 by (by eexists).
    apply post_bind. eapply post_getattr; [done|].
    destruct (Hok x eq_refl) as [->|(on & -> & Hon)].
    + eapply post_mono; [by apply nested_fresh_step|].
      intros u h' (Hg & Hget & Hn). cbv beta in *.
      apply nested_done_of_fresh; try done. intros on. by rewrite E.
    + apply post_bind. eapply post_mono; [by apply leaf_migrate_spec|].
      intros n h1 (-> & Hl1 & Hc1 & Hk1 & Hf1 & Hs1 & Hp1 & _).
      cbv beta. apply post_setattr; [lia|].
      split_and!.
      * rewrite length_write. lia.
      * intros b Hb. rewrite class_of_write. by apply Hk1.
      * intros b k Hb Hk Hnot. rewrite get_write_ne; [by apply Hf1|].
        destruct (decide (s = b)) as [->|]; [|by left].
        right. intros <-. by apply Hnot.
      * apply get_write_eq. lia.
      * by rewrite class_of_write.
      * rewrite E. intros G HG. rewrite get_write_ne by (left; lia).
        by apply Hs1.
      * intros b Hb. rewrite get_write_ne.
        2:{ right. apply leaf_name_not_parent. }
        destruct (Hp1 b Hb) as [?|[(G & HG & EG) _]]; [by left|].
        right. exists on, G. by rewrite E.
  - rewrite bool_decide_eq_false_2 by (by intros [? ?]).
    eapply post_mono; [by apply nested_fresh_step|].
    intros u h' (Hg & Hget & Hn). cbv beta in *.
    apply nested_done_of_fresh; try done. intros on. by rewrite E.
Qed.

Lemma leaf_name_inj l l' : leaf_name l = leaf_name l' → l = l'.
Proof. by destruct l, l'. Qed.

Section Migration.
(** The heap [h] in which [Specification(parent, origin=os)] is called,
    and a later heap [hx] of the run in which the origin's fields are
    still what they were. *)
Variables (h : heap) (os : addr) (hx : heap).
Hypothesis Hnok : nested_ok h os.
Hypothesis Hos : os < length h.
Hypothesis Hlen : length h < length hx.
Hypothesis Hsame :
  ∀ b k, b < length h → k ≠ "parent" → get hx b k = get h b k.

Let s := length h.

Lemma origin_leaf_same l : get hx os (leaf_name l) = get h os (leaf_name l).
Proof. apply Hsame; [done|apply leaf_name_not_parent]. Qed.

Lemma origin_leaf_lt l on :
  get h os (leaf_name l) = Some (VRef on) → on < length h.
Proof.
  intros E. destruct Hnok as [H1 _].
  destruct (H1 l _ E) as [?|(a & [= <-] & ?)]; done.
Qed.

Lemma not_nested_value_new l' b :
  length h ≤ b →
  ¬ ∃ on G, get hx os (leaf_name l') = Some (VRef on)
            ∧ G ∈ leaf_fields l' ∧ get hx on G = Some (VRef b).
Proof.
  intros Hb (on & G & E1 & HG & E2).
  rewrite origin_leaf_same in E1.
  assert (on < length h) as Hon by (by eapply origin_leaf_lt).
  rewrite Hsame in E2;
    [|done|by eapply leaf_fields_not_parent].
  destruct Hnok as [_ H2]. specialize (H2 _ _ _ _ E1 HG E2). lia.
Qed.

Lemma leaf_of_new l hy :
  nested_done l s os hx hy → leaf_of h os hy s l.
Proof.
  intros (L & K & F & Hget & Hc & Hm & P).
  exists (length hx). split_and!; try done.
  rewrite origin_leaf_same in Hm.
  destruct (get h os (leaf_name l)) as [[| | | |on]|] eqn:E; try done.
  intros G HG. rewrite (Hm G HG). apply Hsame.
  - by eapply origin_leaf_lt.
  - by eapply leaf_fields_not_parent.
Qed.

Lemma leaf_of_kept l l' hy :
  l ≠ l' → leaf_of h os hx s l → nested_done l' s os hx hy →
  leaf_of h os hy s l.
Proof.
  intros Hne (n & Hget & Hn & Hc & Hm) (L & K & F & _ & _ & _ & P).
  assert (n < length hx) as Hnx by (by eapply class_of_Some_lt).
  assert (∀ b, length h ≤ b → b < length hx →
            get hy b "parent" = get hx b "parent") as Hpar.
  { intros b Hb1 Hb2. destruct (P b Hb2) as [?|Hex]; [done|].
    by destruct (not_nested_value_new l' b Hb1). }
  exists n. split_and!; try done.
  - rewrite F; [done|unfold s; lia|apply leaf_name_not_parent|].
    intros [_ Heq]. by apply Hne, leaf_name_inj.
  - by rewrite K.
  - destruct (get h os (leaf_name l)) as [[| | | |on]|] eqn:E;
      try (destruct Hm as [Hp Hd]; split;
           [rewrite Hpar by lia; done|];
           intros G HG; destruct (Hd G HG) as (d & Ed & Hlt & Ev & Ep);
           assert (d < length hx) by (by eapply get_lt);
           exists d; split_and!;
           [rewrite F;
              [done|done|by eapply leaf_fields_not_parent|
               intros [-> _]; unfold s in Hn; lia]
           |done
           |rewrite F; [done|done|done|intros [-> _]; unfold s in *; lia]
           |rewrite Hpar by lia; done]).
    intros G HG. rewrite F; [by apply Hm|done| |].
    + by eapply leaf_fields_not_parent.
    + intros [-> _]. unfold s in Hn. lia.
Qed.

End Migration.

Lemma spec_scalars_not leaf_ : leaf_name leaf_ ∉ spec_scalars.
Proof.
  intros Hin. destruct leaf_; simpl in Hin; unfold spec_scalars in Hin;
    repeat (apply elem_of_cons in Hin as [Hin|Hin]; [discriminate|]);
    by apply elem_of_nil in Hin.
Qed.

(** A specification constructed without origin. *)
Lemma spec_fresh_spec parent h :
  post (Specification.new parent VNone) h
    (λ s h', spec_defaulted parent h s h').
Proof.
  unfold Specification.new, alloc.
  apply post_bind, post_new_object.
  set (s := length h). set (h1 := h ++ [Obj CSpecification ∅]).
  assert (s < length h1) as Hs1.
  { unfold h1, s. rewrite length_app. simpl. lia. }
  apply post_bind. unfold Specification.init. simpl is_not_None. cbv iota.
  apply post_bind. eapply post_mono; [by apply base_init_fresh|].
  intros u h2 ->.
  set (h2 := write (write h1 s "id" (VStr (lit "specification"))) s
               "parent" parent).
  assert (s < length h2) as Hs2 by (unfold h2; by rewrite !length_write).
  change (Specification._initialize_attributes s) with
    (then_each
       (λ p, let* a := Attribute_new p.1 p.2 (VRef s)
                         Specification.custom in
             setattr (VRef s) p.2 (VRef a))%py spec_pairs
       ((let* n := leaf_new LExteriorDimensions (VRef s) VNone in
         setattr (VRef s) (leaf_name LExteriorDimensions) (VRef n));;
        (let* n := leaf_new LEngine (VRef s) VNone in
         setattr (VRef s) (leaf_name LEngine) (VRef n));;
        (let* n := leaf_new LGearbox (VRef s) VNone in
         setattr (VRef s) (leaf_name LGearbox) (VRef n)))%py).
  apply post_then_fresh; [done|]. intros h3 Hg3 Hd3.
  change (spec_pairs.*2) with spec_scalars in *.
  assert (s < length h3) as Hs3 by (destruct Hg3; lia).
  apply post_bind. eapply post_mono; [by apply nested_fresh_step|].
  intros u1 h4 (Hg4 & _ & Hn4). cbv beta in Hg4, Hn4.
  assert (s < length h4) as Hs4 by (destruct Hg4; lia).
  apply post_bind. eapply post_mono; [by apply nested_fresh_step|].
  intros u2 h5 (Hg5 & _ & Hn5). cbv beta in Hg5, Hn5.
  assert (s < length h5) as Hs5 by (destruct Hg5; lia).
  eapply post_mono; [by apply nested_fresh_step|].
  intros u3 h6 (Hg6 & _ & Hn6). cbv beta in Hg6, Hn6.
  apply post_ret.
  pose proof (grown_trans _ _ _ _ _ _ Hg3
                (grown_trans _ _ _ _ _ _ Hg4
                   (grown_trans _ _ _ _ _ _ Hg5 Hg6))) as Hg.
  assert (∀ G, G ∈ spec_scalars → has_default h6 s G) as Hd6.
  { intros G HG.
    assert (∀ l, G ∉ [leaf_name l]) as Hnot.
    { intros l Hin. apply list_elem_of_singleton in Hin. subst G.
      by apply (spec_scalars_not l). }
    eapply has_default_grown; [|exact Hg6|apply Hnot].
    eapply has_default_grown; [|exact Hg5|apply Hnot].
    eapply has_default_grown; [|exact Hg4|apply Hnot].
    by apply Hd3. }
  split_and!.
  - eapply defaulted_of_grown; [|exact Hg|done]. not_in_list.
  - intros [].
    + eapply has_default_nested_grown; [exact Hn5|exact Hg6|not_in_list].
    + eapply has_default_nested_grown; [|exact Hg6|not_in_list].
      eapply has_default_nested_grown; [exact Hn4|exact Hg5|not_in_list].
    + done.
  - intros k Hk1 Hk2 Hk3 Hk4.
    destruct Hg as (_ & _ & _ & F). rewrite F.
    + unfold h2. rewrite !get_write_ne by (by right).
      unfold h1, s. by rewrite get_app_new.
    + rewrite !elem_of_app, !list_elem_of_singleton.
      intros [Hin | [-> | [-> | ->]]]; [done|..].
      * by apply (Hk2 LExteriorDimensions).
      * by apply (Hk2 LEngine).
      * by apply (Hk2 LGearbox).
Qed.

(** A specification migrated from an object. *)
Lemma spec_migrate_spec parent os h :
  os < length h → nested_ok h os →
  post (Specification.new parent (VRef os)) h
    (λ s h', spec_migrated os h s h').
Proof.
  intros Hos Hok. unfold Specification.new, alloc.
  apply post_bind, post_new_object.
  set (s := length h). set (h1 := h ++ [Obj CSpecification ∅]).
  assert (s < length h1) as Hs1.
  { unfold h1, s. rewrite length_app. simpl. lia. }
  apply post_bind. unfold Specification.init. simpl is_not_None. cbv iota.
  apply post_bind.
  unfold GenericObject_init; simpl is_not_None; cbv iota.
  apply post_bind, post_require_object.
  { unfold h1. rewrite length_app. lia. }
  apply post_setattr; [done|].
  set (h2 := write h1 s "parent" parent).
  assert (length h2 = S (length h)) as Hl2.
  { unfold h2, h1. rewrite length_write, length_app. simpl. lia. }
  assert (∀ b k, b < length h → get h2 b k = get h b k) as Hold2.
  { intros b k Hb. unfold h2. rewrite get_write_ne by (left; unfold s; lia).
    by apply get_app_old. }
  assert (∀ k, k ≠ "parent" → get h2 s k = None) as Hnew2.
  { intros k Hk. unfold h2. rewrite get_write_ne by (by right).
    unfold h1, s. by rewrite get_app_new. }
  change (post
    (then_each (Specification._copy_attribute_from_origin s (VRef os))
       spec_scalars
       (Specification._copy_nested_object_from_origin s (VRef os)
          (leaf_name LExteriorDimensions) (leaf_new LExteriorDimensions);;
        Specification._copy_nested_object_from_origin s (VRef os)
          (leaf_name LEngine) (leaf_new LEngine);;
        Specification._copy_nested_object_from_origin s (VRef os)
          (leaf_name LGearbox) (leaf_new LGearbox))%py) h2
    (λ _ h', post (ret s) h' (λ s h', spec_migrated os h s h'))).
  assert (os ≠ s) as Hne by (unfold s; lia).
  eapply (post_then_each _ _ s os); [done|not_in_list|lia| |].
  { intros G h3 HG Hs3 _ _. apply copy_attribute_spec; [done|].
    intros ->. revert HG. not_in_list. }
  intros hc (Lc & Kc & Fc & Sc & Pc & Rc).
  (* the heap after the copies, seen from the heap of the call *)
  assert (∀ b k, b < length h → k ≠ "parent" → get hc b k = get h b k)
    as Holdc.
  { intros b k Hb Hk. rewrite Fc, Hold2; [done..|].
    intros [-> _]. unfold s in Hb. lia. }
  assert (∀ hx, length h < length hx →
            (∀ b k, b < length h → k ≠ "parent" → get hx b k = get h b k) →
            ∀ l x, get hx os (leaf_name l) = Some x → origin_ok hx x)
    as Hokx.
  { intros hx Hlx Hsx l x Hx. rewrite Hsx in Hx;
      [|done|apply leaf_name_not_parent].
    destruct Hok as [Hok1 _].
    destruct (Hok1 l x Hx) as [->|(a & -> & Ha)]; [by left|].
    right. exists a. split; [done|lia]. }
  apply post_bind. eapply post_mono.
  { apply (nested_step_spec LExteriorDimensions); [lia|lia|].
    apply Hokx; [lia|done]. }
  intros u1 h3 N1. cbv beta.
  pose proof N1 as (L3 & K3 & F3 & _ & _ & _ & P3).
  assert (∀ b k, b < length h → k ≠ "parent" → get h3 b k = get h b k)
    as Hold3.
  { intros b k Hb Hk. rewrite F3, Holdc; [done..|lia|done|].
    intros [-> _]. unfold s in Hb. lia. }
  apply post_bind. eapply post_mono.
  { apply (nested_step_spec LEngine); [lia|lia|].
    apply Hokx; [lia|done]. }
  intros u2 h4 N2. cbv beta.
  pose proof N2 as (L4 & K4 & F4 & _ & _ & _ & P4).
  assert (∀ b k, b < length h → k ≠ "parent" → get h4 b k = get h b k)
    as Hold4.
  { intros b k Hb Hk. rewrite F4, Hold3; [done..|lia|done|].
    intros [-> _]. unfold s in Hb. lia. }
  eapply post_mono.
  { apply (nested_step_spec LGearbox); [lia|lia|].
    apply Hokx; [lia|done]. }
  intros u3 h5 N3. cbv beta. apply post_ret.
  pose proof N3 as (L5 & K5 & F5 & _ & _ & _ & P5).
  assert (∀ b, b < length h →
            get h5 b "parent" = get hc b "parent" ∨ nested_value h os b)
    as Hpar.
  { intros b Hb.
    assert (∀ l hx, (∀ b k, b < length h → k ≠ "parent" →
                       get hx b k = get h b k) →
              (∃ on G, get hx os (leaf_name l) = Some (VRef on)
                       ∧ G ∈ leaf_fields l ∧ get hx on G = Some (VRef b)) →
              nested_value h os b) as Hnv.
    { intros l hx Hsx (on & G & E1 & HG & E2).
      rewrite Hsx in E1; [|done|apply leaf_name_not_parent].
      rewrite Hsx in E2;
        [|by eapply (origin_leaf_lt h os)|by eapply leaf_fields_not_parent].
      by exists l, on, G. }
    destruct (P5 b) as [->|Hex]; [lia| |right; exact (Hnv _ h4 Hold4 Hex)].
    destruct (P4 b) as [->|Hex]; [lia| |right; exact (Hnv _ h3 Hold3 Hex)].
    destruct (P3 b) as [->|Hex]; [lia| |right; exact (Hnv _ hc Holdc Hex)].
    by left. }
  split_and!.
  - done.
  - lia.
  - rewrite K5, K4, K3, Kc by lia. unfold h2. rewrite class_of_write.
    apply class_of_app_new.
  - intros b Hb. rewrite K5, K4, K3, Kc by lia. unfold h2.
    rewrite class_of_write. by apply class_of_app_old.
  - intros b k Hb Hk. rewrite F5, Hold4; [done..|lia|done|].
    intros [-> _]. unfold s in Hb. lia.
  - intros G HG.
    assert (G ≠ "parent") as HGp by (intros ->; revert HG; not_in_list).
    assert (∀ l, ¬ (s = s ∧ G = leaf_name l)) as Hnl.
    { intros l [_ ->]. by apply (spec_scalars_not l). }
    rewrite F5, F4, F3 by first [lia | done | apply Hnl].
    rewrite (Sc G HG), Hold2 by done.
    destruct (get h os G); [done|]. by apply Hnew2.
  - assert (length h < length hc) as Hlc by lia.
    assert (length h < length h3) as Hl3 by lia.
    assert (length h < length h4) as Hl4 by lia.
    pose proof (leaf_of_new h os hc Hok Hos Hlc Holdc _ _ N1) as E1.
    pose proof (leaf_of_new h os h3 Hok Hos Hl3 Hold3 _ _ N2) as E2.
    pose proof (leaf_of_new h os h4 Hok Hos Hl4 Hold4 _ _ N3) as E3.
    intros [].
    + by apply (leaf_of_kept h os h4 Hok Hos Hl4 Hold4 LEngine LGearbox h5).
    + apply (leaf_of_kept h os h4 Hok Hos Hl4 Hold4 LExteriorDimensions
               LGearbox h5); [done| |exact N3].
      by apply (leaf_of_kept h os h3 Hok Hos Hl3 Hold3 LExteriorDimensions
                  LEngine h4).
    + done.
  - intros b Hb. destruct (Hpar b Hb) as [->|?]; [|by auto].
    destruct (Pc b) as [->|[(G & HG & EG) _]].
    + left. by apply Hold2.
    + right. left. exists G. by rewrite <- Hold2.
  - intros G b HG E Hsome Hnn.
    assert (b < length h) as Hb by (destruct Hsome; by eapply get_lt).
    destruct (Hpar b Hb) as [->|?]; [|done].
    eapply Rc; [done|by rewrite Hold2|by rewrite Hold2].
Qed.

End SpecificationFacts.

(** * service_partner.py *)

Module ServicePartnerFacts.
Import Py Logic PyFacts Framework CopyFacts SpecificationFacts.

Section Run.
Variables (h : heap) (parent : value).

Let self := length h.
Let attr (owner : addr) : object :=
  Obj CStringAttribute
    (<["name" := VStr (lit "service_partner_id")]>
       (<["parent" := VRef owner]>
          (<["value" := VNone]>
             (<["tags" := VTags ServicePartner.custom]> ∅)))).

(** The heap once the instance is allocated and wired to its parent. *)
Let h2 : heap :=
  write (write (h ++ [Obj CServicePartner ∅]) self "id"
           (VStr (lit "service_partner"))) self "parent" parent.

(** The heap once [fresh_id] has run in it. *)
Let h3 : heap :=
  write (h2 ++ [attr self]) self "service_partner_id" (VRef (S self)).

Lemma length_h2 : length h2 = S self.
Proof.
  unfold h2. rewrite !length_write, length_app. simpl. unfold self. lia.
Qed.

Lemma length_h3 : length h3 = S (S self).
Proof.
  unfold h3. rewrite length_write, length_app, length_h2. simpl. lia.
Qed.

Lemma h3_old b k : b < self → get h3 b k = get h b k.
Proof.
  intros Hb. unfold h3. rewrite get_write_ne by (left; lia).
  rewrite get_app_old by (rewrite length_h2; lia).
  unfold h2. rewrite !get_write_ne by (left; lia).
  by apply get_app_old.
Qed.

Lemma h3_self k :
  get h3 self k
  = if decide (k = "service_partner_id") then Some (VRef (S self))
    else if decide (k = "parent") then Some parent
    else if decide (k = "id") then Some (VStr (lit "service_partner"))
    else None.
Proof.
  unfold h3. rewrite get_write, length_app, length_h2. simpl.
  destruct (decide (k = "service_partner_id")) as [->|Hk].
  { rewrite decide_True; [done|]. split_and!; try done. lia. }
  rewrite decide_False by (by intros (_ & ? & _)).
  rewrite get_app_old by (rewrite length_h2; lia).
  unfold h2. rewrite get_write, length_write, length_app. simpl.
  destruct (decide (k = "parent")) as [->|Hk2].
  { rewrite decide_True; [done|]. split_and!; try done. unfold self. lia. }
  rewrite decide_False by (by intros (_ & ? & _)).
  rewrite get_write, length_app. simpl.
  destruct (decide (k = "id")) as [->|Hk3].
  { rewrite decide_True; [done|]. split_and!; try done. unfold self. lia. }
  rewrite decide_False by (by intros (_ & ? & _)).
  unfold self. by rewrite get_app_new.
Qed.

Lemma h3_attr k : get h3 (S self) k = dict (attr self) !! k.
Proof.
  unfold h3. rewrite get_write_ne by (left; lia).
  rewrite <- length_h2. unfold attr. by rewrite get_app_new.
Qed.

Lemma h3_beyond b k : S self < b → get h3 b k = None.
Proof. intros Hb. apply get_ge. rewrite length_h3. lia. Qed.

Lemma h3_lookup b : b < self → h3 !! b = h !! b.
Proof.
  intros Hb. unfold h3, write.
  assert (self < length (h2 ++ [attr self])) as Hs.
  { rewrite length_app, length_h2. lia. }
  apply lookup_lt_is_Some_2 in Hs as [o ->].
  rewrite list_lookup_insert_ne by lia.
  rewrite lookup_app_l by (rewrite length_h2; lia).
  unfold h2, write.
  assert (self < length (h ++ [Obj CServicePartner ∅])) as Hs.
  { rewrite length_app. simpl. unfold self. lia. }
  apply lookup_lt_is_Some_2 in Hs as [o1 Ho1]. rewrite Ho1.
  rewrite list_lookup_insert_eq by (by eapply lookup_lt_Some).
  rewrite !list_lookup_insert_ne by lia.
  by apply lookup_app_l.
Qed.

Lemma class_h3_self : class_of h3 self = Some CServicePartner.
Proof.
  unfold h3. rewrite class_of_write.
  rewrite class_of_app_old by (rewrite length_h2; lia).
  unfold h2. rewrite !class_of_write. apply class_of_app_new.
Qed.

Lemma class_h3_attr : class_of h3 (S self) = Some CStringAttribute.
Proof.
  unfold h3. rewrite class_of_write, <- length_h2. unfold attr.
  apply class_of_app_new.
Qed.

(** [fresh_id] from the heap in which the instance is wired. *)
Lemma fresh_id_h2 :
  ServicePartner.fresh_id self h2 = Ok tt h3.
Proof.
  unfold ServicePartner.fresh_id, StringAttribute, Attribute_new, bind,
    new_object, setattr.
  rewrite length_h2.
  assert (self < length (h2 ++ [attr self])) as Hs.
  { rewrite length_app, length_h2. lia. }
  apply lookup_lt_is_Some_2 in Hs as [o Ho].
  unfold attr in Ho. rewrite Ho. done.
Qed.

(** What the run reads in [h3], in terms of the heap of the call. *)
Lemma h3_read_id o :
  get h3 o "service_partner_id"
  = match get h o "service_partner_id" with
    | Some x => Some x
    | None => if decide (o = self) then Some (VRef (S self)) else None
    end.
Proof.
  destruct (decide (o < self)) as [Ho|Ho].
  - rewrite h3_old by done.
    destruct (get h o "service_partner_id") eqn:E; [done|].
    rewrite decide_False by lia. done.
  - rewrite (get_ge h o) by (unfold self in Ho; lia).
    destruct (decide (o = self)) as [->|Hne].
    + by rewrite h3_self.
    + destruct (decide (o = S self)) as [->|Hne'].
      * by rewrite h3_attr.
      * apply h3_beyond. lia.
Qed.

Lemma h3_read_value x :
  get h3 x "value"
  = match get h x "value" with
    | Some v => Some v
    | None => if decide (x = S self) then Some VNone else None
    end.
Proof.
  destruct (decide (x < self)) as [Hx|Hx].
  - rewrite h3_old by done.
    destruct (get h x "value") eqn:E; [done|].
    rewrite decide_False by lia. done.
  - rewrite (get_ge h x) by (unfold self in Hx; lia).
    destruct (decide (x = S self)) as [->|Hne].
    + by rewrite h3_attr.
    + destruct (decide (x = self)) as [->|Hne'].
      * by rewrite h3_self.
      * apply h3_beyond. lia.
Qed.

(** The three heaps the constructor can end in. *)
Lemma made_plain origin :
  copied_value h origin = VNone → partner_made h origin self h3.
Proof.
  intros Hv. split_and!; [done| |apply class_h3_self|].
  - apply extends_of_lookup; [rewrite length_h3; unfold self; lia|].
    apply h3_lookup.
  - exists (S self). rewrite Hv. split_and!.
    + by rewrite h3_self.
    + unfold self. lia.
    + apply class_h3_attr.
    + by rewrite h3_attr.
    + by rewrite h3_attr.
Qed.

Lemma made_copied origin v :
  copied_value h origin = v →
  partner_made h origin self (write h3 (S self) "value" v).
Proof.
  intros Hv. split_and!; [done| |by rewrite class_of_write, class_h3_self|].
  - apply extends_of_lookup.
    { rewrite length_write, length_h3. unfold self. lia. }
    intros b Hb. unfold write.
    assert (S self < length h3) as Hs by (rewrite length_h3; lia).
    apply lookup_lt_is_Some_2 in Hs as [o ->].
    rewrite list_lookup_insert_ne by (unfold self; lia).
    by apply h3_lookup.
  - exists (S self). rewrite Hv. split_and!.
    + rewrite get_write_ne by (left; lia). by rewrite h3_self.
    + unfold self. lia.
    + rewrite class_of_write. apply class_h3_attr.
    + rewrite get_write_ne by (by right). by rewrite h3_attr.
    + apply get_write_eq. rewrite length_h3. lia.
Qed.

Lemma made_handler origin :
  copied_value h origin = VNone →
  partner_made h origin self
    (write (h3 ++ [attr self]) self "service_partner_id"
       (VRef (S (S self)))).
Proof.
  intros Hv.
  assert (self < length (h3 ++ [attr self])) as Hs.
  { rewrite length_app, length_h3. lia. }
  split_and!; [done| | |].
  - apply extends_of_lookup.
    { rewrite length_write, length_app, length_h3. unfold self. lia. }
    intros b Hb. unfold write.
    apply lookup_lt_is_Some_2 in Hs as [o ->].
    rewrite list_lookup_insert_ne by (unfold self; lia).
    rewrite lookup_app_l by (rewrite length_h3; unfold self; lia).
    by apply h3_lookup.
  - rewrite class_of_write.
    rewrite class_of_app_old by (rewrite length_h3; lia).
    apply class_h3_self.
  - exists (S (S self)). rewrite Hv. split_and!.
    + by apply get_write_eq.
    + unfold self. lia.
    + rewrite class_of_write, <- length_h3. unfold attr.
      apply class_of_app_new.
    + rewrite get_write_ne by (left; lia). rewrite <- length_h3.
      unfold attr. by rewrite get_app_new.
    + rewrite get_write_ne by (left; lia). rewrite <- length_h3.
      unfold attr. by rewrite get_app_new.
Qed.

Lemma fresh_id_h3 :
  ServicePartner.fresh_id self h3
  = Ok tt (write (h3 ++ [attr self]) self "service_partner_id"
             (VRef (S (S self)))).
Proof.
  unfold ServicePartner.fresh_id, StringAttribute, Attribute_new, bind,
    new_object, setattr.
  rewrite length_h3.
  assert (self < length (h3 ++ [attr self])) as Hs.
  { rewrite length_app, length_h3. lia. }
  apply lookup_lt_is_Some_2 in Hs as [o Ho].
  unfold attr in Ho. rewrite Ho. done.
Qed.

(** [_copy_attributes_from_origin] never raises, whatever the origin
    holds. *)
Lemma copy_attributes_run origin :
  ∃ h', ServicePartner._copy_attributes_from_origin self origin h2
        = Ok tt h'
        ∧ partner_made h origin self h'.
Proof.
  unfold ServicePartner._copy_attributes_from_origin, try_except.
  unfold bind at 1. rewrite fresh_id_h2.
  destruct origin as [| | | |o];
    try (eexists; split; [reflexivity|]; by apply made_plain).
  unfold bind at 1. unfold hasattr. rewrite h3_read_id.
  unfold copied_value.
  destruct (get h o "service_partner_id") as [x|] eqn:Eo.
  2:{ destruct (decide (o = self)) as [->|Hne].
      - rewrite bool_decide_eq_true_2 by (by eexists).
        unfold bind at 1. unfold bind at 1. unfold getattr at 1.
        rewrite h3_read_id, Eo, decide_True by done.
        unfold bind at 1. unfold value_of, getattr at 1.
        rewrite h3_attr. simpl.
        eexists; split; [done|]. apply made_plain.
        unfold copied_value. by rewrite Eo.
      - rewrite bool_decide_eq_false_2 by (by intros [? ?]).
        unfold bind at 1. simpl.
        eexists; split; [done|]. apply made_plain.
        unfold copied_value. by rewrite Eo. }
  rewrite bool_decide_eq_true_2 by (by eexists).
  unfold bind at 1. unfold bind at 1. unfold getattr at 1.
  rewrite h3_read_id, Eo.
  unfold bind at 1. unfold value_of.
  destruct x as [| | | |x];
    try (simpl; rewrite fresh_id_h3; eexists; split; [done|];
         apply made_handler; unfold copied_value; by rewrite Eo).
  unfold getattr at 1. rewrite h3_read_value.
  destruct (get h x "value") as [v|] eqn:Ev.
  - simpl ret. unfold ret at 1. cbv beta iota.
    destruct (is_not_None v) eqn:Hv.
    + unfold bind at 1. unfold getattr at 1. rewrite h3_self. simpl.
      unfold bind at 1. unfold getattr at 1. rewrite h3_read_id, Eo.
      unfold bind at 1. unfold getattr at 1. rewrite h3_read_value, Ev.
      unfold _set_value, setattr.
      assert (S self < length h3) as Hs by (rewrite length_h3; lia).
      apply lookup_lt_is_Some_2 in Hs as [oa ->].
      eexists; split; [done|]. apply made_copied.
      unfold copied_value. by rewrite Eo, Ev, Hv.
    + eexists; split; [done|]. apply made_plain.
      unfold copied_value. by rewrite Eo, Ev, Hv.
  - destruct (decide (x = S self)) as [->|Hne].
    + simpl. eexists; split; [done|]. apply made_plain.
      unfold copied_value. by rewrite Eo, Ev.
    + simpl. rewrite fresh_id_h3. eexists; split; [done|].
      apply made_handler. unfold copied_value. by rewrite Eo, Ev.
Qed.

End Run.

(** [ServicePartner(parent, origin)] returns, whatever [origin] is. *)
Lemma partner_new_spec parent origin h :
  post (ServicePartner.new parent origin) h
    (λ self h', partner_made h origin self h').
Proof.
  unfold ServicePartner.new, alloc. apply post_bind, post_new_object.
  apply post_bind. unfold ServicePartner.init.
  apply post_bind. eapply post_mono.
  { apply base_init_fresh. rewrite length_app. simpl. lia. }
  intros u h2 ->. cbv beta.
  destruct (is_not_None origin) eqn:Hn.
  - destruct (copy_attributes_run h parent origin) as (h' & E & Hm).
    unfold post, outcome. rewrite E. done.
  - unfold post, outcome. rewrite fresh_id_h2. apply made_plain.
    by destruct origin.
Qed.


End ServicePartnerFacts.

(** * vehicle.py *)

Module VehicleFacts.
Import Py Logic PyFacts Framework CopyFacts SpecificationFacts.

(** *** Taking a field over *)

Lemma adopts_refl self Gs h : adopts self Gs h h.
Proof. split; [apply changes_refl|]. intros; by left. Qed.

Lemma adopts_trans self Gs h1 h2 h3 :
  adopts self Gs h1 h2 → adopts self Gs h2 h3 → adopts self Gs h1 h3.
Proof.
  intros [C1 P1] [C2 P2]. split; [by eapply changes_trans|].
  intros b Hb Hne.
  assert (b < length h2) as Hb2 by (destruct C1; lia).
  destruct (P2 b Hb2 Hne) as [->| ->]; [by apply P1|by right].
Qed.

Lemma adopts_weaken self Gs Gs' h h' :
  Gs ⊆ Gs' → adopts self Gs h h' → adopts self Gs' h h'.
Proof. intros Hsub [C P]. split; [by eapply changes_weaken|done]. Qed.

Lemma adopts_of_copied_all self o Gs h h' :
  copied_all self o Gs h h' → adopts self Gs h h'.
Proof.
  intros (L & K & F & S & P & R). split.
  - split_and!; [lia|by intros|by intros; apply F].
  - intros b _ _. destruct (P b) as [?|[_ ?]]; auto.
Qed.

Lemma adopts_of_grown self Gs h h' :
  grown self Gs h h' → adopts self Gs h h'.
Proof.
  intros Hg. pose proof Hg as (L & O & K & F). split.
  - split_and!; [done|intros b Hb; by eapply grown_class|].
    intros b k Hb Hk Hn. destruct (decide (b = self)) as [->|Hne].
    + apply F. intros Hin. by apply Hn.
    + by eapply grown_get.
  - intros b Hb Hne. left. by eapply grown_get.
Qed.

(** [self.G = origin.G] and [self.G.parent = self] *)
Lemma adopt_spec self o G b h :
  self < length h → G ≠ "parent" →
  get h o G = Some (VRef b) → b < length h →
  post (Vehicle.adopt self (VRef o) G) h (λ _ h', copied self o G h h').
Proof.
  intros Hs HG E Hb. unfold Vehicle.adopt.
  apply post_bind. eapply post_getattr; [done|].
  apply post_bind, post_setattr; [done|].
  apply post_bind. eapply post_getattr; [by apply get_write_eq|].
  apply post_setattr; [by rewrite length_write|].
  by apply copied_linked.
Qed.

Lemma adopt_if_present_spec self o G h :
  self < length h → G ≠ "parent" → field_ok h o G →
  post (Vehicle.adopt_if_present self (VRef o) G) h
    (λ _ h', copied self o G h h').
Proof.
  intros Hs HG Hr. unfold Vehicle.adopt_if_present.
  apply post_bind, post_hasattr.
  destruct (get h o G) as [x|] eqn:E.
  - rewrite bool_decide_eq_true_2 by (by eexists).
    destruct (Hr x E) as (b & -> & Hb).
    by apply (adopt_spec self o G b).
  - rewrite bool_decide_eq_false_2 by (by intros [? ?]).
    apply post_ret. by apply copied_absent.
Qed.

(** A base field of the framework's vehicle: taken over from the origin
    when it has it, made anew otherwise. *)
Lemma base_field_spec self o G (default : M addr) c d h :
  self < length h → G ≠ "parent" →
  (∀ h1, default h1 = new_object c d h1) →
  post (migrate_base_field self (VRef o) G default) h
    (λ _ h', adopts self [G] h h'
             ∧ get h' self G
               = Some (match get h o G with
                       | Some x => x
                       | None => VRef (length h)
                       end)
             ∧ (get h o G = None → length h < length h')).
Proof.
  intros Hs HG Hdef.
  destruct (get h o G) as [x|] eqn:E.
  - assert (migrate_base_field self (VRef o) G default h
            = Specification._copy_attribute_from_origin self (VRef o) G h)
      as Heq.
    { unfold migrate_base_field, Specification._copy_attribute_from_origin,
        bind, hasattr.
      rewrite bool_decide_eq_true_2 by (by eexists). done. }
    pose proof (copy_attribute_spec self o G h Hs HG) as Hcopy.
    unfold post, outcome in *. rewrite Heq.
    destruct (Specification._copy_attribute_from_origin self (VRef o) G h)
      as [u h'|]; [|done].
    split_and!.
    + eapply adopts_of_copied_all, copied_all_one; exact Hcopy.
    + destruct Hcopy as (_ & _ & _ & S & _). by rewrite S, E.
    + done.
  - unfold migrate_base_field, post, outcome, bind, hasattr.
    rewrite E.
    rewrite bool_decide_eq_false_2 by (by intros [? ?]).
    rewrite Hdef. unfold new_object, setattr.
    assert (self < length (h ++ [Obj c d])) as Hs'.
    { rewrite length_app. lia. }
    apply lookup_lt_is_Some_2 in Hs' as [os Hos]. rewrite Hos.
    assert (grown self [G] h (write (h ++ [Obj c d]) self G
                                (VRef (length h)))) as Hg.
    { split_and!.
      - rewrite length_write, length_app. lia.
      - intros b Hb Hne. unfold write. rewrite Hos.
        rewrite list_lookup_insert_ne by done. by apply lookup_app_l.
      - rewrite class_of_write. by apply class_of_app_old.
      - intros k Hk. rewrite get_write_ne.
        + by apply get_app_old.
        + right. intros <-. apply Hk. by left. }
    split_and!.
    + by apply adopts_of_grown.
    + apply get_write_eq. rewrite length_app. lia.
    + intros _. rewrite length_write, length_app. simpl. lia.
Qed.

(** *** The phases of a vehicle migration *)

Lemma adopts_get self Gs h h' b k :
  adopts self Gs h h' → b < length h → k ≠ "parent" →
  ¬ (b = self ∧ k ∈ Gs) → get h' b k = get h b k.
Proof. intros [(_ & _ & F) _]. apply F. Qed.

Lemma adopts_length self Gs h h' : adopts self Gs h h' → length h ≤ length h'.
Proof. by intros [(L & _) _]. Qed.

Lemma adopts_class self Gs h h' b :
  adopts self Gs h h' → b < length h → class_of h' b = class_of h b.
Proof. intros [(_ & K & _) _]. apply K. Qed.

(** The framework's constructor, migrating. *)
Lemma generic_vehicle_spec self garage o h :
  self < length h → o < length h →
  post (GenericVehicle_init self VNone garage VNone (VRef o)) h
    (λ _ h', base_done self o h h').
Proof.
  intros Hs Ho. unfold GenericVehicle_init. simpl is_not_None. cbv iota.
  apply post_bind. unfold GenericObject_init. simpl is_not_None. cbv iota.
  apply post_bind, post_require_object; [done|].
  apply post_setattr; [done|].
  set (h1 := write h self "parent" garage).
  assert (adopts self ["manufacturer"; "climatization"] h h1) as A1.
  { split; [apply changes_write_parent|]. intros b Hb Hne. left.
    apply get_write_ne. by left. }
  assert (length h1 = length h) as Hl1 by apply length_write.
  apply post_bind. eapply post_mono.
  { eapply (base_field_spec self o "manufacturer" _ CStringAttribute);
      [lia|done|]. intros h'. reflexivity. }
  intros u h2 (A2 & E2 & L2). cbv beta.
  eapply post_mono.
  { eapply (base_field_spec self o "climatization" _ CClimatization);
      [|done|].
    - apply adopts_length in A2. lia.
    - intros h'. reflexivity. }
  intros u' h3 (A3 & E3 & L3). cbv beta.
  assert (get h1 o "manufacturer" = get h o "manufacturer") as Eo.
  { apply get_write_ne. by right. }
  split_and!.
  - eapply adopts_trans; [exact A1|].
    eapply adopts_trans.
    + eapply adopts_weaken; [|exact A2]. sub_list.
    + eapply adopts_weaken; [|exact A3]. sub_list.
  - rewrite (adopts_get self ["climatization"] h2 h3);
      [|done|apply adopts_length in A2; lia|done|not_in_list_and].
    rewrite E2, Eo, Hl1. done.
  - intros En. rewrite <- Eo in En. specialize (L2 En).
    apply adopts_length in A3. lia.
Qed.

(** One legacy field of an origin without specification. *)
Lemma adopt_legacy_spec self s o L f h :
  get h self "specification" = Some (VRef s) → s < length h → s ≠ self →
  (∀ x, get h o L = Some x → ∃ b, x = VRef b ∧ b < length h) →
  post (Vehicle.adopt_legacy self (VRef o) L f) h
    (λ _ h', h' = legacy_step s o L f h).
Proof.
  intros Hspec Hs Hne Hok. unfold Vehicle.adopt_legacy, legacy_step.
  apply post_bind, post_hasattr.
  destruct (get h o L) as [x|] eqn:E.
  - rewrite bool_decide_eq_true_2 by (by eexists).
    destruct (Hok x eq_refl) as (b & -> & Hb).
    apply post_bind. eapply post_getattr; [done|].
    apply post_bind. eapply post_getattr; [done|].
    apply post_bind, post_setattr; [done|].
    assert (get (write h s f (VRef b)) self "specification"
            = Some (VRef s)) as Hspec'.
    { rewrite get_write_ne by (by left). done. }
    apply post_bind. eapply post_getattr; [done|].
    apply post_bind. eapply post_getattr; [by apply get_write_eq|].
    apply post_bind. eapply post_getattr; [done|].
    apply post_setattr; [by rewrite length_write|done].
  - rewrite bool_decide_eq_false_2 by (by intros [? ?]).
    by apply post_ret.
Qed.

Lemma legacy_step_length s o L f h :
  length (legacy_step s o L f h) = length h.
Proof.
  unfold legacy_step. destruct (get h o L) as [[| | | |x]|]; try done.
  by rewrite !length_write.
Qed.

(** A legacy step writes a field of the specification and a parent link. *)
Lemma legacy_step_get s o L f h b k :
  k ≠ "parent" → ¬ (b = s ∧ k = f) →
  get (legacy_step s o L f h) b k = get h b k.
Proof.
  intros Hk Hn. unfold legacy_step.
  destruct (get h o L) as [[| | | |x]|]; try done.
  rewrite get_write_ne by (by right). apply get_write_ne.
  destruct (decide (s = b)) as [->|]; [|by left].
  right. intros <-. by apply Hn.
Qed.

(** The specification part of the migrating branch. *)
Lemma migrate_specification_spec self o h :
  self < length h → o < length h → o ≠ self →
  (∀ x, get h o "specification" = Some x →
     x = VNone ∨ ∃ os, x = VRef os ∧ os < length h ∧ nested_ok h os) →
  (get h o "specification" = None →
     ∀ p, p ∈ legacy_fields →
       ∀ x, get h o p.1 = Some x → ∃ b, x = VRef b ∧ b < length h) →
  post (Vehicle.migrate_specification self (VRef o)) h
    (λ _ h', spec_done self o h h').
Proof.
  intros Hs Ho Hne Hspec Hleg. unfold Vehicle.migrate_specification.
  apply post_bind, post_hasattr. unfold spec_done.
  destruct (get h o "specification") as [x|] eqn:E.
  - rewrite bool_decide_eq_true_2 by (by eexists).
    apply post_bind. eapply post_getattr; [done|].
    destruct (Hspec x eq_refl) as [->|(os & -> & Hos & Hnok)].
    + apply post_bind. eapply post_mono; [apply spec_fresh_spec|].
      intros s h1 Hd. cbv beta.
      pose proof Hd as ((-> & Hext & _) & _).
      apply post_setattr; [apply extends_length in Hext; lia|].
      by exists h1.
    + apply post_bind. eapply post_mono; [by apply spec_migrate_spec|].
      intros s h1 Hm. cbv beta.
      pose proof Hm as (-> & Hl & _).
      apply post_setattr; [lia|]. by exists h1.
  - rewrite bool_decide_eq_false_2 by (by intros [? ?]).
    apply post_bind, post_bind. eapply post_mono; [apply spec_fresh_spec|].
    intros s h1 Hd. cbv beta.
    pose proof Hd as ((-> & Hext & Hcls & _) & _).
    assert (length h < length h1) as Hl1 by (by eapply class_of_Some_lt).
    apply post_setattr; [lia|].
    set (s := length h) in *.
    set (h2 := write h1 self "specification" (VRef s)).
    assert (∀ L, L ≠ "parent" → get h2 o L = get h o L) as Ho2.
    { intros L HL. unfold h2. rewrite get_write_ne by (by left).
      by apply extends_get. }
    assert (get h2 self "specification" = Some (VRef s)) as Hsp2.
    { apply get_write_eq. lia. }
    assert (length h2 = length h1) as Hl2 by apply length_write.
    assert (∀ hx, length hx = length h1 →
              (∀ b k, k ≠ "parent" → b ≠ s → get hx b k = get h2 b k) →
              ∀ p, p ∈ legacy_fields →
                ∀ x, get hx o p.1 = Some x → ∃ b, x = VRef b ∧ b < length hx)
      as Hokx.
    { intros hx Hlx Hsx p Hp x Hx.
      assert (p.1 ≠ "parent") as Hp1.
      { revert Hp. unfold legacy_fields. intros Hp.
        repeat (apply elem_of_cons in Hp as [->|Hp]; [done|]).
        by apply elem_of_nil in Hp. }
      rewrite Hsx, Ho2 in Hx by (done || unfold s; lia).
      destruct (Hleg eq_refl p Hp x Hx) as (b & -> & Hb).
      exists b. split; [done|lia]. }
    apply post_bind. eapply post_mono.
    { apply (adopt_legacy_spec self s); [done|lia|unfold s; lia|].
      apply (Hokx h2 Hl2 ltac:(done)
               ("spec_engine_fuel_type", "engine_fuel_type")). sub_in. }
    intros u h3 ->. cbv beta.
    set (h3 := legacy_step s o "spec_engine_fuel_type" "engine_fuel_type" h2).
    assert (∀ b k, k ≠ "parent" → b ≠ s → get h3 b k = get h2 b k) as H3.
    { intros b k Hk Hb. apply legacy_step_get; [done|]. by intros [? _]. }
    apply post_bind. eapply post_mono.
    { apply (adopt_legacy_spec self s).
      - rewrite H3 by (done || unfold s; lia). done.
      - unfold h3. rewrite legacy_step_length. lia.
      - unfold s. lia.
      - apply (Hokx h3) with (p := ("spec_exterior_colour", "exterior_colour"));
          [unfold h3; by rewrite legacy_step_length|done|sub_in]. }
    intros u' h4 ->. cbv beta.
    set (h4 := legacy_step s o "spec_exterior_colour" "exterior_colour" h3).
    assert (∀ b k, k ≠ "parent" → b ≠ s → get h4 b k = get h2 b k) as H4.
    { intros b k Hk Hb. unfold h4. rewrite legacy_step_get;
        [by apply H3|done|]. by intros [? _]. }
    eapply post_mono.
    { apply (adopt_legacy_spec self s).
      - rewrite H4 by (done || unfold s; lia). done.
      - unfold h4, h3. rewrite !legacy_step_length. lia.
      - unfold s. lia.
      - apply (Hokx h4) with (p := ("spec_model_year", "model_year"));
          [unfold h4, h3; by rewrite !legacy_step_length|done|sub_in]. }
    intros u'' h5 ->. cbv beta. by exists h1.
Qed.

Lemma nested_ok_later h hx os :
  nested_ok h os → os < length h → length h ≤ length hx →
  (∀ b k, b < length h → k ≠ "parent" → get hx b k = get h b k) →
  nested_ok hx os.
Proof.
  intros [H1 H2] Hos Hl Hsame. split.
  - intros l x Hx. rewrite Hsame in Hx; [|done|apply leaf_name_not_parent].
    destruct (H1 l x Hx) as [->|(a & -> & Ha)]; [by left|].
    right. exists a. split; [done|lia].
  - intros l on G b E1 HG E2.
    rewrite Hsame in E1; [|done|apply leaf_name_not_parent].
    assert (on < length h) as Hon.
    { destruct (H1 l _ E1) as [?|(a & [= <-] & ?)]; done. }
    rewrite Hsame in E2; [|done|by eapply leaf_fields_not_parent].
    specialize (H2 _ _ _ _ E1 HG E2). lia.
Qed.

(** What the specification phase leaves untouched. *)
Lemma spec_done_length self o h h' :
  spec_done self o h h' → length h < length h'.
Proof.
  unfold spec_done.
  destruct (get h o "specification") as [[| | | |os]|];
    intros (h1 & Hd & ->);
    try (destruct Hd as ((_ & Hext & Hc & _) & _);
         apply class_of_Some_lt in Hc);
    try (destruct Hd as (_ & Hl & _));
    unfold legacy_steps;
    rewrite ?legacy_step_length, length_write; done.
Qed.

Lemma spec_done_get self o h h' b k :
  spec_done self o h h' → self < length h → b < length h →
  k ≠ "parent" → ¬ (b = self ∧ k = "specification") →
  get h' b k = get h b k.
Proof.
  intros Hd Hs Hb Hk Hn.
  assert (∀ h1, get (write h1 self "specification" (VRef (length h))) b k
                = get h1 b k) as Hw.
  { intros h1. apply get_write_ne.
    destruct (decide (self = b)) as [->|]; [|by left].
    right. intros <-. by apply Hn. }
  unfold spec_done in Hd.
  destruct (get h o "specification") as [[| | | |os]|];
    destruct Hd as (h1 & Hd & ->);
    try (destruct Hd as ((_ & Hext & _) & _); rewrite Hw;
         by apply extends_get).
  - destruct Hd as (_ & _ & _ & _ & F & _). rewrite Hw. by apply F.
  - destruct Hd as ((_ & Hext & _) & _). unfold legacy_steps.
    rewrite !legacy_step_get;
      [rewrite Hw; by apply extends_get|..];
      first [done | intros [-> _]; lia].
Qed.

Lemma spec_done_class self o h h' b :
  spec_done self o h h' → b < length h → class_of h' b = class_of h b.
Proof.
  intros Hd Hb.
  assert (∀ s L f hx, class_of (legacy_step s o L f hx) b = class_of hx b)
    as Hleg.
  { intros s L f hx. unfold legacy_step.
    destruct (get hx o L) as [[| | | |x]|]; try done.
    by rewrite !class_of_write. }
  unfold spec_done in Hd.
  destruct (get h o "specification") as [[| | | |os]|];
    destruct Hd as (h1 & Hd & ->);
    unfold legacy_steps; rewrite ?Hleg, class_of_write;
    try (destruct Hd as ((_ & [l ->] & _) & _); by apply class_of_app_old).
  destruct Hd as (_ & _ & _ & K & _). by apply K.
Qed.

Lemma images_get SI self o h b k :
  ¬ (b = self ∧ k = "_car_images") →
  get (images SI self o h) b k = get h b k.
Proof.
  intros Hn. unfold images. destruct SI; [|done].
  destruct (get h o "_car_images"); [|done].
  apply get_write_ne. destruct (decide (self = b)) as [->|]; [|by left].
  right. intros <-. by apply Hn.
Qed.

Lemma images_length SI self o h : length (images SI self o h) = length h.
Proof.
  unfold images. destruct SI; [|done].
  destruct (get h o "_car_images"); [|done]. apply length_write.
Qed.

Lemma images_class SI self o h b :
  class_of (images SI self o h) b = class_of h b.
Proof.
  unfold images. destruct SI; [|done].
  destruct (get h o "_car_images"); [|done]. apply class_of_write.
Qed.

Section Run.
(** The heap [h] of the call, the origin [o], and the new instance at
    [length h], of class [c]. *)
Variables (SI : bool) (k : Vehicle.kind) (h : heap) (o : addr) (c : class).
Hypothesis Hok : vehicle_ok SI k h o.

Let self := length h.
Let h1 : heap := h ++ [Obj c ∅].

Lemma run_o_lt : o < length h.
Proof. apply Hok. Qed.

Lemma run_h1_old b f : b < length h → get h1 b f = get h b f.
Proof. intros Hb. by apply get_app_old. Qed.

Lemma run_h1_self f : get h1 self f = None.
Proof. unfold h1, self. by rewrite get_app_new. Qed.

Lemma run_length_h1 : length h1 = S self.
Proof. unfold h1, self. rewrite length_app. simpl. lia. Qed.

(** The migrating branch of [SkodaVehicle.__init__]. *)
Lemma skoda_vehicle_spec vin garage mc :
  post (Vehicle.SkodaVehicle_init SI self vin garage mc (VRef o)) h1
    (λ _ h', vehicle_run SI self o h1 h').
Proof.
  pose proof run_o_lt as Ho.
  destruct Hok as (_ & Hman & Hcap & Hmot & Hgua & Hspec & Hleg & Himg & _).
  assert (self < length h1) as Hs1 by (rewrite run_length_h1; lia).
  assert (o ≠ self) as Hne by (unfold self; lia).
  unfold Vehicle.SkodaVehicle_init. simpl is_not_None. cbv iota.
  apply post_bind, post_bind. eapply post_mono.
  { apply generic_vehicle_spec; [done|rewrite run_length_h1; lia]. }
  intros u hA HA. cbv beta.
  pose proof HA as (AA & EA & LA).
  assert (length h1 ≤ length hA) as HlA by (by eapply adopts_length).
  assert (∀ b f, b < length h → f ≠ "parent" → get hA b f = get h b f)
    as HoldA.
  { intros b f Hb Hf.
    rewrite (adopts_get self _ h1 hA b f AA), run_h1_old;
      [done..|rewrite run_length_h1; lia|done|].
    intros [-> _]. unfold self in Hb. lia. }
  destruct Hcap as (xc & Ecap & bc & -> & Hbc).
  destruct Hmot as (xm & Emot & bm & -> & Hbm).
  apply post_bind. eapply post_mono.
  { apply (adopt_spec self o "capabilities" bc); [lia|done| |lia].
    by rewrite HoldA. }
  intros u1 hA1 C1. cbv beta in C1.
  assert (length hA1 = length hA) as Hl1 by apply C1.
  assert (∀ f, f ≠ "parent" → get hA1 o f = get hA o f) as Ho1.
  { intros f Hf. by eapply copied_origin. }
  apply post_bind. eapply post_mono.
  { apply (adopt_spec self o "in_motion" bm); [lia|done| |lia].
    rewrite Ho1, HoldA by done. done. }
  intros u2 hA2 C2. cbv beta in C2.
  assert (length hA2 = length hA1) as Hl2 by apply C2.
  assert (∀ f, f ≠ "parent" → get hA2 o f = get hA1 o f) as Ho2.
  { intros f Hf. by eapply copied_origin. }
  change (post
    (then_each (Vehicle.adopt_if_present self (VRef o)) guarded_fields
       (Vehicle.migrate_specification self (VRef o);;
        (if SI then
           let* i := getattr (VRef o) "_car_images" in
           setattr (VRef self) "_car_images" i
         else ret tt))%py) hA2
    (λ _ h', post (let* m := getattr (VRef self) "manufacturer" in
                   _set_value m (VStr Vehicle.brand))%py h'
               (λ _ h'', vehicle_run SI self o h1 h''))).
  eapply (post_then_each _ _ self o); [done|not_in_list|lia| |].
  { intros G hx HG Hsx Hox Hlx. apply adopt_if_present_spec; [done| |].
    - intros ->. revert HG. not_in_list.
    - intros x Hx.
      assert (G ≠ "parent") as HGp by (intros ->; revert HG; not_in_list).
      rewrite Hox, Ho2, Ho1, HoldA in Hx by done.
      destruct (Hgua G HG x Hx) as (b & -> & Hb).
      exists b. split; [done|lia]. }
  intros hB CB.
  assert (copied_all self o adopt_fields hA hB) as CAB.
  { apply (copied_all_cons self o "capabilities" _ hA hA1 hB);
      [done|not_in_list|done|].
    apply (copied_all_cons self o "in_motion" _ hA1 hA2 hB);
      [done|not_in_list|done|done]. }
  assert (length hB = length hA) as HlB by apply CAB.
  assert (∀ b f, b < length h → f ≠ "parent" → get hB b f = get h b f)
    as HoldB.
  { intros b f Hb Hf. destruct CAB as (_ & _ & F & _).
    rewrite F, HoldA; [done..|]. intros [-> _]. unfold self in Hb. lia. }
  apply post_bind. eapply post_mono.
  { apply migrate_specification_spec; [lia|lia|done| |].
    - intros x Hx. rewrite HoldB in Hx by done.
      destruct (Hspec x Hx) as [->|(os & -> & Hos & Hnok)]; [by left|].
      right. exists os. split_and!; [done|lia|].
      eapply nested_ok_later; [done|done|lia|done].
    - intros En p Hp x Hx.
      assert (p.1 ≠ "parent") as Hp1.
      { revert Hp. unfold legacy_fields. intros Hp.
        repeat (apply elem_of_cons in Hp as [->|Hp]; [done|]).
        by apply elem_of_nil in Hp. }
      rewrite HoldB in En, Hx by done.
      destruct (Hleg En p Hp x Hx) as (b & -> & Hb).
      exists b. split; [done|lia]. }
  intros u3 hC HC. cbv beta in HC.
  assert (length hB < length hC) as HlC by (by eapply spec_done_length).
  assert (∀ b f, b < length h → f ≠ "parent" → get hC b f = get h b f)
    as HoldC.
  { intros b f Hb Hf.
    rewrite (spec_done_get self o hB hC), HoldB; [done..|lia|lia|done|].
    intros [-> _]. unfold self in Hb. lia. }
  assert (post (if SI then
                  let* i := getattr (VRef o) "_car_images" in
                  setattr (VRef self) "_car_images" i
                else ret tt)%py hC
            (λ _ h', h' = images SI self o hC)) as HD.
  { unfold images. destruct SI; [|by apply post_ret].
    destruct (Himg eq_refl) as [i Hi].
    rewrite <- (HoldC o) in Hi by done. rewrite Hi.
    apply post_bind. eapply post_getattr; [done|].
    apply post_setattr; [lia|done]. }
  eapply post_mono; [exact HD|]. intros u4 hD ->. cbv beta.
  set (hD := images SI self o hC).
  assert (get hD self "manufacturer" = get hA self "manufacturer") as EmD.
  { unfold hD. rewrite images_get by (by intros [_ ?]).
    rewrite (spec_done_get self o hB hC); [|done|lia|lia|done|by intros [_ ?]].
    destruct CAB as (_ & _ & F & _). apply F; [done|].
    intros [_ Hin]. revert Hin. not_in_list. }
  assert (∃ m, get hA self "manufacturer" = Some (VRef m) ∧ m < length hA)
    as (m & Em & Hm).
  { rewrite EA. rewrite run_h1_old by done.
    destruct (get h o "manufacturer") as [x|] eqn:Eo.
    - destruct (Hman x Eo) as (b & -> & Hb). exists b.
      split; [done|]. rewrite run_length_h1 in HlA. unfold self in HlA. lia.
    - exists (length h1). split; [done|]. apply LA.
      by rewrite run_h1_old. }
  assert (m < length hD) as HmD.
  { unfold hD. rewrite images_length. lia. }
  apply post_bind. eapply post_getattr; [by rewrite EmD|].
  apply post_setattr; [done|].
  exists hA, hB, hC. split_and!; try done.
  exists m. fold hD. by rewrite EmD.
Qed.

End Run.

(** *** What a run leaves untouched *)

Section Frame.
Variables (SI : bool) (self o : addr) (h hE : heap).
Hypothesis Hrun : vehicle_run SI self o h hE.
Hypothesis Hself : self < length h.

Lemma run_length : length h < length hE.
Proof.
  destruct Hrun as (hA & hB & hC & (AA & _) & CB & HC & (m & _ & _ & ->)).
  apply adopts_length in AA. apply spec_done_length in HC.
  destruct CB as (LB & _).
  rewrite length_write, images_length. lia.
Qed.

Lemma run_class b : b < length h → class_of hE b = class_of h b.
Proof.
  intros Hb.
  destruct Hrun as (hA & hB & hC & (AA & _) & CB & HC & (m & _ & _ & ->)).
  pose proof (adopts_length _ _ _ _ AA) as LA.
  destruct CB as (LB & KB & _).
  rewrite class_of_write, images_class.
  rewrite (spec_done_class self o hB hC) by (done || lia).
  rewrite KB. by eapply adopts_class.
Qed.

(** Of the objects there were, apart from the new instance, only parent
    links and the value of the manufacturer changed. *)
Lemma run_get b f :
  b < length h → b ≠ self → f ≠ "parent" → f ≠ "value" →
  get hE b f = get h b f.
Proof.
  intros Hb Hne Hf Hv.
  destruct Hrun as (hA & hB & hC & (AA & _) & CB & HC & (m & _ & _ & ->)).
  pose proof (adopts_length _ _ _ _ AA) as LA.
  destruct CB as (LB & _ & FB & _).
  rewrite get_write_ne by (by right).
  rewrite images_get by (by intros [? _]).
  rewrite (spec_done_get self o hB hC);
    [|done|lia|lia|done|by intros [? _]].
  rewrite FB by (done || by intros [? _]).
  eapply adopts_get; [done..|]. by intros [? _].
Qed.

End Frame.

(** *** The four classes *)

Section Kinds.
Variables (SI : bool) (k : Vehicle.kind) (h : heap) (o : addr).
Hypothesis Hok : vehicle_ok SI k h o.

Let self := length h.
Let h1 : heap := h ++ [Obj (Vehicle.class_of_kind k) ∅].

(** The charging entity [ElectricVehicle.__init__] sets. *)
Lemma upstream_charging_spec hE :
  has_charging k = true →
  vehicle_run SI self o h1 hE →
  post (let* e := isinstance_ElectricVehicle (VRef o) in
        if e then
          let* c := getattr (VRef o) "charging" in
          setattr (VRef self) "charging" c;;
          setattr c "parent" (VRef self)
        else
          let* c := Charging (VRef self) in
          setattr (VRef self) "charging" (VRef c))%py hE
    (λ _ h', upstream_charging self o hE h').
Proof.
  intros Hk Hrun.
  pose proof (run_o_lt SI k h o Hok) as Ho.
  assert (self < length h1) as Hs1.
  { unfold h1, self. rewrite length_app. simpl. lia. }
  assert (o < length h1) as Ho1 by (unfold self in Hs1; lia).
  pose proof (run_length SI self o h1 hE Hrun Hs1) as HlE.
  pose proof (run_class SI self o h1 hE Hrun Hs1 o Ho1) as Hc.
  assert (class_of hE o = class_of h o) as Hc'.
  { rewrite Hc. by apply class_of_app_old. }
  pose proof (class_of_is_Some h o Ho) as [co Hco].
  unfold upstream_charging, is_electric. rewrite Hc', Hco.
  apply post_bind. unfold isinstance_ElectricVehicle, post, outcome.
  rewrite Hc', Hco.
  destruct (electric_class co) eqn:He.
  - destruct Hok as (_ & _ & _ & _ & _ & _ & _ & _ & Hch).
    destruct (Hch Hk) as (x & Ex & b & -> & Hb).
    { unfold is_electric. by rewrite Hco. }
    assert (get hE o "charging" = Some (VRef b)) as Eb.
    { rewrite (run_get SI self o h1 hE Hrun Hs1); try done.
      - unfold h1. by rewrite get_app_old.
      - unfold self. lia. }
    fold (post (let* c := getattr (VRef o) "charging" in
                setattr (VRef self) "charging" c;;
                setattr c "parent" (VRef self))%py hE
            (λ _ h', copied self o "charging" hE h')).
    apply post_bind. eapply post_getattr; [done|].
    apply post_bind, post_setattr; [lia|].
    apply post_setattr; [rewrite length_write; lia|].
    apply copied_linked; [lia|done|done|lia].
  - unfold bind, Charging, Nested_new, new_object, setattr.
    assert (self < length (hE ++ [Obj CCharging
                                    (<["parent":=VRef self]> ∅)])) as Hs.
    { rewrite length_app. lia. }
    apply lookup_lt_is_Some_2 in Hs as [os Hos]. rewrite Hos. done.
Qed.

(** The charging entity [SkodaElectricVehicle.__init__] sets. *)
Lemma skoda_charging_spec hE hU :
  has_charging k = true →
  vehicle_run SI self o h1 hE →
  upstream_charging self o hE hU →
  post (let* e := isinstance_ElectricVehicle (VRef o) in
        if e then
          let* oc := getattr (VRef o) "charging" in
          let* c := SkodaCharging (VRef self) oc in
          setattr (VRef self) "charging" (VRef c)
        else
          let* sc := getattr (VRef self) "charging" in
          let* c := SkodaCharging (VRef self) sc in
          setattr (VRef self) "charging" (VRef c))%py hU
    (λ _ h', skoda_charging self o hU h').
Proof.
  intros Hk Hrun HU.
  pose proof (run_o_lt SI k h o Hok) as Ho.
  assert (self < length h1) as Hs1.
  { unfold h1, self. rewrite length_app. simpl. lia. }
  assert (o < length h1) as Ho1 by (unfold self in Hs1; lia).
  pose proof (run_length SI self o h1 hE Hrun Hs1) as HlE.
  pose proof (run_class SI self o h1 hE Hrun Hs1 o Ho1) as Hc.
  assert (class_of hE o = class_of h o) as Hc'.
  { rewrite Hc. by apply class_of_app_old. }
  pose proof (class_of_is_Some h o Ho) as [co Hco].
  unfold upstream_charging, is_electric in HU. rewrite Hc', Hco in HU.
  assert (class_of hU o = Some co ∧ length hE ≤ length hU) as [HcU HlU].
  { destruct (electric_class co).
    - destruct HU as (L & K & _). rewrite K, L. split; [congruence|done].
    - subst hU. rewrite class_of_write, length_write, length_app.
      rewrite class_of_app_old by lia. split; [congruence|lia]. }
  unfold skoda_charging, is_electric. rewrite HcU.
  apply post_bind. unfold isinstance_ElectricVehicle, post, outcome.
  rewrite HcU.
  assert (∀ src obj (Q : heap → Prop),
            hU !! src = Some obj →
            Q (write (hU ++ [Obj CSkodaCharging
                               (<["parent":=VRef self]> (dict obj))])
                 self "charging" (VRef (length hU))) →
            match (let* c := SkodaCharging (VRef self) (VRef src) in
                   setattr (VRef self) "charging" (VRef c))%py hU with
            | Ok _ h' => Q h'
            | Raise _ _ => False
            end) as Hnew.
  { intros src obj Q Hsrc HQ.
    unfold bind, SkodaCharging, Nested_new, new_object, setattr.
    rewrite Hsrc.
    assert (self < length (hU ++ [Obj CSkodaCharging
                             (<["parent":=VRef self]> (dict obj))])) as Hs.
    { rewrite length_app. lia. }
    apply lookup_lt_is_Some_2 in Hs as [os Hos]. rewrite Hos. done. }
  destruct (electric_class co) eqn:He.
  - destruct Hok as (_ & _ & _ & _ & _ & _ & _ & _ & Hch).
    destruct (Hch Hk) as (x & Ex & b & -> & Hb).
    { unfold is_electric. by rewrite Hco. }
    assert (get hU o "charging" = Some (VRef b)) as Eb.
    { erewrite copied_origin; [|exact HU|unfold self; lia|done].
      rewrite (run_get SI self o h1 hE Hrun Hs1); try done.
      - unfold h1. by rewrite get_app_old.
      - unfold self. lia. }
    assert (b < length hU) as HbU by lia.
    apply lookup_lt_is_Some_2 in HbU as [obj Hobj].
    unfold bind at 1. unfold getattr at 1. rewrite Eb.
    eapply Hnew; [done|]. by exists b, obj.
  - assert (get hU self "charging" = Some (VRef (length hE))) as Es.
    { subst hU. apply get_write_eq. rewrite length_app. lia. }
    assert (length hE < length hU) as HdU.
    { subst hU. rewrite length_write, length_app. simpl. lia. }
    apply lookup_lt_is_Some_2 in HdU as [obj Hobj].
    unfold bind at 1. unfold getattr at 1. rewrite Es.
    eapply Hnew; [done|]. by exists (length hE), obj.
Qed.

End Kinds.

(** The constructor of the class [k], migrating from [o]. *)
Lemma vehicle_new_spec SI k h o vin garage mc :
  vehicle_ok SI k h o →
  post (Vehicle.new SI k vin garage mc (VRef o)) h
    (λ s h', s = length h ∧
       kind_run SI k (length h) o
         (h ++ [Obj (Vehicle.class_of_kind k) ∅]) h').
Proof.
  intros Hok.
  unfold Vehicle.new, alloc. apply post_bind, post_new_object.
  apply post_bind.
  pose proof (skoda_vehicle_spec SI k h o (Vehicle.class_of_kind k) Hok
                vin garage mc) as Hinit.
  cbv zeta in Hinit.
  pose proof (upstream_charging_spec SI k h o Hok) as HU.
  pose proof (skoda_charging_spec SI k h o Hok) as HS.
  cbv zeta in HU, HS.
  destruct k; unfold Vehicle.init_of_kind,
    Vehicle.SkodaElectricVehicle_init, Vehicle.SkodaCombustionVehicle_init,
    Vehicle.SkodaHybridVehicle_init, HybridVehicle_init,
    ElectricVehicle_init, CombustionVehicle_init;
    simpl is_not_None; cbv iota beta.
  - eapply post_mono; [apply Hinit|]. intros u hE Hrun.
    apply post_ret. split; [done|]. by exists hE.
  - apply post_bind, post_bind.
    eapply post_mono; [apply Hinit|]. intros u hE Hrun. cbv beta.
    eapply post_mono; [exact (HU hE eq_refl Hrun)|].
    intros u' hU HU'. cbv beta.
    eapply post_mono; [exact (HS hE hU eq_refl Hrun HU')|].
    intros u'' h' HK. apply post_ret. split; [done|].
    exists hE. split; [done|]. by exists hU.
  - eapply post_mono; [apply Hinit|]. intros u hE Hrun.
    apply post_ret. split; [done|]. by exists hE.
  - apply post_bind.
    eapply post_mono; [apply Hinit|]. intros u hE Hrun. cbv beta.
    eapply post_mono; [exact (HU hE eq_refl Hrun)|].
    intros u' hU HU'. apply post_ret. split; [done|]. by exists hE.
Qed.

End VehicleFacts.

(** ** The checks that compute are sound *)

Module CheckFacts.
Import Py Logic PyFacts Framework.

Lemma objrefb_sound h x : objrefb h x = true → objref h x.
Proof.
  destruct x as [| | | |a]; simpl; try done.
  intros H. apply bool_decide_eq_true in H. by exists a.
Qed.

Lemma field_okb_sound h o k : field_okb h o k = true → field_ok h o k.
Proof.
  unfold field_okb, field_ok. intros H x E. rewrite E in H.
  by apply objrefb_sound.
Qed.

Lemma has_objectb_sound h o k :
  has_objectb h o k = true → ∃ x, get h o k = Some x ∧ objref h x.
Proof.
  unfold has_objectb. destruct (get h o k) as [x|]; [|done].
  intros H. exists x. split; [done|]. by apply objrefb_sound.
Qed.

Lemma forallb_elem_of {A} (f : A → bool) (l : list A) x :
  forallb f l = true → x ∈ l → f x = true.
Proof.
  intros H Hx. induction l as [|y l IH]; [by apply elem_of_nil in Hx|].
  simpl in H. apply andb_true_iff in H as [H1 H2].
  apply elem_of_cons in Hx as [-> | Hx]; auto.
Qed.

Lemma leaf_in_leaves l : l ∈ leaves.
Proof. unfold leaves. destruct l; repeat constructor. Qed.

Lemma nested_okb_sound h os : nested_okb h os = true → nested_ok h os.
Proof.
  intros H. split.
  - intros l x E.
    pose proof (forallb_elem_of _ _ l H (leaf_in_leaves l)) as Hl.
    cbv beta in Hl. rewrite E in Hl.
    destruct x as [| | | |on]; try done; [by left|].
    apply andb_true_iff in Hl as [Hon _].
    apply bool_decide_eq_true in Hon. right. by exists on.
  - intros l on G b E HG Eb.
    pose proof (forallb_elem_of _ _ l H (leaf_in_leaves l)) as Hl.
    cbv beta in Hl. rewrite E in Hl.
    apply andb_true_iff in Hl as [_ Hf].
    pose proof (forallb_elem_of _ _ G Hf HG) as HG'.
    cbv beta in HG'. rewrite Eb in HG'.
    by apply bool_decide_eq_true in HG'.
Qed.

Lemma vehicle_okb_sound SI k h o :
  vehicle_okb SI k h o = true → vehicle_ok SI k h o.
Proof.
  unfold vehicle_okb. rewrite !andb_true_iff.
  intros [[[[[[[Ho Hm] Hc] Hi] Hg] Hs] Him] Hch].
  split_and!.
  - by apply bool_decide_eq_true in Ho.
  - by apply field_okb_sound.
  - by apply has_objectb_sound.
  - by apply has_objectb_sound.
  - intros G HG. apply field_okb_sound. by eapply forallb_elem_of.
  - intros x E. rewrite E in Hs.
    destruct x as [| | | |os]; try done; [by left|].
    apply andb_true_iff in Hs as [H1 H2]. right. exists os.
    split_and!; [done|by apply bool_decide_eq_true in H1|].
    by apply nested_okb_sound.
  - intros E p Hp. rewrite E in Hs. apply field_okb_sound.
    by apply (forallb_elem_of _ _ p Hs).
  - intros ->. simpl in Him. by apply bool_decide_eq_true in Him.
  - intros Hk He. rewrite Hk, He in Hch. simpl in Hch.
    by apply has_objectb_sound.
Qed.

Lemma nested_valueb_sound h os b :
  nested_valueb h os b = false → ¬ nested_value h os b.
Proof.
  intros H (l & on & G & E1 & HG & E2).
  assert (nested_valueb h os b = true) as Ht; [|by rewrite H in Ht].
  unfold nested_valueb. apply existsb_exists. exists l.
  split; [apply list_elem_of_In, leaf_in_leaves|].
  rewrite E1. apply existsb_exists. exists G.
  split; [by apply list_elem_of_In|]. by apply bool_decide_eq_true.
Qed.

Lemma unsharedb_sound h o b : unsharedb h o b = true → unshared h o b.
Proof.
  unfold unsharedb. intros H.
  apply andb_true_iff in H as [Hm Hs].
  apply bool_decide_eq_true in Hm. split_and!.
  - done.
  - intros os E. rewrite E in Hs.
    apply andb_true_iff in Hs as [H1 H2]. split.
    + intros G HG.
      pose proof (forallb_elem_of _ _ G H1 HG) as HG'. cbv beta in HG'.
      by apply bool_decide_eq_true in HG'.
    + apply nested_valueb_sound. by apply negb_true_iff.
  - intros E p Hp. rewrite E in Hs.
    pose proof (forallb_elem_of _ _ p Hs Hp) as Hp'. cbv beta in Hp'.
    by apply bool_decide_eq_true in Hp'.
Qed.

Lemma checks_post {A} (m : M A) h (q : A → heap → bool)
    (Q : A → heap → Prop) :
  checks m h q = true → (∀ a h', q a h' = true → Q a h') → post m h Q.
Proof.
  unfold checks, post, outcome. destruct (m h) as [a h'|e h']; [|done].
  intros Hq HQ. by apply HQ.
Qed.

End CheckFacts.

(** ** What a vehicle migration leaves *)

Module VehicleResults.
Import Py Logic PyFacts Framework CopyFacts SpecificationFacts VehicleFacts.

(** *** The charging steps *)

Lemma charged_refl self o h : charged self o h h.
Proof. split_and!; auto. Qed.

Lemma charged_append self o h c d :
  self < length h →
  charged self o h
    (write (h ++ [Obj c d]) self "charging" (VRef (length h))).
Proof.
  intros Hs. split_and!.
  - rewrite length_write, length_app. lia.
  - intros b Hb. rewrite class_of_write. by apply class_of_app_old.
  - intros b k Hb Hk Hn. rewrite get_write_ne.
    + by apply get_app_old.
    + destruct (decide (self = b)) as [->|]; [|by left].
      right. intros <-. by apply Hn.
  - intros b Hb. left. rewrite get_write_ne by (by right).
    by apply get_app_old.
Qed.

Lemma is_electric_same h h' o :
  class_of h' o = class_of h o → is_electric h' o = is_electric h o.
Proof. unfold is_electric. by intros ->. Qed.

Lemma charged_trans self o h1 h2 h3 :
  o < length h1 → o ≠ self →
  charged self o h1 h2 → charged self o h2 h3 → charged self o h1 h3.
Proof.
  intros Ho Hne (L1 & K1 & F1 & P1) (L2 & K2 & F2 & P2). split_and!.
  - lia.
  - intros b Hb. rewrite K2 by lia. by apply K1.
  - intros b k Hb Hk Hn. rewrite F2 by (done || lia). by apply F1.
  - intros b Hb.
    assert (get h2 o "charging" = get h1 o "charging") as Eo.
    { apply F1; [done|done|]. by intros [? _]. }
    assert (is_electric h2 o = is_electric h1 o) as Ee.
    { apply is_electric_same. by apply K1. }
    destruct (P2 b ltac:(lia)) as [E2|(E2 & E2' & E2'')].
    + rewrite E2. apply P1. done.
    + right. by rewrite <- Eo, <- Ee.
Qed.

Lemma upstream_charged self o h h' :
  self < length h → upstream_charging self o h h' → charged self o h h'.
Proof.
  intros Hs. unfold upstream_charging.
  destruct (is_electric h o) eqn:He.
  - intros (L & K & F & _ & P & _). split_and!.
    + lia.
    + intros b _. apply K.
    + intros b k _ Hk Hn. by apply F.
    + intros b _. destruct (P b) as [?|[? ?]]; auto.
  - intros ->. by apply charged_append.
Qed.

Lemma skoda_charged self o h h' :
  self < length h → skoda_charging self o h h' → charged self o h h'.
Proof.
  intros Hs (src & obj & _ & _ & ->). by apply charged_append.
Qed.

(** What follows [SkodaVehicle.__init__] in the constructor of the class
    [k]. *)
Lemma tail_charged k self o hE h' :
  self < length hE → o < length hE → o ≠ self →
  match k with
  | Vehicle.Generic | Vehicle.Combustion => h' = hE
  | Vehicle.Hybrid => upstream_charging self o hE h'
  | Vehicle.Electric =>
      ∃ hU, upstream_charging self o hE hU ∧ skoda_charging self o hU h'
  end →
  charged self o hE h' ∧ (has_charging k = false → h' = hE).
Proof.
  intros Hs Ho Hne. destruct k; simpl.
  - intros ->. split; [apply charged_refl|done].
  - intros (hU & HU & HS). split; [|done].
    pose proof (upstream_charged _ _ _ _ Hs HU) as CU.
    eapply charged_trans; [done|done|exact CU|].
    apply skoda_charged; [|done]. destruct CU as (L & _). lia.
  - intros ->. split; [apply charged_refl|done].
  - intros HU. split; [|done]. by apply upstream_charged.
Qed.

(** *** The legacy fields *)

Lemma legacy_step_class s o L f h a :
  class_of (legacy_step s o L f h) a = class_of h a.
Proof.
  unfold legacy_step. destruct (get h o L) as [[| | | |x]|]; try done.
  by rewrite !class_of_write.
Qed.

Lemma legacy_step_field s o L f h :
  s < length h → f ≠ "parent" →
  get (legacy_step s o L f h) s f
  = match get h o L with
    | Some (VRef x) => Some (VRef x)
    | _ => get h s f
    end.
Proof.
  intros Hs Hf. unfold legacy_step.
  destruct (get h o L) as [[| | | |x]|]; try done.
  rewrite get_write_ne by (by right). by apply get_write_eq.
Qed.

Lemma legacy_step_parent s o L f h a :
  f ≠ "parent" →
  get (legacy_step s o L f h) a "parent" = get h a "parent"
  ∨ (get h o L = Some (VRef a)
     ∧ get (legacy_step s o L f h) a "parent" = Some (VRef s)).
Proof.
  intros Hf. unfold legacy_step.
  destruct (get h o L) as [[| | | |x]|] eqn:E; try by left.
  rewrite get_write. case_decide as Hd.
  - destruct Hd as (-> & _ & _). by right.
  - left. apply get_write_ne. by right.
Qed.

Lemma legacy_step_parent_eq s o L f h x :
  get h o L = Some (VRef x) → x < length h →
  get (legacy_step s o L f h) x "parent" = Some (VRef s).
Proof.
  intros E Hx. unfold legacy_step. rewrite E.
  apply get_write_eq. by rewrite length_write.
Qed.

Lemma legacy_steps_length s o h : length (legacy_steps s o h) = length h.
Proof. unfold legacy_steps. by rewrite !legacy_step_length. Qed.

Lemma legacy_steps_class s o h a :
  class_of (legacy_steps s o h) a = class_of h a.
Proof. unfold legacy_steps. by rewrite !legacy_step_class. Qed.

Lemma legacy_steps_get s o h a k :
  k ≠ "parent" → ¬ (a = s ∧ k ∈ legacy_fields.*2) →
  get (legacy_steps s o h) a k = get h a k.
Proof.
  intros Hk Hn. unfold legacy_steps.
  rewrite !legacy_step_get; first [done | intros [-> ->]; apply Hn].
  all: split; [done|]; sub_in.
Qed.

(** The legacy fields of the origin, read during the steps, are those it
    had before. *)
Lemma legacy_steps_field s o h p :
  s < length h → o ≠ s → p ∈ legacy_fields →
  get (legacy_steps s o h) s p.2
  = match get h o p.1 with
    | Some (VRef x) => Some (VRef x)
    | _ => get h s p.2
    end.
Proof.
  intros Hs Hne Hp. unfold legacy_steps.
  set (h1 := legacy_step s o "spec_engine_fuel_type" "engine_fuel_type" h).
  set (h2 := legacy_step s o "spec_exterior_colour" "exterior_colour" h1).
  assert (∀ L, L ≠ "parent" → get h1 o L = get h o L) as O1.
  { intros L HL. apply legacy_step_get; [done|]. by intros [? _]. }
  assert (∀ L, L ≠ "parent" → get h2 o L = get h o L) as O2.
  { intros L HL. unfold h2. rewrite legacy_step_get; [by apply O1|done|].
    by intros [? _]. }
  assert (length h1 = length h) as L1 by apply legacy_step_length.
  assert (length h2 = length h) as L2.
  { unfold h2. by rewrite legacy_step_length. }
  unfold legacy_fields in Hp.
  apply elem_of_cons in Hp as [-> | Hp]; simpl.
  { rewrite legacy_step_get; [|done|by intros [_ ?]].
    fold h1. unfold h2. rewrite legacy_step_get; [|done|by intros [_ ?]].
    unfold h1. by apply legacy_step_field. }
  apply elem_of_cons in Hp as [-> | Hp]; simpl.
  { rewrite legacy_step_get; [|done|by intros [_ ?]].
    unfold h2. rewrite legacy_step_field by (done || lia).
    rewrite O1 by done.
    unfold h1. rewrite (legacy_step_get _ _ _ _ _ s "exterior_colour");
      [done|done|by intros [_ ?]]. }
  apply elem_of_cons in Hp as [-> | Hp]; simpl.
  { rewrite legacy_step_field by (done || lia).
    rewrite O2 by done.
    unfold h2. rewrite (legacy_step_get _ _ _ _ _ s "model_year");
      [|done|by intros [_ ?]].
    unfold h1. rewrite (legacy_step_get _ _ _ _ _ s "model_year");
      [done|done|by intros [_ ?]]. }
  by apply elem_of_nil in Hp.
Qed.

Lemma legacy_steps_parent s o h a :
  o ≠ s →
  get (legacy_steps s o h) a "parent" = get h a "parent"
  ∨ ((∃ p, p ∈ legacy_fields ∧ get h o p.1 = Some (VRef a))
     ∧ get (legacy_steps s o h) a "parent" = Some (VRef s)).
Proof.
  intros Hne. unfold legacy_steps.
  set (h1 := legacy_step s o "spec_engine_fuel_type" "engine_fuel_type" h).
  set (h2 := legacy_step s o "spec_exterior_colour" "exterior_colour" h1).
  assert (∀ L, L ≠ "parent" → get h1 o L = get h o L) as O1.
  { intros L HL. apply legacy_step_get; [done|]. by intros [? _]. }
  assert (∀ L, L ≠ "parent" → get h2 o L = get h o L) as O2.
  { intros L HL. unfold h2. rewrite legacy_step_get; [by apply O1|done|].
    by intros [? _]. }
  destruct (legacy_step_parent s o "spec_model_year" "model_year" h2 a)
    as [E3|[E3 E3']]; [done| |].
  2:{ right. split; [|done].
      exists ("spec_model_year", "model_year"). split.
      - unfold legacy_fields. sub_in.
      - simpl. by rewrite <- O2. }
  rewrite E3.
  destruct (legacy_step_parent s o "spec_exterior_colour" "exterior_colour"
              h1 a) as [E2|[E2 E2']]; [done| |].
  2:{ right. split; [|done].
      exists ("spec_exterior_colour", "exterior_colour"). split.
      - unfold legacy_fields. sub_in.
      - simpl. by rewrite <- O1. }
  fold h2 in E2. rewrite E2.
  destruct (legacy_step_parent s o "spec_engine_fuel_type" "engine_fuel_type"
              h a) as [E1|[E1 E1']]; [done| |].
  2:{ right. split; [|done].
      exists ("spec_engine_fuel_type", "engine_fuel_type"). split.
      - unfold legacy_fields. sub_in.
      - done. }
  left. done.
Qed.

Lemma legacy_steps_parent_eq s o h p x :
  o ≠ s → p ∈ legacy_fields → get h o p.1 = Some (VRef x) → x < length h →
  get (legacy_steps s o h) x "parent" = Some (VRef s).
Proof.
  intros Hne Hp E Hx. unfold legacy_steps.
  set (h1 := legacy_step s o "spec_engine_fuel_type" "engine_fuel_type" h).
  set (h2 := legacy_step s o "spec_exterior_colour" "exterior_colour" h1).
  assert (∀ L, L ≠ "parent" → get h1 o L = get h o L) as O1.
  { intros L HL. apply legacy_step_get; [done|]. by intros [? _]. }
  assert (∀ L, L ≠ "parent" → get h2 o L = get h o L) as O2.
  { intros L HL. unfold h2. rewrite legacy_step_get; [by apply O1|done|].
    by intros [? _]. }
  assert (length h1 = length h) as L1 by apply legacy_step_length.
  assert (length h2 = length h) as L2.
  { unfold h2. by rewrite legacy_step_length. }
  assert (∀ L f hx, f ≠ "parent" →
            get hx x "parent" = Some (VRef s) →
            get (legacy_step s o L f hx) x "parent" = Some (VRef s))
    as Hkeep.
  { intros L f hx Hf Ex.
    destruct (legacy_step_parent s o L f hx x Hf) as [->|[_ ->]]; done. }
  unfold legacy_fields in Hp.
  apply elem_of_cons in Hp as [-> | Hp]; simpl in E.
  { apply Hkeep; [done|]. apply Hkeep; [done|].
    by apply legacy_step_parent_eq. }
  apply elem_of_cons in Hp as [-> | Hp]; simpl in E.
  { apply Hkeep; [done|]. apply legacy_step_parent_eq; [|lia].
    by rewrite O1. }
  apply elem_of_cons in Hp as [-> | Hp]; simpl in E.
  { apply legacy_step_parent_eq; [|lia]. by rewrite O2. }
  by apply elem_of_nil in Hp.
Qed.

(** *** The end of [SkodaVehicle.__init__] *)


Lemma finish_length SI legacy self o s m h : length (finish SI legacy self o s m h) = length h.
Proof.
  unfold finish. rewrite length_write, images_length.
  destruct legacy; rewrite ?legacy_steps_length; apply length_write.
Qed.

Lemma finish_class SI legacy self o s m h a :
  class_of (finish SI legacy self o s m h) a = class_of h a.
Proof.
  unfold finish. rewrite class_of_write, images_class.
  destruct legacy; rewrite ?legacy_steps_class; apply class_of_write.
Qed.

Lemma finish_get SI legacy self o s m h a k :
  k ≠ "parent" → ¬ (a = m ∧ k = "value") →
  ¬ (a = self ∧ (k = "specification" ∨ k = "_car_images")) →
  ¬ (legacy = true ∧ a = s ∧ k ∈ legacy_fields.*2) →
  get (finish SI legacy self o s m h) a k = get h a k.
Proof.
  intros Hk Hv Hn Hl. unfold finish.
  rewrite get_write_ne.
  2:{ destruct (decide (m = a)) as [->|]; [|by left].
      right. intros <-. by apply Hv. }
  rewrite images_get by (intros [-> ->]; apply Hn; auto).
  assert (get (write h self "specification" (VRef s)) a k = get h a k)
    as Hw.
  { apply get_write_ne. destruct (decide (self = a)) as [->|]; [|by left].
    right. intros <-. apply Hn. auto. }
  destruct legacy; [|done].
  rewrite legacy_steps_get; [done|done|].
  intros [-> Hin]. by apply Hl.
Qed.

Lemma finish_spec SI legacy self o s m h :
  self < length h → s ≠ self →
  get (finish SI legacy self o s m h) self "specification" = Some (VRef s).
Proof.
  intros Hself Hss.
  unfold finish. rewrite get_write_ne by (by right).
  rewrite images_get by (by intros [_ ?]).
  assert (get (write h self "specification" (VRef s)) self "specification"
          = Some (VRef s)) as Hw by (by apply get_write_eq).
  destruct legacy; [|done].
  rewrite legacy_steps_get; [done|done|]. by intros [? _].
Qed.

Lemma finish_value SI legacy self o s m h :
  m < length h →
  get (finish SI legacy self o s m h) m "value"
  = Some (VStr Vehicle.brand).
Proof.
  intros Hm.
  unfold finish. apply get_write_eq. rewrite images_length.
  destruct legacy; rewrite ?legacy_steps_length; by rewrite length_write.
Qed.

Lemma finish_parent SI legacy self o s m h a :
  o ≠ s → o ≠ self →
  get (finish SI legacy self o s m h) a "parent" = get h a "parent"
  ∨ (legacy = true
     ∧ (∃ p, p ∈ legacy_fields ∧ get h o p.1 = Some (VRef a))
     ∧ get (finish SI legacy self o s m h) a "parent" = Some (VRef s)).
Proof.
  intros Hos Hoself.
  unfold finish. rewrite get_write_ne by (by right).
  rewrite images_get by (by intros [_ ?]).
  set (hS := write h self "specification" (VRef s)).
  assert (get hS a "parent" = get h a "parent") as Hw.
  { apply get_write_ne. by right. }
  destruct legacy; [|by left].
  destruct (legacy_steps_parent s o hS a Hos) as [E|[(p & Hp & E) E']].
  - left. by rewrite E.
  - right. split; [done|]. split; [|done]. exists p. split; [done|].
    rewrite <- E. symmetry. apply get_write_ne. left. done.
Qed.

Lemma finish_legacy SI legacy self o s m h p :
  s < length h → s ≠ self → o ≠ s → o ≠ self →
  legacy = true → p ∈ legacy_fields →
  get (finish SI legacy self o s m h) s p.2
  = match get h o p.1 with
    | Some (VRef x) => Some (VRef x)
    | _ => get h s p.2
    end.
Proof.
  intros Hs Hss Hos Hoself.
  intros -> Hp. unfold finish.
  assert (p.2 ≠ "value" ∧ p.2 ≠ "_car_images" ∧ p.2 ≠ "specification")
    as (N1 & N2 & N3).
  { unfold legacy_fields in Hp.
    repeat (apply elem_of_cons in Hp as [-> | Hp]; [done|]).
    by apply elem_of_nil in Hp. }
  rewrite get_write_ne by (by right).
  rewrite images_get by (by intros [_ ?]).
  set (hS := write h self "specification" (VRef s)).
  rewrite legacy_steps_field; [|by unfold hS; rewrite length_write|done..].
  assert (get hS o p.1 = get h o p.1) as ->.
  { apply get_write_ne. by left. }
  assert (get hS s p.2 = get h s p.2) as ->.
  { apply get_write_ne. by left. }
  done.
Qed.

Lemma finish_legacy_parent SI legacy self o s m h p x :
  o ≠ s → o ≠ self →
  legacy = true → p ∈ legacy_fields → get h o p.1 = Some (VRef x) →
  x < length h →
  get (finish SI legacy self o s m h) x "parent" = Some (VRef s).
Proof.
  intros Hos Hoself.
  intros -> Hp E Hx. unfold finish.
  rewrite get_write_ne by (by right).
  rewrite images_get by (by intros [_ ?]).
  set (hS := write h self "specification" (VRef s)).
  eapply legacy_steps_parent_eq; [done|done| |].
  - rewrite <- E. apply get_write_ne. by left.
  - unfold hS. by rewrite length_write.
Qed.


(** *** The course of a migration *)

Lemma adopt_fields_not_parent G : G ∈ adopt_fields → G ≠ "parent".
Proof.
  intros H ->. revert H. unfold adopt_fields, guarded_fields. not_in_list.
Qed.

Lemma adopt_fields_not_base G :
  G ∈ adopt_fields → G ∉ ["manufacturer"; "climatization"].
Proof.
  intros H H'. apply elem_of_cons in H' as [-> | H'].
  { revert H. unfold adopt_fields, guarded_fields. not_in_list. }
  apply elem_of_cons in H' as [-> | H'].
  { revert H. unfold adopt_fields, guarded_fields. not_in_list. }
  by apply elem_of_nil in H'.
Qed.

Lemma kind_run_anatomy SI k h o h' :
  vehicle_ok SI k h o →
  kind_run SI k (length h) o (h ++ [Obj (Vehicle.class_of_kind k) ∅]) h' →
  ∃ hB hC m, anatomy SI k h o h' hB hC m.
Proof.
  intros Hok (hE & (hA & hB & hC & HA & HB & HC & HBr) & Htail).
  set (self := length h) in *.
  set (h1 := h ++ [Obj (Vehicle.class_of_kind k) ∅]) in *.
  pose proof (run_o_lt SI k h o Hok) as Ho.
  assert (length h1 = S self) as Lh1.
  { unfold h1, self. rewrite length_app. simpl. lia. }
  assert (o ≠ self) as Hne by (unfold self; lia).
  destruct HA as (AA & EmA & LmA).
  pose proof (adopts_length _ _ _ _ AA) as LA.
  destruct HB as (LB & KB & FB & SB & PB & QB).
  assert (∀ a f, a < length h → f ≠ "parent" → get hB a f = get h a f)
    as Hold.
  { intros a f Ha Hf. rewrite FB; [|done|intros [-> _]; unfold self in *; lia].
    rewrite (adopts_get _ _ _ _ _ _ AA); [by apply get_app_old|lia|done|].
    intros [-> _]. unfold self in *. lia. }
  assert (∀ a, a < length h →
            get hA a "parent" = get h a "parent"
            ∨ get hA a "parent" = Some (VRef self)) as HparA.
  { intros a Ha. destruct AA as (_ & PA).
    destruct (PA a) as [E|E]; [lia|unfold self; lia| |by right].
    left. rewrite E. by apply get_app_old. }
  assert (∀ G, G ∈ adopt_fields → get hA o G = get h o G) as HoA.
  { intros G HG.
    rewrite (adopts_get _ _ _ _ _ _ AA);
      [by apply get_app_old|lia|by apply adopt_fields_not_parent|].
    by intros [? _]. }
  (* the manufacturer attribute *)
  assert (∃ m, get hA self "manufacturer" = Some (VRef m)
               ∧ m < length hA ∧ m ≠ self
               ∧ (m < length h → get h o "manufacturer" = Some (VRef m)))
    as (m & Em & Hm & Hms & Hmo).
  { rewrite EmA. unfold h1 at 1. rewrite get_app_old by done.
    destruct (get h o "manufacturer") as [x|] eqn:E.
    - destruct Hok as (_ & Hman & _).
      destruct (Hman x E) as (a & -> & Ha).
      exists a. split_and!; [done|lia|unfold self; lia|done].
    - exists (length h1). split_and!; [done| |lia|lia].
      apply LmA. unfold h1. by rewrite get_app_old. }
  assert (get hB self "manufacturer" = Some (VRef m)) as EmB.
  { rewrite FB; [done|done|].
    intros [_ H]. revert H. unfold adopt_fields, guarded_fields.
    not_in_list. }
  (* the specification *)
  assert (get hB o "specification" = get h o "specification") as Espec.
  { by apply Hold. }
  assert (self < length hB) as HsB by lia.
  (* the brand *)
  destruct HBr as (m' & Em' & Hm' & ->).
  rewrite images_get in Em' by (by intros [_ ?]).
  rewrite (spec_done_get self o hB hC) in Em';
    [|done|done|done|done|by intros [_ ?]].
  rewrite EmB in Em'. injection Em' as <-.
  exists hB.
  assert (∃ hC1,
            match get h o "specification" with
            | Some (VRef os) => spec_migrated os hB (length hB) hC1
            | _ => spec_defaulted (VRef self) hB (length hB) hC1
            end
            ∧ write (images SI self o hC) m "value" (VStr Vehicle.brand)
              = finish SI (bool_decide (get h o "specification" = None))
                  self o (length hB) m hC1) as (hC1 & Hspec & Hfin).
  { unfold spec_done in HC. rewrite Espec in HC. unfold finish.
    destruct (get h o "specification") as [[| | | |os]|];
      destruct HC as (hC1 & Hd & ->); exists hC1; (split; [done|]);
      first [rewrite bool_decide_eq_true_2 by done
            |rewrite bool_decide_eq_false_2 by done]; done. }
  exists hC1, m. unfold anatomy. fold self. split_and!; try done.
  - intros a Ha. rewrite KB. rewrite (adopts_class _ _ _ _ _ AA);
      [by apply class_of_app_old|lia].
  - intros a Ha. destruct (PB a) as [E|[_ E]]; [|by right].
    rewrite E. by apply HparA.
  - intros G HG. rewrite (SB G HG). rewrite (HoA G HG).
    destruct (get h o G); [done|].
    rewrite (adopts_get _ _ _ _ _ _ AA);
      [|lia|by apply adopt_fields_not_parent|].
    + unfold h1, self. by rewrite get_app_new.
    + intros [_ H]. by apply (adopt_fields_not_base G).
  - intros G b HG E Hp. apply (QB G b HG); [by rewrite HoA|].
    assert (b < length h) as Hb.
    { destruct Hp as [p Hp]. by eapply get_lt. }
    destruct (HparA b Hb) as [-> | ->]; [done|by eexists].
  - lia.
  - rewrite KB. rewrite (adopts_class _ _ _ _ _ AA); [|lia].
    unfold h1, self. apply class_of_app_new.
  - exists (write (images SI self o hC) m "value" (VStr Vehicle.brand)).
    split; [done|]. done.
Qed.

(** *** What the course of a migration implies *)

Ltac take_anatomy H :=
  let H' := fresh in
  pose proof H as H'; unfold anatomy in H'; cbv zeta in H';
  destruct H' as (Hlt & Hold & Hcls & Hpar & Hadopt & Hadoptp & Hman & Hms
                  & Hmself & Hmo & Hcself & Hspec & hE & HhE & Htail).

(** The construction of the specification leaves the objects there were
    as they are, parent links apart. *)
Lemma spec_made_frame (x : option value) self hB hC :
  match x with
  | Some (VRef os) => spec_migrated os hB (length hB) hC
  | _ => spec_defaulted (VRef self) hB (length hB) hC
  end →
  length hB < length hC
  ∧ class_of hC (length hB) = Some CSpecification
  ∧ (∀ a, a < length hB → class_of hC a = class_of hB a)
  ∧ (∀ a f, a < length hB → f ≠ "parent" → get hC a f = get hB a f)
  ∧ (∀ l, ∃ n, get hC (length hB) (leaf_name l) = Some (VRef n)
               ∧ length hB < n ∧ class_of hC n = Some (leaf_class l)).
Proof.
  assert (spec_defaulted (VRef self) hB (length hB) hC →
          length hB < length hC
          ∧ class_of hC (length hB) = Some CSpecification
          ∧ (∀ a, a < length hB → class_of hC a = class_of hB a)
          ∧ (∀ a f, a < length hB → f ≠ "parent" →
               get hC a f = get hB a f)
          ∧ (∀ l, ∃ n, get hC (length hB) (leaf_name l) = Some (VRef n)
                       ∧ length hB < n
                       ∧ class_of hC n = Some (leaf_class l))) as Hdef.
  { intros ((_ & [l ->] & C & _ & _) & Hn & _). split_and!.
    - by apply class_of_Some_lt in C.
    - done.
    - intros a Ha. by apply class_of_app_old.
    - intros a f Ha _. by apply get_app_old.
    - intros lf. destruct (Hn lf) as (n & E & Hl & Cn & _). by exists n. }
  destruct x as [[| | | |os]|]; try exact Hdef.
  intros (_ & L & C & K & F & _ & Hleaf & _). split_and!; try done.
  intros lf. destruct (Hleaf lf) as (n & E & Hl & Cn & _). by exists n.
Qed.

Lemma spec_made_parent (x : option value) self hB hC a :
  match x with
  | Some (VRef os) => spec_migrated os hB (length hB) hC
  | _ => spec_defaulted (VRef self) hB (length hB) hC
  end →
  a < length hB →
  get hC a "parent" = get hB a "parent"
  ∨ ∃ os, x = Some (VRef os)
          ∧ ((∃ G, G ∈ spec_scalars ∧ get hB os G = Some (VRef a))
             ∨ nested_value hB os a).
Proof.
  intros H Ha.
  assert (spec_defaulted (VRef self) hB (length hB) hC →
          get hC a "parent" = get hB a "parent") as Hdef.
  { intros ((_ & [l ->] & _) & _). by apply get_app_old. }
  destruct x as [[| | | |os]|]; try (left; by apply Hdef).
  destruct H as (_ & _ & _ & _ & _ & _ & _ & P & _).
  destruct (P a Ha) as [?|[?|?]]; [by left|right..]; exists os; auto.
Qed.

Lemma anatomy_tail SI k h o h' hB hC m :
  vehicle_ok SI k h o → anatomy SI k h o h' hB hC m →
  let hE := finish SI (bool_decide (get h o "specification" = None))
              (length h) o (length hB) m hC in
  o < length h ∧ length hB < length hC ∧ length hE = length hC
  ∧ charged (length h) o hE h' ∧ (has_charging k = false → h' = hE).
Proof.
  intros Hok Han hF. take_anatomy Han.
  pose proof (run_o_lt SI k h o Hok) as Ho.
  destruct (spec_made_frame _ _ _ _ Hspec) as (L & _).
  assert (length hF = length hC) as LF by apply finish_length.
  split_and!; try done.
  all: subst hE; fold hF in Htail;
    apply (tail_charged k (length h) o hF h'); first [lia | done].
Qed.

Lemma adopt_fields_plain G :
  G ∈ adopt_fields →
  G ≠ "parent" ∧ G ≠ "value" ∧ G ≠ "charging" ∧ G ≠ "specification"
  ∧ G ≠ "_car_images" ∧ G ≠ "manufacturer" ∧ G ∉ legacy_fields.*2.
Proof.
  intros H. unfold adopt_fields, guarded_fields in H.
  repeat (apply elem_of_cons in H as [-> | H];
          [split_and!; first [done | not_in_list]|]).
  by apply elem_of_nil in H.
Qed.

Section Outcome.
Variables (SI : bool) (k : Vehicle.kind) (h : heap) (o : addr).
Variables (h' hB hC : heap) (m : addr).
Hypothesis Hok : vehicle_ok SI k h o.
Hypothesis Han : anatomy SI k h o h' hB hC m.

(** What is read of an object, other than the new instance and the
    specification, after the specification is constructed. *)
Lemma later_get a f :
  a < length hC → a ≠ length h → a ≠ length hB → f ≠ "parent" →
  (f = "value" → a ≠ m) →
  get h' a f = get hC a f.
Proof.
  intros Ha Hself Hs Hf Hv. take_anatomy Han.
  destruct (anatomy_tail _ _ _ _ _ _ _ _ Hok Han) as (Ho & L & LF & T & _).
  destruct T as (_ & _ & F & _).
  rewrite F; [|lia|done|by intros [? _]].
  apply finish_get; [done| | |]; intros [? ?]; try done.
  - by apply Hv.
  - by destruct H0.
Qed.

(** The objects there were keep their fields; the value of the
    manufacturer attribute is the one that changes. *)
Lemma old_get a f :
  a < length h → f ≠ "parent" →
  (f = "value" → get h o "manufacturer" ≠ Some (VRef a)) →
  get h' a f = get h a f.
Proof.
  intros Ha Hf Hv. take_anatomy Han.
  destruct (spec_made_frame _ _ _ _ Hspec) as (L & _ & _ & F & _).
  rewrite later_get; [|lia|lia|lia|done|].
  - rewrite F by (lia || done). by apply Hold.
  - intros -> ->. apply Hv; [done|]. by apply Hmo.
Qed.

Lemma old_class a : a < length h → class_of h' a = class_of h a.
Proof.
  intros Ha. take_anatomy Han.
  destruct (anatomy_tail _ _ _ _ _ _ _ _ Hok Han) as (Ho & L & LF & T & _).
  destruct (spec_made_frame _ _ _ _ Hspec) as (_ & _ & K & _).
  destruct T as (_ & KT & _).
  rewrite KT by lia. rewrite finish_class. rewrite K by lia.
  by apply Hcls.
Qed.

(** The new instance holds the fields it took over. *)
Lemma self_field G :
  G ∈ adopt_fields → get h' (length h) G = get h o G.
Proof.
  intros HG. take_anatomy Han.
  destruct (adopt_fields_plain G HG) as (N1 & N2 & N3 & N4 & N5 & N6 & N7).
  destruct (anatomy_tail _ _ _ _ _ _ _ _ Hok Han) as (Ho & L & LF & T & _).
  destruct (spec_made_frame _ _ _ _ Hspec) as (_ & _ & _ & F & _).
  destruct T as (_ & _ & FT & _).
  rewrite FT; [|lia|done|by intros [_ ?]].
  rewrite finish_get; [|done|by intros [_ ?]| |].
  - rewrite F by (lia || done). by apply Hadopt.
  - intros [_ [?|?]]; done.
  - intros (_ & ? & _). lia.
Qed.

Lemma self_class : class_of h' (length h) = Some (Vehicle.class_of_kind k).
Proof.
  take_anatomy Han.
  destruct (anatomy_tail _ _ _ _ _ _ _ _ Hok Han) as (Ho & L & LF & T & _).
  destruct (spec_made_frame _ _ _ _ Hspec) as (_ & _ & K & _).
  destruct T as (_ & KT & _).
  rewrite KT by lia. rewrite finish_class. by rewrite K by lia.
Qed.

(** The brand. *)
Lemma brand_is_set : brand_set h' (length h).
Proof.
  take_anatomy Han.
  destruct (anatomy_tail _ _ _ _ _ _ _ _ Hok Han) as (Ho & L & LF & T & _).
  destruct (spec_made_frame _ _ _ _ Hspec) as (_ & _ & _ & F & _).
  destruct T as (_ & _ & FT & _).
  exists m. split.
  - rewrite FT; [|lia|done|by intros [_ ?]].
    rewrite finish_get; [|done|by intros [_ ?]| |].
    + by rewrite F by (lia || done).
    + intros [_ [?|?]]; done.
    + intros (_ & ? & _). lia.
  - rewrite FT; [|lia|done|by intros [_ ?]].
    apply finish_value. lia.
Qed.

(** The specification of the new instance is a new object, and so are its
    nested entities. *)
Lemma new_specification :
  get h' (length h) "specification" = Some (VRef (length hB))
  ∧ length h < length hB
  ∧ class_of h' (length hB) = Some CSpecification
  ∧ ∀ l, ∃ n, get h' (length hB) (leaf_name l) = Some (VRef n)
              ∧ length h < n ∧ class_of h' n = Some (leaf_class l).
Proof.
  take_anatomy Han.
  destruct (anatomy_tail _ _ _ _ _ _ _ _ Hok Han) as (Ho & L & LF & T & _).
  destruct (spec_made_frame _ _ _ _ Hspec) as (_ & C & K & F & Hleaf).
  destruct T as (_ & KT & FT & _).
  split_and!.
  - rewrite FT; [|lia|done|by intros [_ ?]].
    apply finish_spec; lia.
  - done.
  - rewrite KT by lia. by rewrite finish_class.
  - intros l. destruct (Hleaf l) as (n & E & Hn & Cn).
    assert (n < length hC) as HnC by (by eapply class_of_Some_lt).
    exists n. split_and!.
    + rewrite FT; [|lia|apply leaf_name_not_parent|intros [? _]; lia].
      rewrite finish_get; [done|apply leaf_name_not_parent|..].
      * intros [_ ?]. by destruct l.
      * intros [? _]. lia.
      * intros (_ & _ & Hin). revert Hin. destruct l; not_in_list.
    + lia.
    + rewrite KT by lia. by rewrite finish_class.
Qed.

(** The scalar fields of a migrated specification are the origin's. *)
Lemma new_specification_scalars os G :
  get h o "specification" = Some (VRef os) → G ∈ spec_scalars →
  get h' (length hB) G = get h os G.
Proof.
  intros Eos HG. take_anatomy Han.
  destruct (anatomy_tail _ _ _ _ _ _ _ _ Hok Han) as (Ho & L & LF & T & _).
  destruct T as (_ & _ & FT & _).
  assert (G ≠ "parent" ∧ G ≠ "value") as [N1 N2].
  { split; intros ->; revert HG; not_in_list. }
  assert (os < length h) as Hos.
  { destruct Hok as (_ & _ & _ & _ & _ & Hs & _).
    destruct (Hs _ Eos) as [?|(os' & [= <-] & ? & _)]; done. }
  rewrite Eos in Hspec.
  destruct Hspec as (_ & _ & _ & _ & _ & S & _).
  rewrite FT; [|lia|done|intros [? _]; lia].
  rewrite finish_get; [|done|by intros [_ ?]|intros [? _]; lia|].
  - rewrite (S G HG). by apply Hold.
  - intros (Hl & _). apply bool_decide_eq_true in Hl. congruence.
Qed.

Lemma legacy_fields_plain p :
  p ∈ legacy_fields →
  p.1 ≠ "parent" ∧ (p.1 ∉ guarded_fields) ∧ p.2 ≠ "parent" ∧ p.2 ≠ "value"
  ∧ p.2 ∈ legacy_fields.*2.
Proof.
  intros H. unfold legacy_fields in H.
  repeat (apply elem_of_cons in H as [-> | H];
          [split_and!; first [done | unfold guarded_fields; not_in_list
                             | sub_in]|]).
  by apply elem_of_nil in H.
Qed.

Lemma guarded_is_adopted G : G ∈ guarded_fields → G ∈ adopt_fields.
Proof.
  intros H. unfold adopt_fields.
  by apply list_elem_of_further, list_elem_of_further.
Qed.

(** The origin keeps the fields it had until the brand is set. *)
Lemma origin_get_made f :
  f ≠ "parent" → get hC o f = get h o f.
Proof.
  intros Hf. take_anatomy Han.
  destruct (anatomy_tail _ _ _ _ _ _ _ _ Hok Han) as (Ho & _).
  destruct (spec_made_frame _ _ _ _ Hspec) as (_ & _ & _ & F & _).
  rewrite F by (lia || done). by apply Hold.
Qed.

(** The parent link of an object made during the migration is not
    touched once the specification is constructed. *)
Lemma later_parent d :
  length h ≤ d → d < length hC →
  get h' d "parent" = get hC d "parent".
Proof.
  intros Hd HdC. take_anatomy Han.
  destruct (anatomy_tail _ _ _ _ _ _ _ _ Hok Han)
    as (Ho & L & LF & T & Tn).
  set (legacy := bool_decide (get h o "specification" = None)) in *.
  set (hF := finish SI legacy (length h) o (length hB) m hC) in *.
  assert (get hF d "parent" = get hC d "parent") as EF.
  { destruct (finish_parent SI legacy (length h) o (length hB) m hC d)
      as [E|(Hl & (p & Hp & Ep) & _)]; [lia|lia|done|].
    exfalso. apply bool_decide_eq_true in Hl.
    destruct (legacy_fields_plain p Hp) as (N1 & _).
    rewrite origin_get_made in Ep by done.
    destruct Hok as (_ & _ & _ & _ & _ & _ & Hleg & _).
    destruct (Hleg Hl p Hp _ Ep) as (a & [= <-] & Ha). lia. }
  rewrite <- EF.
  destruct (has_charging k) eqn:Hk.
  2:{ by rewrite (Tn eq_refl). }
  destruct T as (_ & KT & FT & PT).
  destruct (PT d ltac:(lia)) as [E|(He & Ec & _)]; [done|].
  exfalso.
  assert (is_electric h o = true) as He'.
  { rewrite <- He. symmetry. apply is_electric_same.
    unfold hF. rewrite finish_class.
    destruct (spec_made_frame _ _ _ _ Hspec) as (_ & _ & K & _).
    rewrite K by lia. by apply Hcls. }
  assert (get h o "charging" = Some (VRef d)) as Ec'.
  { rewrite <- Ec. symmetry. unfold hF.
    rewrite finish_get; [by apply origin_get_made|done|by intros [_ ?]|..].
    - intros [? _]. lia.
    - intros (_ & ? & _). lia. }
  destruct Hok as (_ & _ & _ & _ & _ & _ & _ & _ & Hch).
  destruct (Hch Hk He') as (x & Ex & a & -> & Ha).
  rewrite Ex in Ec'. injection Ec' as ->. lia.
Qed.

(** An attribute made in its default state with the specification stays
    in it. *)
Lemma default_kept a G :
  has_default hC a G → length hB ≤ a →
  get h' a G = get hC a G →
  has_default h' a G.
Proof.
  intros (d & E & Hsd & Ev & Ep) Ha EG. take_anatomy Han.
  assert (d < length hC) as Hd by (by eapply get_lt).
  exists d. split_and!.
  - by rewrite EG.
  - done.
  - rewrite later_get; [done|done|lia|lia|done|]. intros _. lia.
  - rewrite later_parent; [done|lia|done].
Qed.

(** A field taken over by the new instance and by none of the later
    steps: its parent is the new instance and its value is kept. *)
Lemma adopted_parent G b :
  G ∈ adopt_fields → get h o G = Some (VRef b) →
  is_Some (get h b "parent") → unshared h o b →
  round_trip h G b (length h) h'.
Proof.
  intros HGa E Hp (Hnm & Hns & Hnl). take_anatomy Han.
  destruct (anatomy_tail _ _ _ _ _ _ _ _ Hok Han)
    as (Ho & L & LF & T & Tn).
  set (legacy := bool_decide (get h o "specification" = None)) in *.
  set (hF := finish SI legacy (length h) o (length hB) m hC) in *.
  assert (b < length h) as Hb.
  { destruct Hp as [p Hp]. by eapply get_lt. }
  assert (get hB b "parent" = Some (VRef (length h))) as EB.
  { by apply (Hadoptp G). }
  assert (get hC b "parent" = Some (VRef (length h))) as EC.
  { destruct (spec_made_parent _ _ _ _ b Hspec ltac:(lia))
      as [->|(os & Eos & [(G' & HG' & E')|(l & on & G' & E1 & HG' & E2)])];
      [done|exfalso..].
    - assert (os < length h) as Hos.
      { destruct Hok as (_ & _ & _ & _ & _ & Hs & _).
        destruct (Hs _ Eos) as [?|(os' & [= <-] & ? & _)]; done. }
      assert (G' ≠ "parent") as N by (intros ->; revert HG'; not_in_list).
      rewrite Hold in E' by done.
      by apply (proj1 (Hns os Eos) G').
    - destruct Hok as (_ & _ & _ & _ & _ & Hs & _).
      destruct (Hs _ Eos) as [?|(os' & [= <-] & Hos & [N1 N2])]; [done|].
      rewrite Hold in E1 by (done || apply leaf_name_not_parent).
      destruct (N1 l _ E1) as [?|(on' & [= <-] & Hon)]; [done|].
      pose proof (leaf_fields_not_parent l G' HG') as N.
      rewrite Hold in E2 by done.
      apply (proj2 (Hns os Eos)). by exists l, on, G'. }
  assert (get hF b "parent" = Some (VRef (length h))) as EF.
  { unfold hF.
    destruct (finish_parent SI legacy (length h) o (length hB) m hC b)
      as [->|(Hl & (p & Hp' & Ep) & _)]; [lia|lia|done|].
    exfalso. destruct (legacy_fields_plain p Hp') as (N1 & _).
    rewrite origin_get_made in Ep by done.
    apply bool_decide_eq_true in Hl. by apply (Hnl Hl p). }
  split_and!.
  - rewrite self_field; done.
  - destruct T as (_ & _ & _ & PT).
    destruct (PT b ltac:(lia)) as [->|(_ & _ & ->)]; done.
  - apply old_get; [done|done|]. by intros _.
Qed.

(** The legacy fields of an origin without specification. *)
Lemma legacy_taken p :
  get h o "specification" = None → p ∈ legacy_fields →
  match get h o p.1 with
  | Some (VRef x) =>
      get h' (length hB) p.2 = Some (VRef x)
      ∧ (get h o "charging" ≠ Some (VRef x) →
         get h' x "parent" = Some (VRef (length hB)))
  | _ => get h' (length hB) p.2 = get hC (length hB) p.2
  end.
Proof.
  intros Es Hp. take_anatomy Han.
  destruct (anatomy_tail _ _ _ _ _ _ _ _ Hok Han)
    as (Ho & L & LF & T & Tn).
  assert (bool_decide (get h o "specification" = None) = true) as Hl.
  { by apply bool_decide_eq_true. }
  rewrite Hl in *.
  set (hF := finish SI true (length h) o (length hB) m hC) in *.
  destruct (legacy_fields_plain p Hp) as (N1 & _ & N3 & N4 & _).
  destruct T as (_ & _ & FT & PT).
  assert (get h' (length hB) p.2 = get hF (length hB) p.2) as E1.
  { apply FT; [lia|done|]. intros [? _]. lia. }
  pose proof (finish_legacy SI true (length h) o (length hB) m hC p
                ltac:(lia) ltac:(lia) ltac:(lia) ltac:(lia) eq_refl Hp)
    as E2.
  fold hF in E2. rewrite origin_get_made in E2 by done.
  rewrite E1, E2.
  destruct (get h o p.1) as [[| | | |x]|] eqn:Ex; try done.
  split; [done|]. intros Hnc.
  assert (x < length h) as Hx.
  { destruct Hok as (_ & _ & _ & _ & _ & _ & Hleg & _).
    destruct (Hleg Es p Hp _ Ex) as (a & [= <-] & Ha). done. }
  assert (get hF x "parent" = Some (VRef (length hB))) as EF.
  { apply (finish_legacy_parent SI true (length h) o (length hB) m hC p);
      [lia|lia|done|done| |lia].
    by rewrite origin_get_made. }
  destruct (PT x ltac:(lia)) as [->|(_ & Ec & _)]; [done|].
  exfalso. apply Hnc. rewrite <- Ec. symmetry. unfold hF.
  rewrite finish_get; [by apply origin_get_made|done|by intros [_ ?]|..].
  - intros [? _]. lia.
  - intros (_ & ? & _). lia.
Qed.

(** The specification made for an origin that has none is in its default
    state, but for the legacy fields taken over. *)
Lemma default_specification :
  (∀ os, get h o "specification" ≠ Some (VRef os)) →
  get h' (length hB) "parent" = Some (VRef (length h))
  ∧ (∀ G, G ∈ spec_scalars →
       (∀ p, p ∈ legacy_fields → p.2 = G → get h o p.1 = None) →
       has_default h' (length hB) G)
  ∧ (∀ l, has_default_nested h' (length hB) (leaf_name l) (leaf_class l)
            (leaf_fields l))
  ∧ (get h o "spec_engine_fuel_type" = None →
     get h' (length hB) "engine_fuel_type" = None).
Proof.
  intros Hno. take_anatomy Han.
  destruct (anatomy_tail _ _ _ _ _ _ _ _ Hok Han)
    as (Ho & L & LF & T & Tn).
  set (legacy := bool_decide (get h o "specification" = None)) in *.
  set (hF := finish SI legacy (length h) o (length hB) m hC) in *.
  assert (spec_defaulted (VRef (length h)) hB (length hB) hC) as Hd.
  { destruct (get h o "specification") as [[| | | |os]|]; try done.
    by destruct (Hno os). }
  destruct Hd as ((_ & Hext & C & Hpar' & Hdef) & Hnest & Habs).
  destruct T as (_ & KT & FT & PT).
  assert (∀ f, f ≠ "parent" → f ≠ "value" →
            (legacy = true → f ∈ legacy_fields.*2 →
             ∃ p, p ∈ legacy_fields ∧ p.2 = f ∧ get h o p.1 = None) →
            get h' (length hB) f = get hC (length hB) f) as Hs.
  { intros f N1 N2 Hleg.
    destruct (decide (legacy = true ∧ f ∈ legacy_fields.*2))
      as [[Hl Hin]|Hn].
    - destruct (Hleg Hl Hin) as (p & Hp & <- & Ep).
      apply bool_decide_eq_true in Hl.
      pose proof (legacy_taken p Hl Hp) as Ht. by rewrite Ep in Ht.
    - rewrite FT; [|lia|done|intros [? _]; lia].
      apply finish_get; [done|by intros [_ ?]|intros [? _]; lia|].
      intros (? & _ & ?). by apply Hn. }
  split_and!.
  - rewrite later_parent; [done|lia|lia].
  - intros G HG Hfree. apply default_kept; [by apply Hdef|lia|].
    apply Hs.
    + intros ->. revert HG. not_in_list.
    + intros ->. revert HG. not_in_list.
    + intros Hl Hin. apply list_elem_of_fmap in Hin as (p & -> & Hp).
      exists p. split_and!; [done|done|]. by apply Hfree.
  - intros l. destruct (Hnest l) as (n & E & Hn & Cn & Pn & Dn).
    assert (n < length hC) as HnC by (by eapply class_of_Some_lt).
    exists n. split_and!.
    + rewrite Hs; [done|apply leaf_name_not_parent|by destruct l|].
      intros _ Hin. exfalso. revert Hin. destruct l; not_in_list.
    + done.
    + rewrite KT by lia. unfold hF. by rewrite finish_class.
    + rewrite later_parent; [done|lia|done].
    + intros G HG. apply default_kept; [by apply Dn|lia|].
      destruct (Dn G HG) as (d & Ed & _).
      apply later_get; [done|lia|lia|by eapply leaf_fields_not_parent|].
      intros _. lia.
  - intros En. rewrite Hs; [|done|done|].
    + apply Habs; [not_in_list|by intros []|done|done].
    + intros _ _. exists ("spec_engine_fuel_type", "engine_fuel_type").
      split_and!; [sub_in|done|done].
Qed.

End Outcome.

(** *** The charging entity of an electric vehicle *)

Lemma charging_made SI h o h' hB hC m :
  vehicle_ok SI Vehicle.Electric h o →
  anatomy SI Vehicle.Electric h o h' hB hC m →
  ∃ c src,
    get h' (length h) "charging" = Some (VRef c)
    ∧ length h < c
    ∧ class_of h' c = Some CSkodaCharging
    ∧ get h' c "parent" = Some (VRef (length h))
    ∧ (∀ f, f ≠ "parent" → get h' c f = get h' src f)
    ∧ if is_electric h o then get h o "charging" = Some (VRef src)
      else length h < src ∧ class_of h' src = Some CCharging
           ∧ get h' src "parent" = Some (VRef (length h)).
Proof.
  intros Hok Han. take_anatomy Han.
  destruct (anatomy_tail _ _ _ _ _ _ _ _ Hok Han) as (Ho & L & LF & _).
  cbv zeta in LF. subst hE.
  set (hF := finish SI (bool_decide (get h o "specification" = None))
               (length h) o (length hB) m hC) in *.
  pose proof (origin_get_made _ _ _ _ _ _ _ _ Hok Han "charging"
                ltac:(done)) as Eorig.
  destruct Htail as (hU & HU & (src & obj & Hsrc & Hobj & ->)).
  assert (length h < length hF) as HsF by lia.
  destruct (upstream_charged _ _ _ _ HsF HU) as (LU & KU & FU & _).
  assert (is_electric hF o = is_electric h o) as Ee.
  { apply is_electric_same. unfold hF. rewrite finish_class.
    destruct (spec_made_frame _ _ _ _ Hspec) as (_ & _ & K & _).
    rewrite K by lia. by apply Hcls. }
  assert (is_electric hU o = is_electric h o) as EeU.
  { rewrite <- Ee. apply is_electric_same. apply KU. lia. }
  rewrite EeU in Hsrc.
  assert (src < length hU) as HsrcU by (by eapply lookup_lt_Some).
  assert (get hU o "charging" = get h o "charging") as Eoc.
  { rewrite FU; [|lia|done|intros [? _]; lia].
    unfold hF. rewrite finish_get; [done|done|by intros [_ ?]|..].
    - intros [? _]. lia.
    - intros (_ & ? & _). lia. }
  assert (src ≠ length h
          ∧ if is_electric h o then get h o "charging" = Some (VRef src)
            else src = length hF
                 ∧ class_of hU src = Some CCharging
                 ∧ get hU src "parent" = Some (VRef (length h)))
    as [Hne Hcase].
  { unfold upstream_charging in HU. rewrite Ee in HU.
    destruct (is_electric h o) eqn:He.
    - rewrite Eoc in Hsrc. split; [|done].
      destruct Hok as (_ & _ & _ & _ & _ & _ & _ & _ & Hch).
      destruct (Hch eq_refl He) as (x & Ex & a & -> & Ha).
      rewrite Ex in Hsrc. injection Hsrc as ->. lia.
    - subst hU. rewrite get_write_eq in Hsrc by (rewrite length_app; lia).
      injection Hsrc as <-. split; [lia|]. split_and!.
      + done.
      + rewrite class_of_write. apply class_of_app_new.
      + rewrite get_write_ne by (left; lia).
        rewrite get_app_new. by rewrite lookup_insert_eq. }
  exists (length hU), src. split_and!.
  - apply get_write_eq. rewrite length_app. lia.
  - lia.
  - rewrite class_of_write. apply class_of_app_new.
  - rewrite get_write_ne by (left; lia).
    rewrite get_app_new. by rewrite lookup_insert_eq.
  - intros f Hf. rewrite !get_write_ne by (left; lia).
    rewrite get_app_new, get_app_old by done.
    rewrite lookup_insert_ne by done. unfold get. by rewrite Hobj.
  - destruct (is_electric h o); [done|].
    destruct Hcase as (-> & Cs & Ps). split_and!.
    + lia.
    + rewrite class_of_write. by rewrite class_of_app_old.
    + rewrite get_write_ne by (left; lia). by rewrite get_app_old.
Qed.

End VehicleResults.

(** ** Fresh construction of a vehicle *)

Module FreshFacts.
Import Py Logic PyFacts Framework CopyFacts SpecificationFacts.
Import ServicePartnerFacts VehicleFacts.
Local Open Scope py_scope.

Lemma lookup_write_ne h a k v b : a ≠ b → write h a k v !! b = h !! b.
Proof.
  intros Hne. unfold write. destruct (h !! a); [|done].
  by apply list_lookup_insert_ne.
Qed.

Lemma grown_assign self G h l v :
  self < length h → grown self [G] h (write (h ++ l) self G v).
Proof.
  intros Hs. split_and!.
  - rewrite length_write, length_app. lia.
  - intros b Hb Hne. rewrite lookup_write_ne by done.
    by apply lookup_app_l.
  - rewrite class_of_write. by apply class_of_app_old.
  - intros k Hk. rewrite get_write_ne.
    + by apply get_app_old.
    + right. intros ->. apply Hk. by left.
Qed.

Lemma quiet_assign (mk : M addr) self G :
  G ≠ "manufacturer" →
  (∀ h, post mk h (λ _ h', extends h h')) →
  quiet self (let* a := mk in setattr (VRef self) G (VRef a)).
Proof.
  intros HG Hmk h Hs. apply post_bind.
  eapply post_mono; [apply Hmk|]. intros a h1 [l ->]. cbv beta.
  apply post_setattr; [rewrite length_app; lia|].
  exists [G]. split.
  - intros Hin. apply list_elem_of_singleton in Hin. done.
  - by apply grown_assign.
Qed.

Lemma quiet_fresh_attr c self G tags :
  G ≠ "manufacturer" →
  quiet self (let* a := Attribute_new c G (VRef self) tags in
              setattr (VRef self) G (VRef a)).
Proof.
  intros HG. apply quiet_assign; [done|]. intros h.
  unfold Attribute_new. apply post_new_object. by eexists.
Qed.

Lemma quiet_ret self : quiet self (ret tt).
Proof.
  intros h Hs. apply post_ret. exists []. split.
  - intros H. by apply elem_of_nil in H.
  - apply grown_refl.
Qed.

Lemma nested_default_extends c vehicle h :
  post (Nested_new c vehicle VNone) h (λ _ h', extends h h').
Proof. unfold Nested_new. apply post_new_object. by eexists. Qed.

Lemma partner_extends parent origin h :
  post (ServicePartner.new parent origin) h (λ _ h', extends h h').
Proof.
  eapply post_mono; [apply partner_new_spec|].
  by intros a h' (_ & Hext & _).
Qed.

Lemma specification_extends parent h :
  post (Specification.new parent VNone) h (λ _ h', extends h h').
Proof.
  eapply post_mono; [apply spec_fresh_spec|].
  by intros a h' ((_ & Hext & _) & _).
Qed.

(** A quiet step keeps the default manufacturer attribute. *)
Lemma post_quiet {A} self (step : M unit) (rest : M A) h Q :
  quiet self step → self < length h →
  has_default h self "manufacturer" →
  (∀ h', self < length h' → has_default h' self "manufacturer" →
         post rest h' Q) →
  post (step;; rest) h Q.
Proof.
  intros Hq Hs Hd Hrest. apply post_bind.
  eapply post_mono; [by apply Hq|].
  intros u h1 (Gs & HGs & Hg). cbv beta. apply Hrest.
  - destruct Hg as (L & _). lia.
  - by eapply has_default_grown.
Qed.

Lemma brand_own_grown self Gs h h' :
  brand_own h self → grown self Gs h h' → "manufacturer" ∉ Gs →
  brand_own h' self.
Proof.
  intros (m & Hm & E & Ev) Hg HGs.
  assert (m < length h) as Hlt by (by eapply get_lt).
  exists m. split_and!; [done| |].
  - destruct Hg as (_ & _ & _ & F). by rewrite F.
  - by rewrite (grown_get self Gs h h') by (done || lia).
Qed.

(** [GenericVehicle.__init__] without origin. *)
Lemma generic_fresh_spec self vin garage mc h :
  self < length h →
  post (GenericVehicle_init self vin garage mc VNone) h
    (λ _ h', self < length h' ∧ has_default h' self "manufacturer"
             ∧ ∃ c, get h' self "climatization" = Some (VRef c)
                    ∧ c < length h').
Proof.
  intros Hs. unfold GenericVehicle_init. simpl is_not_None. cbv iota.
  apply post_bind. eapply post_mono; [by apply base_init_fresh|].
  intros u h2 ->.
  set (h2 := write (write h self "id" vin) self "parent" garage).
  assert (length h2 = length h) as L2.
  { unfold h2. by rewrite !length_write. }
  apply post_bind. unfold StringAttribute, Attribute_new.
  apply post_new_object.
  set (d := <["name":=VStr (lit "manufacturer")]> _).
  set (h3 := h2 ++ [Obj CStringAttribute d]).
  assert (length h3 = S (length h)) as L3.
  { unfold h3. rewrite length_app. simpl. lia. }
  apply post_bind, post_setattr; [lia|].
  set (h4 := write h3 self "manufacturer" (VRef (length h2))).
  assert (length h4 = S (length h)) as L4.
  { unfold h4. by rewrite length_write. }
  apply post_bind. unfold Climatization, Nested_new.
  apply post_new_object.
  set (h5 := h4 ++ [Obj CClimatization (<["parent":=VRef self]> ∅)]).
  assert (length h5 = S (S (length h))) as L5.
  { unfold h5. rewrite length_app. simpl. lia. }
  apply post_setattr; [lia|].
  split_and!.
  - rewrite length_write. lia.
  - exists (length h2). split_and!.
    + rewrite get_write_ne by (by right).
      unfold h5. rewrite get_app_old by lia.
      unfold h4. apply get_write_eq. lia.
    + lia.
    + rewrite get_write_ne by (left; lia).
      unfold h5. rewrite get_app_old by lia.
      unfold h4. rewrite get_write_ne by (left; lia).
      unfold h3. by rewrite get_app_new.
    + rewrite get_write_ne by (left; lia).
      unfold h5. rewrite get_app_old by lia.
      unfold h4. rewrite get_write_ne by (left; lia).
      unfold h3. by rewrite get_app_new.
  - exists (length h4). split.
    + apply get_write_eq. lia.
    + rewrite length_write. lia.
Qed.

(** [SkodaVehicle.__init__] without origin. *)
Lemma skoda_fresh_spec SI self vin garage mc h :
  self < length h →
  post (Vehicle.SkodaVehicle_init SI self vin garage mc VNone) h
    (λ _ h', self < length h' ∧ brand_own h' self).
Proof.
  intros Hs. unfold Vehicle.SkodaVehicle_init. simpl is_not_None.
  cbv iota. apply post_bind.
  set (final := λ (_ : unit) (h1 : heap),
         post (let* m := getattr (VRef self) "manufacturer" in
               _set_value m (VStr Vehicle.brand)) h1
           (λ _ h', self < length h' ∧ brand_own h' self)).
  assert (∀ h1, self < length h1 → has_default h1 self "manufacturer" →
            final tt h1) as Hfinal.
  { intros h1 Hs1 (m & Em & Hm & Ev & Ep). unfold final.
    assert (m < length h1) as Hlt by (by eapply get_lt).
    apply post_bind. eapply post_getattr; [done|].
    unfold _set_value. apply post_setattr; [done|].
    split; [by rewrite length_write|].
    exists m. split_and!; [done| |by apply get_write_eq].
    rewrite get_write_ne by (by right). done. }
  apply post_bind.
  eapply post_mono; [by apply generic_fresh_spec|].
  intros u h1 (Hs1 & Hd1 & c & Ec & Hc). cbv beta.
  (* the brand's climatization, migrated from the default one *)
  apply post_bind, post_bind. eapply post_getattr; [done|].
  apply post_bind. unfold SkodaClimatization, Nested_new.
  apply lookup_lt_is_Some_2 in Hc as [oc Hoc].
  unfold post at 1, outcome. rewrite Hoc.
  fold (post (setattr (VRef self) "climatization" (VRef (length h1)))
          (h1 ++ [Obj CSkodaClimatization
                    (<["parent":=VRef self]> (dict oc))])
          (λ _ h2, post
             ((let* c := Capabilities (VRef self) in
               setattr (VRef self) "capabilities" (VRef c));;
              Vehicle.fresh_attr BooleanAttribute self "in_motion";;
              Vehicle.fresh_attr StringAttribute self "raw_api";;
              Vehicle.fresh_attr StringAttribute self "extras";;
              Vehicle.fresh_attr StringAttribute self "renders";;
              Vehicle.fresh_attr StringAttribute self "composite_renders";;
              Vehicle.fresh_attr StringAttribute self
                "composite_render_urls";;
              Vehicle.fresh_attr StringAttribute self "title";;
              Vehicle.fresh_attr StringAttribute self "system_model_id";;
              Vehicle.fresh_attr StringAttribute self "priority";;
              Vehicle.fresh_attr StringAttribute self "device_platform";;
              Vehicle.fresh_attr StringAttribute self "skoda_state";;
              Vehicle.fresh_attr BooleanAttribute self
                "workshop_mode_enabled";;
              (let* p := ServicePartner.new (VRef self) VNone in
               setattr (VRef self) "service_partner" (VRef p));;
              (let* s := Specification.new (VRef self) VNone in
               setattr (VRef self) "specification" (VRef s));;
              if SI then
                let* d := new_object CObject ∅ in
                setattr (VRef self) "_car_images" (VRef d)
              else ret tt) h2 final)).
  apply post_setattr; [rewrite length_app; lia|].
  set (h2 := write _ self "climatization" _).
  assert (grown self ["climatization"] h1 h2) as Hg2.
  { by apply grown_assign. }
  assert (self < length h2) as Hs2 by (destruct Hg2; lia).
  assert (has_default h2 self "manufacturer") as Hd2.
  { eapply has_default_grown; [done|done|not_in_list]. }
  clearbody h2. clear Hg2.
  apply (post_quiet self); [|done|done|clear dependent h2; intros h2 Hs2 Hd2].
  { apply quiet_assign; [done|]. intros hx. apply nested_default_extends. }
  do 12 (apply (post_quiet self);
         [by apply quiet_fresh_attr|done|done
         |clear dependent h2; intros h2 Hs2 Hd2]).
  apply (post_quiet self); [|done|done|clear dependent h2; intros h2 Hs2 Hd2].
  { apply quiet_assign; [done|]. intros hx. apply partner_extends. }
  apply (post_quiet self); [|done|done|clear dependent h2; intros h2 Hs2 Hd2].
  { apply quiet_assign; [done|]. intros hx. apply specification_extends. }
  destruct SI.
  - eapply post_mono.
    { apply (quiet_assign (new_object CObject ∅) self "_car_images");
        [done| |done].
      intros hx. apply post_new_object. by eexists. }
    intros u' h3 (Gs & HGs & Hg). apply Hfinal.
    + destruct Hg as (L & _). lia.
    + by eapply has_default_grown.
  - apply post_ret. by apply Hfinal.
Qed.

(** The constructor of the class [k] without origin. *)
Lemma vehicle_fresh_spec SI k vin garage mc h :
  post (Vehicle.new SI k vin garage mc VNone) h
    (λ v h', v = length h ∧ brand_set h' v).
Proof.
  unfold Vehicle.new, alloc. apply post_bind, post_new_object.
  set (self := length h).
  set (h1 := h ++ [Obj (Vehicle.class_of_kind k) ∅]).
  assert (self < length h1) as Hs1.
  { unfold h1, self. rewrite length_app. simpl. lia. }
  apply post_bind.
  pose proof (skoda_fresh_spec SI self vin garage mc h1 Hs1) as Hinit.
  assert (∀ hx, brand_own hx self → brand_set hx self) as Hset.
  { intros hx (m & _ & E & Ev). by exists m. }
  assert (∀ hx, self < length hx → brand_own hx self →
            post (let* c := Charging (VRef self) in
                  setattr (VRef self) "charging" (VRef c)) hx
              (λ _ hy, self < length hy ∧ brand_own hy self
                       ∧ ∃ c, get hy self "charging" = Some (VRef c)
                              ∧ c < length hy)) as Hup.
  { intros hx Hsx Hbx. apply post_bind. unfold Charging, Nested_new.
    apply post_new_object. apply post_setattr; [rewrite length_app; lia|].
    split_and!.
    - rewrite length_write, length_app. lia.
    - eapply (brand_own_grown self ["charging"]);
        [done|by apply grown_assign|not_in_list].
    - exists (length hx). split.
      + apply get_write_eq. rewrite length_app. lia.
      + rewrite length_write, length_app. simpl. lia. }
  destruct k; unfold Vehicle.init_of_kind,
    Vehicle.SkodaElectricVehicle_init, Vehicle.SkodaCombustionVehicle_init,
    Vehicle.SkodaHybridVehicle_init, HybridVehicle_init,
    ElectricVehicle_init, CombustionVehicle_init;
    simpl is_not_None; cbv iota beta zeta.
  - eapply post_mono; [apply Hinit|]. intros u hE (HsE & HbE).
    apply post_ret. split; [done|]. by apply Hset.
  - apply post_bind, post_bind.
    eapply post_mono; [apply Hinit|]. intros u hE (HsE & HbE). cbv beta.
    eapply post_mono; [by apply Hup|].
    intros u' hU (HsU & HbU & c & Ec & Hc). cbv beta.
    apply post_bind. eapply post_getattr; [done|].
    apply post_bind. unfold SkodaCharging, Nested_new.
    apply lookup_lt_is_Some_2 in Hc as [oc Hoc].
    unfold post at 1, outcome. rewrite Hoc. simpl.
    apply post_setattr; [rewrite length_app; lia|].
    apply post_ret. split; [done|]. apply Hset.
    eapply (brand_own_grown self ["charging"]); [exact HbU| |not_in_list].
    by apply (grown_assign self "charging" hU).
  - eapply post_mono; [apply Hinit|]. intros u hE (HsE & HbE).
    apply post_ret. split; [done|]. by apply Hset.
  - apply post_bind.
    eapply post_mono; [apply Hinit|]. intros u hE (HsE & HbE). cbv beta.
    eapply post_mono; [by apply Hup|].
    intros u' hU (HsU & HbU & _). apply post_ret. split; [done|].
    by apply Hset.
Qed.

End FreshFacts.

(** * Properties *)

(** ** The log sanitizer *)

Module UtilOverrideFacts.
Import UtilOverride.

Lemma length_lit_ellipsis : length ellipsis = 3.
Proof. reflexivity. Qed.

Lemma slice_to_nonneg {A} (s : list A) (n : nat) :
  slice_to s (Z.of_nat n) = take n s.
Proof.
  unfold slice_to. destruct (Z.leb_spec 0 (Z.of_nat n)); [|lia].
  by rewrite Nat2Z.id.
Qed.

Lemma cut_long (s : pystr) (n : nat) :
  (n < length s) → cut s (Z.of_nat n) = take n s ++ ellipsis.
Proof.
  intros Hlen. unfold cut.
  destruct (Z.gtb_spec (Z.of_nat (length s)) (Z.of_nat n)); [|lia].
  by rewrite slice_to_nonneg.
Qed.

Lemma cut_short (s : pystr) (n : nat) :
  (length s ≤ n) → cut s (Z.of_nat n) = s.
Proof.
  intros Hlen. unfold cut.
  destruct (Z.gtb_spec (Z.of_nat (length s)) (Z.of_nat n)); [lia|done].
Qed.

Section Sanitizer.
Context {V : Type}.
Variable json_dumps : gmap string V → option pystr.
Variable py_str : gmap string V → pystr.
Variable repr_keys : gset string → pystr.
Variable config_remove_credentials : gmap string V → gmap string V.

(** C6 (as amended).  When there are extra keys, the record is handed to
    [log.info] exactly when the environment variable holds one of the
    three strings ['1'], ['true'], ['True'], and to [log.debug] for every
    other value and when the variable is unset. *)
Theorem log_level_by_toggle
    (environ : gmap string pystr) (where_ : pystr)
    (dictionary : gmap string V) (allowed_keys : option (gset string)) :
  let v := environ !! "CARCONNECTIVITY_SHOW_EXTRA_KEYS" in
  lr_level <$> log_extra_keys json_dumps py_str repr_keys
                 config_remove_credentials environ where_ dictionary
                 allowed_keys
  = if decide (extra_keys dictionary allowed_keys = ∅) then None
    else if decide (v = Some (lit "1") ∨ v = Some (lit "true")
                    ∨ v = Some (lit "True"))
         then Some INFO else Some DEBUG.
Proof.
  intros v. unfold log_extra_keys.
  destruct (decide (extra_keys dictionary allowed_keys = ∅)); [done|].
  assert (show_info environ = true ↔
          (v = Some (lit "1") ∨ v = Some (lit "true")
           ∨ v = Some (lit "True"))) as Hshow.
  { unfold show_info, os_getenv. fold v. rewrite bool_decide_eq_true.
    destruct v as [s|].
    - rewrite !elem_of_cons, elem_of_nil. split.
      + intros [->|[->|[->|[]]]]; auto.
      + intros [H|[H|H]]; injection H as ->; auto.
    - split.
      + rewrite !elem_of_cons, elem_of_nil.
        intros [H|[H|[H|[]]]]; vm_compute in H; discriminate.
      + intros [H|[H|H]]; discriminate. }
  destruct (show_info environ); case_decide; simpl; try done.
  - exfalso. apply H. by apply Hshow.
  - exfalso. assert (false = true) by (by apply Hshow). done.
Qed.

(** C7.  The extra keys are the keys of the dictionary that are not
    allowed, an absent [allowed_keys] allowing none; nothing is logged
    exactly when there are none. *)
Theorem extra_keys_difference
    (environ : gmap string pystr) (where_ : pystr)
    (dictionary : gmap string V) (allowed_keys : option (gset string)) :
  extra_keys dictionary allowed_keys
    = dom dictionary ∖ default ∅ allowed_keys
  ∧ extra_keys dictionary None = dom dictionary
  ∧ (log_extra_keys json_dumps py_str repr_keys config_remove_credentials
       environ where_ dictionary allowed_keys = None
     ↔ dom dictionary ∖ default ∅ allowed_keys = ∅).
Proof.
  split_and!.
  - by destruct allowed_keys.
  - unfold extra_keys. apply difference_empty_L.
  - unfold log_extra_keys.
    assert (extra_keys dictionary allowed_keys
            = dom dictionary ∖ default ∅ allowed_keys) as ->.
    { by destruct allowed_keys. }
    case_decide; [done|]. by destruct (show_info environ).
Qed.

(** C8.  What [log_extra_keys] emits ends with the rendering of the
    mapping, and the rendering is the serialized form of the sanitized
    mapping cut at 300 characters.  When there are extra keys the text of
    the record is the label, the keys and then the rendering [r]: a
    serialized form [s] of more than 300 characters is rendered as its
    first 300 characters followed by ['...'], which makes 303 characters
    and ends the record with an ellipsis; one of at most 300 characters is
    rendered as it is. *)
Theorem rendering_truncated
    (environ : gmap string pystr) (where_ : pystr)
    (dictionary : gmap string V) (allowed_keys : option (gset string)) :
  let s := serialized json_dumps py_str
             (config_remove_credentials dictionary) in
  let r := if decide (300 < length s) then take 300 s ++ lit "..."
           else s in
  let extra := extra_keys dictionary allowed_keys in
  let emitted := log_extra_keys json_dumps py_str repr_keys
                   config_remove_credentials environ where_ dictionary
                   allowed_keys in
  lr_msg <$> emitted
  = (if decide (extra = ∅) then None
     else Some (lit "Unexpected keys found in " ++ where_ ++ lit ": "
                  ++ repr_keys extra ++ lit " Dictionary is " ++ r))
  ∧ (∀ rec, emitted = Some rec →
       r `suffix_of` lr_msg rec
       ∧ ((300 < length s) → lit "..." `suffix_of` lr_msg rec))
  ∧ (length r ≤ 303)
  ∧ ((300 < length s) → length r = 303 ∧ lit "..." `suffix_of` r)
  ∧ ((length s ≤ 300) → r = s).
Proof.
  intros s r extra emitted.
  assert (_truncate json_dumps py_str
            (config_remove_credentials dictionary) default_max_len = r)
    as Hr.
  { change (cut s (Z.of_nat 300) = r). unfold r.
    destruct (decide (300 < length s)) as [Hl|Hl].
    - by apply cut_long.
    - apply cut_short. lia. }
  assert ((300 < length s) → length r = 303 ∧ lit "..." `suffix_of` r)
    as Hlong.
  { intros Hl. unfold r. rewrite decide_True by done. split.
    - rewrite length_app, length_take. change (length (lit "...")) with 3.
      lia.
    - by apply suffix_app_r. }
  assert (lr_msg <$> emitted
          = (if decide (extra = ∅) then None
             else Some (lit "Unexpected keys found in " ++ where_
                          ++ lit ": " ++ repr_keys extra
                          ++ lit " Dictionary is " ++ r))) as Hm.
  { unfold emitted, log_extra_keys. fold extra.
    destruct (decide (extra = ∅)); [done|].
    unfold message. rewrite Hr. by destruct (show_info environ). }
  split_and!.
  - exact Hm.
  - intros rec Hrec. rewrite Hrec in Hm.
    destruct (decide (extra = ∅)); [discriminate Hm|].
    assert (r `suffix_of` lr_msg rec) as Hs.
    { exists (lit "Unexpected keys found in " ++ where_ ++ lit ": "
                ++ repr_keys extra ++ lit " Dictionary is ").
      rewrite <- !(assoc_L (++)). by injection Hm. }
    split; [done|]. intros Hl.
    etrans; [apply (proj2 (Hlong Hl))|done].
  - unfold r. destruct (decide (300 < length s)) as [Hl|Hl]; [|lia].
    rewrite length_app, length_take. change (length (lit "...")) with 3.
    lia.
  - exact Hlong.
  - intros Hl. unfold r. rewrite decide_False by lia. done.
Qed.

End Sanitizer.

(** The example of the specification: keys [a], [b], [secret] with [a]
    allowed leave [b] and [secret]. *)
Lemma extra_keys_example :
  extra_keys example_dictionary (Some {["a"]}) = {["b"; "secret"]}.
Proof.
  unfold extra_keys, example_dictionary.
  rewrite !dom_insert_L, dom_empty_L.
  apply set_eq. intros k. rewrite !elem_of_difference, !elem_of_union,
    !elem_of_singleton, elem_of_empty.
  split.
  - intros [Hk Hn]. destruct Hk as [-> | [-> | [-> | []]]]; auto.
    by destruct Hn.
  - intros [-> | ->]; (split; [auto|discriminate]).
Qed.

(** The claim C6 as the specification words it fails on ['TRUE']: the
    specification's toggle accepts it, the code logs at DEBUG. *)
Lemma toggle_case_counterexample :
  let environ : gmap string pystr :=
    {[ "CARCONNECTIVITY_SHOW_EXTRA_KEYS" := lit "TRUE" ]} in
  spec_toggle (lit "TRUE") = true
  ∧ lr_level <$> log_extra_keys (λ _, Some (lit "{}")) (λ _, lit "{}")
                   (λ _, lit "{'b'}") id environ (lit "vehicle")
                   ({[ "b" := 0 ]} : gmap string nat) (Some ∅)
    = Some DEBUG.
Proof. split; vm_compute; reflexivity. Qed.

End UtilOverrideFacts.

(** * The properties of the specification *)

Module Claims.
Import Py Logic PyFacts Framework CopyFacts SpecificationFacts.
Import ServicePartnerFacts VehicleFacts CheckFacts VehicleResults FreshFacts.
Local Open Scope py_scope.

(** ** Helper facts *)

Lemma migration_anatomy SI k vin garage mc h o (Q : addr → heap → Prop) :
  vehicle_ok SI k h o →
  (∀ h' hB hC m, anatomy SI k h o h' hB hC m → Q (length h) h') →
  post (Vehicle.new SI k vin garage mc (VRef o)) h Q.
Proof.
  intros Hok HQ. eapply post_mono; [by apply vehicle_new_spec|].
  intros v h' [-> Hrun]. cbv beta.
  destruct (kind_run_anatomy SI k h o h' Hok Hrun) as (hB & hC & m & Han).
  by eapply HQ.
Qed.

(** A computation that raises. *)
Lemma raises_of_outcome {A} (m : M A) h :
  outcome m h (λ _ _, False) (λ _, True) → raises m h AttributeError.
Proof.
  unfold outcome, raises. destruct (m h) as [a h'|e h']; [done|].
  by destruct e.
Qed.

(** [SkodaVehicle.__init__] reads [origin.capabilities] without a check. *)
Lemma skoda_vehicle_raises SI self vin garage mc o h :
  self < length h → o < length h → o ≠ self →
  get h o "capabilities" = None →
  outcome (Vehicle.SkodaVehicle_init SI self vin garage mc (VRef o)) h
    (λ _ _, False) (λ _, True).
Proof.
  intros Hs Ho Hne Hcap. unfold Vehicle.SkodaVehicle_init.
  simpl is_not_None. cbv iota.
  apply outcome_bind, outcome_bind.
  eapply outcome_mono; [apply post_outcome, generic_vehicle_spec; done| |].
  2:{ intros h1 H. exact H. }
  intros u hA (AA & _). cbv beta.
  apply outcome_bind. unfold Vehicle.adopt. apply outcome_bind.
  unfold outcome at 1, getattr.
  rewrite (adopts_get _ _ _ _ _ _ AA); [|done|done|by intros [? _]].
  by rewrite Hcap.
Qed.

Lemma vehicle_new_raises SI k vin garage mc o h :
  o < length h → get h o "capabilities" = None →
  raises (Vehicle.new SI k vin garage mc (VRef o)) h AttributeError.
Proof.
  intros Ho Hcap. apply raises_of_outcome.
  unfold Vehicle.new, alloc. apply outcome_bind.
  unfold outcome at 1, new_object.
  set (h1 := h ++ [Obj (Vehicle.class_of_kind k) ∅]).
  assert (length h < length h1) as Hs1.
  { unfold h1. rewrite length_app. simpl. lia. }
  assert (outcome
            (Vehicle.SkodaVehicle_init SI (length h) VNone garage VNone
               (VRef o)) h1 (λ _ _, False) (λ _, True)) as Hr.
  { apply skoda_vehicle_raises; [done|lia|lia|].
    unfold h1. by rewrite get_app_old. }
  assert (∀ B (Q : B → heap → Prop) (rest : unit → M B),
            outcome
              (bind (Vehicle.SkodaVehicle_init SI (length h) VNone garage
                       VNone (VRef o)) rest) h1 Q (λ _, True)) as Hb.
  { intros B Q rest. apply outcome_bind.
    eapply outcome_mono; [exact Hr|done|done]. }
  assert (outcome
            (Vehicle.SkodaVehicle_init SI (length h) vin garage mc
               (VRef o)) h1 (λ _ _, False) (λ _, True)) as Hr'.
  { apply skoda_vehicle_raises; [done|lia|lia|].
    unfold h1. by rewrite get_app_old. }
  apply outcome_bind.
  destruct k; unfold Vehicle.init_of_kind,
    Vehicle.SkodaElectricVehicle_init, Vehicle.SkodaCombustionVehicle_init,
    Vehicle.SkodaHybridVehicle_init, HybridVehicle_init,
    ElectricVehicle_init, CombustionVehicle_init;
    simpl is_not_None; cbv iota beta zeta.
  - eapply outcome_mono; [exact Hr'|done|done].
  - apply outcome_bind.
    eapply outcome_mono; [apply Hb|intros a hx Hx; exact Hx|done].
  - eapply outcome_mono; [exact Hr|done|done].
  - eapply outcome_mono; [apply Hb|intros a hx Hx; exact Hx|done].
Qed.

(** ** Service partner *)

(** C9.  [ServicePartner(parent, origin)] always makes a new
    [service_partner_id] attribute, a string attribute whose parent is the
    new instance; its value is the origin's when the origin has one that is
    not [None], and the default [None] otherwise.  No object of the heap of
    the call is changed: the origin and its attribute, with its parent
    link, are as they were.  The constructor returns for every [origin]. *)
Theorem service_partner_id_fresh (parent origin : value) (h : heap) :
  post (ServicePartner.new parent origin) h
    (λ p h',
       p = length h
       ∧ (∀ b, b < length h → h' !! b = h !! b)
       ∧ ∃ a, get h' p "service_partner_id" = Some (VRef a)
              ∧ length h < a
              ∧ class_of h' a = Some CStringAttribute
              ∧ get h' a "parent" = Some (VRef p)
              ∧ get h' a "value" = Some (copied_value h origin)).
Proof.
  eapply post_mono; [apply partner_new_spec|].
  intros p h' (-> & [l ->] & _ & a & E & Hlt & C & Ep & Ev).
  split_and!; [done| |by exists a].
  intros b Hb. by apply lookup_app_l.
Qed.

(** ** The brand *)

(** C4.  Whichever of the four classes is constructed, without origin or
    from an origin fit to migrate from, the constructor returns and the
    manufacturer attribute of the new vehicle holds ['Škoda'], whatever
    the heap of the call, and so the origin, held. *)
Theorem manufacturer_is_brand (SUPPORT_IMAGES : bool) (k : Vehicle.kind)
    (vin garage managing_connector : value) (origin : option addr)
    (h : heap) :
  (∀ o, origin = Some o → vehicle_ok SUPPORT_IMAGES k h o) →
  post (Vehicle.new SUPPORT_IMAGES k vin garage managing_connector
          (from_option VRef VNone origin)) h
    (λ v h', v = length h ∧ brand_set h' v).
Proof.
  intros Hok. destruct origin as [o|]; simpl.
  - apply migration_anatomy; [by apply Hok|].
    intros h' hB hC m Han. split; [done|].
    eapply brand_is_set; [by apply Hok|done].
  - apply vehicle_fresh_spec.
Qed.

(** ** Charging *)

(** C5.  [SkodaElectricVehicle(origin=o)] returns with a charging entity:
    a new [SkodaCharging] whose parent is the new vehicle and which
    carries the fields of the entity it is migrated from.  That entity is
    the origin's charging entity when the origin is an electric vehicle,
    and otherwise the default [Charging] entity the new vehicle was given
    by [ElectricVehicle.__init__]. *)
Theorem electric_charging_migrated (SUPPORT_IMAGES : bool)
    (vin garage managing_connector : value) (h : heap) (o : addr) :
  vehicle_ok SUPPORT_IMAGES Vehicle.Electric h o →
  post (Vehicle.new SUPPORT_IMAGES Vehicle.Electric vin garage
          managing_connector (VRef o)) h
    (λ v h',
       ∃ c src,
         get h' v "charging" = Some (VRef c)
         ∧ length h < c
         ∧ class_of h' c = Some CSkodaCharging
         ∧ get h' c "parent" = Some (VRef v)
         ∧ (∀ f, f ≠ "parent" → get h' c f = get h' src f)
         ∧ if is_electric h o then get h o "charging" = Some (VRef src)
           else v < src ∧ class_of h' src = Some CCharging
                ∧ get h' src "parent" = Some (VRef v)).
Proof.
  intros Hok. apply migration_anatomy; [done|].
  intros h' hB hC m Han. by eapply charging_made.
Qed.

(** ** Migration from a partial origin *)

(** C1 (as amended).  The constructors of [Engine], [ExteriorDimensions],
    [Gearbox], [Specification] and [ServicePartner] return for every origin
    object (for [Specification]: whose nested entities are [None] or
    objects).  A scalar field the origin lacks is not created: the new
    entity lacks it as well.  A nested entity the origin lacks is
    constructed in its default state, and so is the id of the service
    partner.  A vehicle constructor reads [origin.capabilities] without a
    check: it raises [AttributeError] when the origin lacks it, and returns
    for an origin fit to migrate from, the new vehicle lacking each guarded
    field the origin lacks. *)
Theorem partial_origin_tolerated (h : heap) :
  (∀ l parent o, o < length h →
     post (leaf_new l parent (VRef o)) h
       (λ e h', ∀ G, G ∈ leaf_fields l → get h o G = None →
                     get h' e G = None))
  ∧ (∀ parent os, os < length h → nested_ok h os →
       post (Specification.new parent (VRef os)) h
         (λ s h',
            (∀ G, G ∈ spec_scalars → get h os G = None →
                  get h' s G = None)
            ∧ ∀ l, get h os (leaf_name l) = None →
                   has_default_nested h' s (leaf_name l) (leaf_class l)
                     (leaf_fields l)))
  ∧ (∀ parent origin,
       post (ServicePartner.new parent origin) h
         (λ p h',
            (∀ o, origin = VRef o →
                  get h o "service_partner_id" = None) →
            has_default h' p "service_partner_id"))
  ∧ (∀ SI k vin garage mc o, vehicle_ok SI k h o →
       post (Vehicle.new SI k vin garage mc (VRef o)) h
         (λ v h', ∀ G, G ∈ guarded_fields → get h o G = None →
                       get h' v G = None))
  ∧ (∀ SI k vin garage mc o,
       o < length h → get h o "capabilities" = None →
       raises (Vehicle.new SI k vin garage mc (VRef o)) h AttributeError).
Proof.
  split_and!.
  - intros l parent o Ho.
    eapply post_mono; [by apply leaf_migrate_spec|].
    intros e h' (_ & _ & _ & _ & _ & F & _) G HG E. cbv beta.
    by rewrite (F G HG).
  - intros parent os Hos Hnok.
    eapply post_mono; [by apply spec_migrate_spec|].
    intros s h' (-> & _ & _ & _ & _ & F & Hleaf & _). cbv beta. split.
    + intros G HG E. by rewrite (F G HG).
    + intros l E. destruct (Hleaf l) as (n & En & Hn & Cn & Hm).
      rewrite E in Hm. destruct Hm as [Hp Hd].
      exists n. split_and!; done.
  - intros parent origin.
    eapply post_mono; [apply partner_new_spec|].
    intros p h' (-> & _ & _ & a & E & Hlt & C & Ep & Ev) Hlack.
    exists a. split_and!; try done.
    rewrite Ev. f_equal. unfold copied_value.
    destruct origin as [| | | |o]; try done.
    by rewrite (Hlack o eq_refl).
  - intros SI k vin garage mc o Hok.
    apply migration_anatomy; [done|].
    intros h' hB hC m Han G HG E.
    rewrite (self_field SI k h o h' hB hC m Hok Han G);
      [done|by apply guarded_is_adopted].
  - intros SI k vin garage mc o Ho E. by apply vehicle_new_raises.
Qed.

(** ** Nested entities *)

(** C2 (as amended).  The specification of a migrated vehicle and the
    three entities nested in a migrated specification are new objects,
    made by the constructors of their classes from the origin's: a nested
    entity carries the fields of the origin's, or is in its default state
    when the origin has none, and the new specification carries the scalar
    fields of the origin's.  The service partner is not migrated: the new
    vehicle holds the very object the origin holds. *)
Theorem nested_entities_migrated (h : heap) :
  (∀ parent os, os < length h → nested_ok h os →
     post (Specification.new parent (VRef os)) h
       (λ s h', s = length h ∧ ∀ l, leaf_of h os h' s l))
  ∧ (∀ SI k vin garage mc o, vehicle_ok SI k h o →
       post (Vehicle.new SI k vin garage mc (VRef o)) h
         (λ v h',
            (∃ s, get h' v "specification" = Some (VRef s)
                  ∧ length h < s
                  ∧ class_of h' s = Some CSpecification
                  ∧ (∀ os G, get h o "specification" = Some (VRef os) →
                       G ∈ spec_scalars → get h' s G = get h os G)
                  ∧ ∀ l, ∃ n, get h' s (leaf_name l) = Some (VRef n)
                              ∧ length h < n
                              ∧ class_of h' n = Some (leaf_class l))
            ∧ get h' v "service_partner" = get h o "service_partner")).
Proof.
  split.
  - intros parent os Hos Hnok.
    eapply post_mono; [by apply spec_migrate_spec|].
    by intros s h' (-> & _ & _ & _ & _ & _ & Hleaf & _).
  - intros SI k vin garage mc o Hok.
    apply migration_anatomy; [done|].
    intros h' hB hC m Han. split.
    + destruct (new_specification SI k h o h' hB hC m Hok Han)
        as (E & Hlt & C & Hleaf).
      exists (length hB). split_and!; try done.
      intros os G Eos HG. by eapply new_specification_scalars.
    + apply (self_field SI k h o h' hB hC m Hok Han). sub_in.
Qed.

(** ** Round trip *)

(** C3, X6.  Let the origin [o] hold the object [b] as its field [G],
    [b] having a parent link.  An entity of a nested class migrated from
    [o] holds [b] as its field [G], with the value it had, and the parent
    of [b] is the new entity.  So does a specification for each scalar
    field, when [b] is not also a field of a nested entity of the origin,
    which would take it afterwards.  So does a vehicle of any of the four
    classes for [capabilities], [in_motion] and each of the twelve fields
    it takes over when the origin has them, when [b] is none of the
    objects a later step hands to the new specification or overwrites
    ([unshared]); objects that hold [b] but do not belong to the origin,
    such as the vehicle the origin was itself migrated from, do not
    matter.  A service partner does not take the attribute over: its id is
    a new attribute with the value of the origin's and the new service
    partner as parent, and the origin still holds [b], whose parent is as
    it was. *)
Theorem origin_round_trip (h : heap) (o b : addr) (G : string) :
  get h o G = Some (VRef b) → is_Some (get h b "parent") →
  (∀ l parent, G ∈ leaf_fields l →
     post (leaf_new l parent (VRef o)) h (round_trip h G b))
  ∧ (∀ parent, G ∈ spec_scalars → nested_ok h o →
       ¬ nested_value h o b →
       post (Specification.new parent (VRef o)) h (round_trip h G b))
  ∧ (∀ SI k vin garage mc, G ∈ adopt_fields → vehicle_ok SI k h o →
       unshared h o b →
       post (Vehicle.new SI k vin garage mc (VRef o)) h
         (round_trip h G b))
  ∧ (∀ parent v, G = "service_partner_id" → get h b "value" = Some v →
       post (ServicePartner.new parent (VRef o)) h
         (λ e h', ∃ a, get h' e G = Some (VRef a)
                       ∧ length h < a
                       ∧ class_of h' a = Some CStringAttribute
                       ∧ get h' a "parent" = Some (VRef e)
                       ∧ get h' a "value" = Some v
                       ∧ get h' o G = Some (VRef b)
                       ∧ get h' b "parent" = get h b "parent"
                       ∧ get h' b "value" = Some v)).
Proof.
  intros E Hp.
  assert (o < length h) as Ho by (by eapply get_lt).
  assert (b < length h) as Hb.
  { destruct Hp as [p Hp]. by eapply get_lt. }
  split_and!.
  - intros l parent HG.
    eapply post_mono; [by apply leaf_migrate_spec|].
    intros e h' (_ & _ & _ & _ & F & S & _ & P). split_and!.
    + by rewrite (S G HG).
    + by apply (P G b).
    + by apply F.
  - intros parent HG Hnok Hnv.
    eapply post_mono; [by apply spec_migrate_spec|].
    intros e h' (_ & _ & _ & _ & F & S & _ & _ & P). split_and!.
    + by rewrite (S G HG).
    + by apply (P G b).
    + by apply F.
  - intros SI k vin garage mc HG Hok Hun.
    apply migration_anatomy; [done|].
    intros h' hB hC m Han. by eapply adopted_parent.
  - intros parent v -> Ev.
    eapply post_mono; [apply partner_new_spec|].
    intros e h' (_ & Hext & _ & a & Ea & La & Ka & Ep & Eva).
    exists a. split_and!; [done..| | | |].
    + rewrite Eva. f_equal. unfold copied_value. rewrite E, Ev.
      by destruct v.
    + by rewrite (extends_get h h').
    + by rewrite (extends_get h h').
    + by rewrite (extends_get h h').
Qed.

(** ** Legacy fields *)

(** C10.  A vehicle migrated from an origin without specification has a
    new [Specification] in its default state, whose parent is the new
    vehicle.  Each legacy field the origin has became the corresponding
    field of that specification, and the attribute's parent is the
    specification (unless the attribute is also the origin's charging
    entity, which an electric class re-parents afterwards).  Where the
    origin lacks a legacy field, the specification's field is as the
    constructor left it: a default attribute for the colour and the model
    year, and no attribute for the fuel type, which [Specification] does
    not declare. *)
Theorem legacy_fields_reparented (SUPPORT_IMAGES : bool) (k : Vehicle.kind)
    (vin garage managing_connector : value) (h : heap) (o : addr) :
  vehicle_ok SUPPORT_IMAGES k h o → get h o "specification" = None →
  post (Vehicle.new SUPPORT_IMAGES k vin garage managing_connector
          (VRef o)) h
    (λ v h',
       ∃ s, get h' v "specification" = Some (VRef s)
            ∧ length h < s
            ∧ class_of h' s = Some CSpecification
            ∧ get h' s "parent" = Some (VRef v)
            ∧ (∀ l, has_default_nested h' s (leaf_name l) (leaf_class l)
                      (leaf_fields l))
            ∧ (∀ G, G ∈ spec_scalars → G ∉ legacy_fields.*2 →
                 has_default h' s G)
            ∧ ∀ p, p ∈ legacy_fields →
                match get h o p.1 with
                | Some (VRef x) =>
                    get h' s p.2 = Some (VRef x)
                    ∧ (get h o "charging" ≠ Some (VRef x) →
                       get h' x "parent" = Some (VRef s))
                | _ =>
                    if decide (p.2 ∈ spec_scalars)
                    then has_default h' s p.2
                    else get h' s p.2 = None
                end).
Proof.
  intros Hok Es. apply migration_anatomy; [done|].
  intros h' hB hC m Han.
  destruct (new_specification _ _ _ _ _ _ _ _ Hok Han) as (E & Hlt & C & _).
  destruct (default_specification _ _ _ _ _ _ _ _ Hok Han)
    as (Hp & Hsc & Hleaf & Hfuel).
  { intros os. by rewrite Es. }
  exists (length hB). split_and!; try done.
  - intros G HG Hnl. apply Hsc; [done|]. intros p Hp' <-.
    exfalso. apply Hnl. by apply list_elem_of_fmap_2.
  - intros p Hp'.
    pose proof (legacy_taken _ _ _ _ _ _ _ _ Hok Han p Es Hp') as Ht.
    assert (∀ x, get h o p.1 = Some x → ∃ a, x = VRef a) as Hobj.
    { intros x Ex. destruct Hok as (_ & _ & _ & _ & _ & _ & Hleg & _).
      destruct (Hleg Es p Hp' _ Ex) as (a & -> & _). by exists a. }
    destruct (get h o p.1) as [x|] eqn:Ex.
    { destruct (Hobj x eq_refl) as [a ->]. exact Ht. }
    clear Ht Hobj. unfold legacy_fields in Hp'.
    apply elem_of_cons in Hp' as [-> | Hp'].
    { cbn [fst snd] in *.
      destruct (decide ("engine_fuel_type" ∈ spec_scalars)) as [Hd|Hd].
      - exfalso. revert Hd. not_in_list.
      - by apply Hfuel. }
    apply elem_of_cons in Hp' as [-> | Hp'].
    { cbn [fst snd] in *.
      destruct (decide (_ ∈ spec_scalars)) as [Hd|Hd];
        [|exfalso; apply Hd; unfold spec_scalars; sub_in].
      apply Hsc; [done|].
      intros p Hin Heq. unfold legacy_fields in Hin.
      repeat (apply elem_of_cons in Hin as [-> | Hin]; [done|]).
      by apply elem_of_nil in Hin. }
    apply elem_of_cons in Hp' as [-> | Hp'].
    { cbn [fst snd] in *.
      destruct (decide (_ ∈ spec_scalars)) as [Hd|Hd];
        [|exfalso; apply Hd; unfold spec_scalars; sub_in].
      apply Hsc; [done|].
      intros p Hin Heq. unfold legacy_fields in Hin.
      repeat (apply elem_of_cons in Hin as [-> | Hin]; [done|]).
      by apply elem_of_nil in Hin. }
    by apply elem_of_nil in Hp'.
Qed.

(** ** Examples *)

Ltac by_computation := vm_compute; first [reflexivity | done | lia].

(** The brand on a vehicle of the hybrid class migrated from a vehicle of
    an earlier version whose manufacturer read ['Skoda Auto']. *)
Lemma manufacturer_is_brand_witness :
  vehicle_ok false Vehicle.Hybrid Samples.legacy_garage 0
  ∧ post (Vehicle.new false Vehicle.Hybrid Samples.vin VNone VNone
            (from_option VRef VNone (Some 0))) Samples.legacy_garage
      (λ v h', v = length Samples.legacy_garage ∧ brand_set h' v).
Proof.
  assert (vehicle_ok false Vehicle.Hybrid Samples.legacy_garage 0) as Hok.
  { apply vehicle_okb_sound. by_computation. }
  split; [exact Hok|].
  refine (manufacturer_is_brand false Vehicle.Hybrid Samples.vin VNone VNone
            (Some 0) Samples.legacy_garage _).
  intros o Ho. injection Ho as <-. exact Hok.
Defined.

(** An electric vehicle migrated from an electric vehicle, and one
    migrated from a vehicle that is not electric. *)
Lemma electric_charging_migrated_witness :
  (is_electric Samples.electric_garage 0 = true
   ∧ post (Vehicle.new false Vehicle.Electric Samples.vin VNone VNone
             (VRef 0)) Samples.electric_garage
       (λ v h', ∃ c src,
          get h' v "charging" = Some (VRef c)
          ∧ length Samples.electric_garage < c
          ∧ class_of h' c = Some CSkodaCharging
          ∧ get h' c "parent" = Some (VRef v)
          ∧ (∀ f, f ≠ "parent" → get h' c f = get h' src f)
          ∧ if is_electric Samples.electric_garage 0
            then get Samples.electric_garage 0 "charging"
                 = Some (VRef src)
            else v < src ∧ class_of h' src = Some CCharging
                 ∧ get h' src "parent" = Some (VRef v)))
  ∧ (is_electric Samples.garage 0 = false
     ∧ post (Vehicle.new false Vehicle.Electric Samples.vin VNone VNone
               (VRef 0)) Samples.garage
         (λ v h', ∃ c src,
            get h' v "charging" = Some (VRef c)
            ∧ length Samples.garage < c
            ∧ class_of h' c = Some CSkodaCharging
            ∧ get h' c "parent" = Some (VRef v)
            ∧ (∀ f, f ≠ "parent" → get h' c f = get h' src f)
            ∧ if is_electric Samples.garage 0
              then get Samples.garage 0 "charging" = Some (VRef src)
              else v < src ∧ class_of h' src = Some CCharging
                   ∧ get h' src "parent" = Some (VRef v))).
Proof.
  split; (split; [by_computation|]).
  - refine (electric_charging_migrated false Samples.vin VNone VNone
              Samples.electric_garage 0 _).
    apply vehicle_okb_sound. by_computation.
  - refine (electric_charging_migrated false Samples.vin VNone VNone
              Samples.garage 0 _).
    apply vehicle_okb_sound. by_computation.
Defined.

(** A vehicle of an earlier version, with the flat fields for the colour
    and the model year and without the one for the fuel type. *)
Lemma legacy_fields_reparented_witness :
  get Samples.legacy_garage 0 "specification" = None
  ∧ post (Vehicle.new false Vehicle.Generic Samples.vin VNone VNone
            (VRef 0)) Samples.legacy_garage
      (λ v h',
         ∃ s, get h' v "specification" = Some (VRef s)
              ∧ length Samples.legacy_garage < s
              ∧ class_of h' s = Some CSpecification
              ∧ get h' s "parent" = Some (VRef v)
              ∧ (∀ l, has_default_nested h' s (leaf_name l) (leaf_class l)
                        (leaf_fields l))
              ∧ (∀ G, G ∈ spec_scalars → G ∉ legacy_fields.*2 →
                   has_default h' s G)
              ∧ ∀ p, p ∈ legacy_fields →
                  match get Samples.legacy_garage 0 p.1 with
                  | Some (VRef x) =>
                      get h' s p.2 = Some (VRef x)
                      ∧ (get Samples.legacy_garage 0 "charging"
                         ≠ Some (VRef x) →
                         get h' x "parent" = Some (VRef s))
                  | _ =>
                      if decide (p.2 ∈ spec_scalars)
                      then has_default h' s p.2
                      else get h' s p.2 = None
                  end).
Proof.
  split; [by_computation|].
  refine (legacy_fields_reparented false Vehicle.Generic Samples.vin VNone
            VNone Samples.legacy_garage 0 _ _).
  - apply vehicle_okb_sound. by_computation.
  - by_computation.
Defined.

(** The type of an engine, the title of a specification, the id of a
    service partner, and [in_motion] and the title of a vehicle that was
    itself migrated: the vehicle 39 of the sample garage, whose fields the
    vehicle 0 it came from still holds. *)
Lemma origin_round_trip_witness :
  post (leaf_new LEngine VNone (VRef 2)) Samples.partial_heap
    (round_trip Samples.partial_heap "type" 3)
  ∧ post (Specification.new VNone (VRef 0)) Samples.partial_heap
      (round_trip Samples.partial_heap "title" 1)
  ∧ (get Samples.migrated_garage 0 "in_motion" = Some (VRef 5)
     ∧ post (Vehicle.new false Vehicle.Combustion Samples.vin VNone VNone
               (VRef 39)) Samples.migrated_garage
         (round_trip Samples.migrated_garage "in_motion" 5))
  ∧ post (Vehicle.new false Vehicle.Electric Samples.vin VNone VNone
            (VRef 39)) Samples.migrated_garage
      (round_trip Samples.migrated_garage "title" 11)
  ∧ post (ServicePartner.new VNone (VRef 4)) Samples.partial_heap
      (λ e h', ∃ a, get h' e "service_partner_id" = Some (VRef a)
                    ∧ length Samples.partial_heap < a
                    ∧ class_of h' a = Some CStringAttribute
                    ∧ get h' a "parent" = Some (VRef e)
                    ∧ get h' a "value" = Some (VStr (lit "CZE-0042"))
                    ∧ get h' 4 "service_partner_id" = Some (VRef 5)
                    ∧ get h' 5 "parent"
                      = get Samples.partial_heap 5 "parent"
                    ∧ get h' 5 "value" = Some (VStr (lit "CZE-0042"))).
Proof.
  assert (∀ h o b G,
            get h o G = Some (VRef b) →
            (∃ p, get h b "parent" = Some p) →
            get h o G = Some (VRef b) ∧ is_Some (get h b "parent"))
    as Hpre.
  { intros h o b G E P. split; [done|exact P]. }
  split_and!.
  - destruct (Hpre Samples.partial_heap 2 3 "type") as (E & P);
      [by_computation|eexists; by_computation|].
    refine (proj1 (origin_round_trip Samples.partial_heap 2 3 "type" E P)
              LEngine VNone _).
    simpl. sub_in.
  - destruct (Hpre Samples.partial_heap 0 1 "title") as (E & P);
      [by_computation|eexists; by_computation|].
    refine (proj1 (proj2 (origin_round_trip Samples.partial_heap 0 1 "title"
                            E P)) VNone _ _ _).
    + unfold spec_scalars. sub_in.
    + apply nested_okb_sound. by_computation.
    + apply nested_valueb_sound. by_computation.
  - by_computation.
  - destruct (Hpre Samples.migrated_garage 39 5 "in_motion") as (E & P);
      [by_computation|eexists; by_computation|].
    refine (proj1 (proj2 (proj2 (origin_round_trip Samples.migrated_garage
                                   39 5 "in_motion" E P)))
              false Vehicle.Combustion Samples.vin VNone VNone _ _ _).
    + unfold adopt_fields. sub_in.
    + apply vehicle_okb_sound. by_computation.
    + apply unsharedb_sound. by_computation.
  - destruct (Hpre Samples.migrated_garage 39 11 "title") as (E & P);
      [by_computation|eexists; by_computation|].
    refine (proj1 (proj2 (proj2 (origin_round_trip Samples.migrated_garage
                                   39 11 "title" E P)))
              false Vehicle.Electric Samples.vin VNone VNone _ _ _).
    + unfold adopt_fields, guarded_fields. sub_in.
    + apply vehicle_okb_sound. by_computation.
    + apply unsharedb_sound. by_computation.
  - destruct (Hpre Samples.partial_heap 4 5 "service_partner_id")
      as (E & P); [by_computation|eexists; by_computation|].
    refine (proj2 (proj2 (proj2 (origin_round_trip Samples.partial_heap 4 5
                                   "service_partner_id" E P)))
              VNone (VStr (lit "CZE-0042")) eq_refl _).
    by_computation.
Defined.

(** An engine without power and capacity, a specification with a title
    and an engine only, a service partner migrated from an object without
    id, a vehicle of an earlier version, and a vehicle without
    capabilities. *)
Lemma partial_origin_tolerated_witness :
  post (leaf_new LEngine VNone (VRef 2)) Samples.partial_heap
    (λ e h', ∀ G, G ∈ leaf_fields LEngine →
                  get Samples.partial_heap 2 G = None → get h' e G = None)
  ∧ post (Specification.new VNone (VRef 0)) Samples.partial_heap
      (λ s h',
         (∀ G, G ∈ spec_scalars → get Samples.partial_heap 0 G = None →
               get h' s G = None)
         ∧ ∀ l, get Samples.partial_heap 0 (leaf_name l) = None →
                has_default_nested h' s (leaf_name l) (leaf_class l)
                  (leaf_fields l))
  ∧ post (ServicePartner.new VNone (VRef 2)) Samples.partial_heap
      (λ p h',
         (∀ o, VRef 2 = VRef o →
               get Samples.partial_heap o "service_partner_id" = None) →
         has_default h' p "service_partner_id")
  ∧ post (Vehicle.new false Vehicle.Generic Samples.vin VNone VNone
            (VRef 0)) Samples.legacy_garage
      (λ v h', ∀ G, G ∈ guarded_fields →
                    get Samples.legacy_garage 0 G = None →
                    get h' v G = None)
  ∧ raises (Vehicle.new false Vehicle.Generic Samples.vin VNone VNone
              (VRef 0)) Samples.bare_vehicle AttributeError.
Proof.
  pose proof (partial_origin_tolerated Samples.partial_heap)
    as (A & B & C & _ & _).
  pose proof (partial_origin_tolerated Samples.legacy_garage)
    as (_ & _ & _ & D & _).
  pose proof (partial_origin_tolerated Samples.bare_vehicle)
    as (_ & _ & _ & _ & F).
  split_and!.
  - refine (A LEngine VNone 2 _). by_computation.
  - refine (B VNone 0 _ _); [by_computation|].
    apply nested_okb_sound. by_computation.
  - exact (C VNone (VRef 2)).
  - refine (D false Vehicle.Generic Samples.vin VNone VNone 0 _).
    apply vehicle_okb_sound. by_computation.
  - refine (F false Vehicle.Generic Samples.vin VNone VNone 0 _ _);
      by_computation.
Defined.

(** A specification with a title and an engine only, and the vehicle of
    the garage. *)
Lemma nested_entities_migrated_witness :
  post (Specification.new VNone (VRef 0)) Samples.partial_heap
    (λ s h', s = length Samples.partial_heap
             ∧ ∀ l, leaf_of Samples.partial_heap 0 h' s l)
  ∧ post (Vehicle.new false Vehicle.Generic Samples.vin VNone VNone
            (VRef 0)) Samples.garage
      (λ v h',
         (∃ s, get h' v "specification" = Some (VRef s)
               ∧ length Samples.garage < s
               ∧ class_of h' s = Some CSpecification
               ∧ (∀ os G,
                    get Samples.garage 0 "specification" = Some (VRef os) →
                    G ∈ spec_scalars →
                    get h' s G = get Samples.garage os G)
               ∧ ∀ l, ∃ n, get h' s (leaf_name l) = Some (VRef n)
                           ∧ length Samples.garage < n
                           ∧ class_of h' n = Some (leaf_class l))
         ∧ get h' v "service_partner"
           = get Samples.garage 0 "service_partner").
Proof.
  split.
  - refine (proj1 (nested_entities_migrated Samples.partial_heap)
              VNone 0 _ _); [by_computation|].
    apply nested_okb_sound. by_computation.
  - refine (proj2 (nested_entities_migrated Samples.garage)
              false Vehicle.Generic Samples.vin VNone VNone 0 _).
    apply vehicle_okb_sound. by_computation.
Defined.

(** ** Counterexamples to the claims as worded *)

(** C1 as worded fails twice.  A vehicle migrated from an origin without
    [capabilities] raises [AttributeError]: the access is not preceded by
    a check, and the exception leaves the constructor.  An engine migrated
    from an engine without [type] has no [type] at all, rather than a
    default one. *)
Lemma partial_origin_counterexample :
  raises (Vehicle.new false Vehicle.Generic Samples.vin VNone VNone
            (VRef 0)) Samples.bare_vehicle AttributeError
  ∧ post (Specification.Engine VNone (VRef 0)) Samples.bare_engine
      (λ e h', get h' e "type" = None ∧ ¬ has_default h' e "type").
Proof.
  split; [by_computation|].
  apply (checks_post _ _
           (λ e h', bool_decide (get h' e "type" = None)));
    [by_computation|].
  intros e h' H. apply bool_decide_eq_true in H. split; [done|].
  intros (d & Ed & _). rewrite H in Ed. discriminate Ed.
Qed.

(** C2 as worded fails for the service partner: the vehicle migrated from
    the vehicle of the garage holds the service partner of its origin, the
    object 17 of the garage, which now has the new vehicle as parent while
    the origin still holds it. *)
Lemma service_partner_shared :
  get Samples.garage 0 "service_partner" = Some (VRef 17)
  ∧ class_of Samples.garage 17 = Some CServicePartner
  ∧ post (Vehicle.new false Vehicle.Generic Samples.vin VNone VNone
            (VRef 0)) Samples.garage
      (λ v h', get h' v "service_partner" = Some (VRef 17)
               ∧ get h' 0 "service_partner" = Some (VRef 17)
               ∧ get h' 17 "parent" = Some (VRef v)).
Proof.
  split_and!; [by_computation..|].
  apply (checks_post _ _
           (λ v h', bool_decide
                      (get h' v "service_partner" = Some (VRef 17)
                       ∧ get h' 0 "service_partner" = Some (VRef 17)
                       ∧ get h' 17 "parent" = Some (VRef v))));
    [by_computation|].
  intros v h' H. by apply bool_decide_eq_true in H.
Qed.

End Claims.

(** * Further properties of the code *)

(** ** The log sanitizer *)

Module UtilOverrideExtras.
Import UtilOverride UtilOverrideFacts.

Lemma length_cut (s : pystr) (n : nat) :
  length (cut s (Z.of_nat n)) ≤ n + 3.
Proof.
  destruct (decide (n < length s)) as [H|H].
  - rewrite cut_long by done.
    rewrite length_app, length_take, length_lit_ellipsis. lia.
  - rewrite cut_short by lia. lia.
Qed.

Section Sanitizer.
Context {V : Type}.
Variable json_dumps : gmap string V → option pystr.
Variable py_str : gmap string V → pystr.
Variable repr_keys : gset string → pystr.
Variable config_remove_credentials : gmap string V → gmap string V.

(** X8.  [_truncate] for an arbitrary [max_len].  With a bound that is not
    negative the result has at most [max_len + 3] characters: a string
    within the bound is returned as it is, a longer one is cut to its
    first [max_len] characters followed by ['...'].  A negative bound
    counts from the end, as a Python slice does: the last [-max_len]
    characters are dropped and ['...'] is appended to every string, the
    empty one included. *)
Theorem truncate_bounds (obj : gmap string V) (max_len : Z) :
  let s := serialized json_dumps py_str obj in
  let r := _truncate json_dumps py_str obj max_len in
  ((0 ≤ max_len)%Z →
     (Z.of_nat (length r) ≤ max_len + 3)%Z
     ∧ ((Z.of_nat (length s) ≤ max_len)%Z → r = s)
     ∧ ((max_len < Z.of_nat (length s))%Z →
        r = take (Z.to_nat max_len) s ++ lit "..."))
  ∧ ((max_len < 0)%Z →
       r = take (length s - Z.to_nat (- max_len)) s ++ lit "..."
       ∧ length r = length s - Z.to_nat (- max_len) + 3).
Proof.
  intros s r. assert (r = cut s max_len) as -> by done.
  unfold cut, slice_to. split.
  - intros Hpos. destruct (Z.gtb_spec (Z.of_nat (length s)) max_len) as [H|H].
    + destruct (Z.leb_spec 0 max_len); [|lia]. split_and!; [|lia|done].
      rewrite length_app, length_take, length_lit_ellipsis. lia.
    + split_and!; [lia|done|lia].
  - intros Hneg. destruct (Z.gtb_spec (Z.of_nat (length s)) max_len); [|lia].
    destruct (Z.leb_spec 0 max_len); [lia|].
    assert (Z.to_nat (Z.of_nat (length s) + max_len)
            = length s - Z.to_nat (- max_len)) as -> by lia.
    split; [done|].
    rewrite length_app, length_take, length_lit_ellipsis. lia.
Qed.

(** X9.  The environment decides the level only: whether a record is
    logged and what its text is do not depend on it.  The text of a
    record starts with ['Unexpected keys found in '] and the context
    label, and its length is bounded by the lengths of the label and of
    the printed key set plus 345, however large the dictionary is. *)
Theorem message_bounded (environ environ' : gmap string pystr)
    (where_ : pystr) (dictionary : gmap string V)
    (allowed_keys : option (gset string)) :
  lr_msg <$> log_extra_keys json_dumps py_str repr_keys
               config_remove_credentials environ where_ dictionary
               allowed_keys
  = lr_msg <$> log_extra_keys json_dumps py_str repr_keys
                 config_remove_credentials environ' where_ dictionary
                 allowed_keys
  ∧ ∀ rec, log_extra_keys json_dumps py_str repr_keys
             config_remove_credentials environ where_ dictionary
             allowed_keys = Some rec →
           (lit "Unexpected keys found in " ++ where_)
             `prefix_of` lr_msg rec
           ∧ length (lr_msg rec)
             ≤ length where_
               + length (repr_keys (extra_keys dictionary allowed_keys))
               + 345.
Proof.
  split.
  - unfold log_extra_keys. case_decide; [done|].
    by destruct (show_info environ), (show_info environ').
  - intros rec Hrec.
    assert (lr_msg rec
            = message json_dumps py_str repr_keys
                config_remove_credentials where_
                (extra_keys dictionary allowed_keys) dictionary) as ->.
    { unfold log_extra_keys in Hrec. case_decide; [done|].
      destruct (show_info environ); by injection Hrec as <-. }
    unfold message. split.
    + rewrite (app_assoc (lit _) where_). by apply prefix_app_r.
    + pose proof (length_cut
                    (serialized json_dumps py_str
                       (config_remove_credentials dictionary)) 300) as Hl.
      change (cut _ (Z.of_nat 300))
        with (_truncate json_dumps py_str
                (config_remove_credentials dictionary) default_max_len)
        in Hl.
      rewrite !length_app.
      change (length (lit "Unexpected keys found in ")) with 25.
      change (length (lit ": ")) with 2.
      change (length (lit " Dictionary is ")) with 15.
      lia.
Qed.

End Sanitizer.

End UtilOverrideExtras.

(** ** Migration *)

Module MigrationExtras.
Import Py Logic PyFacts Framework CopyFacts SpecificationFacts.
Import ServicePartnerFacts VehicleFacts CheckFacts VehicleResults FreshFacts.
Local Open Scope py_scope.

(** X10.  A service partner is migrated by value.  Migrating a service
    partner and then migrating the result gives two service partners with
    two different id attributes, each with its own instance as parent, and
    both with the value taken from the first origin: the second migration
    neither shares nor disturbs the attribute of the first. *)
Theorem service_partner_chain (parent1 parent2 origin : value) (h : heap) :
  post (let* p1 := ServicePartner.new parent1 origin in
        ServicePartner.new parent2 (VRef p1)) h
    (λ p2 h',
       ∃ a1 a2,
         length h < p2 ∧ a1 ≠ a2
         ∧ get h' (length h) "service_partner_id" = Some (VRef a1)
         ∧ get h' a1 "parent" = Some (VRef (length h))
         ∧ get h' a1 "value" = Some (copied_value h origin)
         ∧ get h' p2 "service_partner_id" = Some (VRef a2)
         ∧ get h' a2 "parent" = Some (VRef p2)
         ∧ get h' a2 "value" = Some (copied_value h origin)).
Proof.
  apply post_bind. eapply post_mono; [apply partner_new_spec|].
  intros p1 h1 (-> & Hext1 & C1 & a1 & E1 & L1 & K1 & P1 & V1). cbv beta.
  eapply post_mono; [apply partner_new_spec|].
  intros p2 h2 (-> & Hext2 & C2 & a2 & E2 & L2 & K2 & P2 & V2).
  assert (length h < length h1) as Hp1 by (by eapply get_lt).
  assert (a1 < length h1) as Ha1 by (by eapply get_lt).
  exists a1, a2. split_and!; try done; try lia.
  - by rewrite (extends_get h1 h2).
  - by rewrite (extends_get h1 h2).
  - by rewrite (extends_get h1 h2).
  - rewrite V2. f_equal. unfold copied_value at 1. rewrite E1, V1.
    by destruct (copied_value h origin).
Qed.

(** X11.  Construction without origin gives complete entities.  A new
    [Engine], [ExteriorDimensions] or [Gearbox] has the given parent and
    each of its fields holds a new attribute without value whose parent is
    the entity.  A new [Specification] has the given parent, its nine
    scalar fields hold such attributes, and its three nested fields hold
    such entities.  No object that existed is changed. *)
Theorem fresh_specification_complete (parent : value) (h : heap) :
  (∀ l, post (leaf_new l parent VNone) h
          (λ e h',
             e = length h
             ∧ (∀ b, b < length h → h' !! b = h !! b)
             ∧ class_of h' e = Some (leaf_class l)
             ∧ get h' e "parent" = Some parent
             ∧ ∀ G, G ∈ leaf_fields l → has_default h' e G))
  ∧ post (Specification.new parent VNone) h
      (λ s h',
         s = length h
         ∧ (∀ b, b < length h → h' !! b = h !! b)
         ∧ class_of h' s = Some CSpecification
         ∧ get h' s "parent" = Some parent
         ∧ (∀ G, G ∈ spec_scalars → has_default h' s G)
         ∧ ∀ l, has_default_nested h' s (leaf_name l) (leaf_class l)
                  (leaf_fields l)).
Proof.
  split.
  - intros l. eapply post_mono; [apply leaf_fresh_spec|].
    intros e h' (-> & [x ->] & C & Hp & Hd). split_and!; try done.
    intros b Hb. by apply lookup_app_l.
  - eapply post_mono; [apply spec_fresh_spec|].
    intros s h' ((-> & [x ->] & C & Hp & Hd) & Hn & _).
    split_and!; try done.
    intros b Hb. by apply lookup_app_l.
Qed.

(** X12.  Migration shares attributes, it does not copy them.  The
    constructor of a nested class called with an origin object allocates
    one object, the new entity.  The new entity and the origin then hold
    the same attribute objects (or both lack the field): the origin keeps
    every field it had, and so does every other object; only parent links
    change, and only those of the origin's attributes, which now point to
    the new entity. *)
Theorem migration_shares_attributes (l : leaf) (parent : value) (h : heap)
    (o : addr) :
  o < length h →
  post (leaf_new l parent (VRef o)) h
    (λ e h',
       e = length h ∧ length h' = S (length h)
       ∧ class_of h' e = Some (leaf_class l)
       ∧ (∀ G, G ∈ leaf_fields l → get h' e G = get h' o G)
       ∧ (∀ b k, b < length h → k ≠ "parent" → get h' b k = get h b k)
       ∧ (∀ b, b < length h →
            get h' b "parent" = get h b "parent"
            ∨ ((∃ G, G ∈ leaf_fields l ∧ get h o G = Some (VRef b))
               ∧ get h' b "parent" = Some (VRef e)))).
Proof.
  intros Ho. eapply post_mono; [by apply leaf_migrate_spec|].
  intros e h' (-> & L & C & K & F & S & P & _). split_and!; try done.
  intros G HG. rewrite (S G HG). symmetry. apply F; [done|].
  by eapply leaf_fields_not_parent.
Qed.

(** X13.  The latest migration owns the attributes.  When an entity of a
    nested class is migrated and the result is migrated again, the last
    entity holds the attributes of the first origin, and each of them that
    has a parent link has the last entity as parent; the entity in between
    still holds them but is no longer their parent. *)
Theorem migration_chain (l : leaf) (parent1 parent2 : value) (h : heap)
    (o : addr) :
  o < length h →
  post (let* e1 := leaf_new l parent1 (VRef o) in
        leaf_new l parent2 (VRef e1)) h
    (λ e2 h',
       e2 = S (length h)
       ∧ ∀ G, G ∈ leaf_fields l →
           get h' e2 G = get h o G
           ∧ get h' (length h) G = get h o G
           ∧ ∀ b, get h o G = Some (VRef b) →
                  is_Some (get h b "parent") →
                  get h' b "parent" = Some (VRef e2)).
Proof.
  intros Ho. apply post_bind.
  eapply post_mono; [by apply leaf_migrate_spec|].
  intros e1 h1 (-> & L1 & C1 & K1 & F1 & S1 & P1 & Q1). cbv beta.
  eapply post_mono; [apply leaf_migrate_spec; lia|].
  intros e2 h2 (-> & L2 & C2 & K2 & F2 & S2 & P2 & Q2).
  split; [lia|]. intros G HG.
  pose proof (leaf_fields_not_parent l G HG) as N.
  split_and!.
  - rewrite (S2 G HG). by apply S1.
  - rewrite F2 by (lia || done). by apply S1.
  - intros b Eb Hp. apply (Q2 G b HG).
    + rewrite (S1 G HG). done.
    + rewrite (Q1 G b HG Eb Hp). by eexists.
Qed.

(** X14.  A vehicle migration keeps what there was.  The new vehicle is
    a new object of the class constructed.  Every object that existed
    keeps its class and all its fields; what changes on them is parent
    links and the value of the manufacturer attribute of the origin. *)
Theorem vehicle_migration_frame (SUPPORT_IMAGES : bool) (k : Vehicle.kind)
    (vin garage managing_connector : value) (h : heap) (o : addr) :
  vehicle_ok SUPPORT_IMAGES k h o →
  post (Vehicle.new SUPPORT_IMAGES k vin garage managing_connector
          (VRef o)) h
    (λ v h',
       v = length h
       ∧ class_of h' v = Some (Vehicle.class_of_kind k)
       ∧ (∀ a, a < length h → class_of h' a = class_of h a)
       ∧ (∀ a f, a < length h → f ≠ "parent" →
            (f = "value" → get h o "manufacturer" ≠ Some (VRef a)) →
            get h' a f = get h a f)).
Proof.
  intros Hok. eapply post_mono; [by apply vehicle_new_spec|].
  intros v h' [-> Hrun]. cbv beta.
  destruct (kind_run_anatomy SUPPORT_IMAGES k h o h' Hok Hrun)
    as (hB & hC & m & Han).
  split_and!.
  - done.
  - by eapply self_class.
  - intros a Ha. by eapply old_class.
  - intros a f Ha Hf Hv. by eapply old_get.
Qed.

(** X15.  An origin whose [specification] is [None].  The check
    [hasattr(origin, 'specification')] succeeds, so the branch of the
    legacy fields is not taken: the new vehicle gets a specification in the
    default state, all nine scalar fields and the three nested entities,
    whatever flat [spec_...] fields the origin has. *)
Theorem specification_none_defaulted (SUPPORT_IMAGES : bool)
    (k : Vehicle.kind) (vin garage managing_connector : value) (h : heap)
    (o : addr) :
  vehicle_ok SUPPORT_IMAGES k h o →
  get h o "specification" = Some VNone →
  post (Vehicle.new SUPPORT_IMAGES k vin garage managing_connector
          (VRef o)) h
    (λ v h',
       ∃ s, get h' v "specification" = Some (VRef s)
            ∧ length h < s
            ∧ class_of h' s = Some CSpecification
            ∧ get h' s "parent" = Some (VRef v)
            ∧ (∀ G, G ∈ spec_scalars → has_default h' s G)
            ∧ ∀ l, has_default_nested h' s (leaf_name l) (leaf_class l)
                     (leaf_fields l)).
Proof.
  intros Hok Es. eapply post_mono; [by apply vehicle_new_spec|].
  intros v h' [-> Hrun]. cbv beta.
  destruct (kind_run_anatomy SUPPORT_IMAGES k h o h' Hok Hrun)
    as (hB & hC & m & Han).
  exists (length hB).
  destruct (new_specification _ _ _ _ _ _ _ _ Hok Han) as (E & L & C & _).
  assert (∀ os, get h o "specification" ≠ Some (VRef os)) as Hno.
  { intros os. by rewrite Es. }
  destruct (default_specification _ _ _ _ _ _ _ _ Hok Han Hno)
    as (P & _ & N & _).
  split_and!; try done.
  intros G HG. take_anatomy Han.
  destruct (anatomy_tail _ _ _ _ _ _ _ _ Hok Han)
    as (Ho & Lc & LF & T & Tn).
  rewrite Es in Hspec.
  destruct Hspec as ((_ & _ & _ & _ & Hdef) & _ & _).
  destruct T as (_ & _ & FT & _).
  assert (G ≠ "parent") as N1 by (intros ->; revert HG; not_in_list).
  assert (G ≠ "value") as N2 by (intros ->; revert HG; not_in_list).
  apply (default_kept _ _ _ _ _ _ _ _ Hok Han); [by apply Hdef|lia|].
  rewrite FT; [|lia|done|intros [? _]; lia].
  apply finish_get; [done|by intros [_ ?]|intros [? _]; lia|].
  intros (Hl & _). apply bool_decide_eq_true in Hl. by rewrite Es in Hl.
Qed.

(** X16.  The images are shared.  With image support, the migrated
    vehicle holds under [_car_images] the very object the origin holds,
    not a copy: an image stored through one is seen through the other. *)
Theorem car_images_shared (k : Vehicle.kind)
    (vin garage managing_connector : value) (h : heap) (o : addr) :
  vehicle_ok true k h o →
  post (Vehicle.new true k vin garage managing_connector (VRef o)) h
    (λ v h',
       ∃ i, get h o "_car_images" = Some i
            ∧ get h' v "_car_images" = Some i
            ∧ get h' o "_car_images" = Some i).
Proof.
  intros Hok. eapply post_mono; [by apply vehicle_new_spec|].
  intros v h' [-> Hrun]. cbv beta.
  destruct (kind_run_anatomy true k h o h' Hok Hrun)
    as (hB & hC & m & Han).
  take_anatomy Han.
  destruct (anatomy_tail _ _ _ _ _ _ _ _ Hok Han)
    as (Ho & Lc & LF & T & Tn).
  destruct T as (_ & _ & FT & _).
  pose proof Hok as (_ & _ & _ & _ & _ & _ & _ & Himg & _).
  destruct (Himg eq_refl) as [i Ei].
  exists i. split; [done|]. split.
  - rewrite FT; [|lia|done|by intros [_ ?]].
    unfold finish. rewrite get_write_ne by (by right).
    set (hS := write hC (length h) "specification" (VRef (length hB))).
    set (hL := if bool_decide (get h o "specification" = None)
               then legacy_steps (length hB) o hS else hS).
    assert (length hL = length hC) as LL.
    { unfold hL.
      destruct (bool_decide _); rewrite ?legacy_steps_length;
        apply length_write. }
    assert (get hL o "_car_images" = Some i) as EL.
    { assert (get hS o "_car_images" = Some i) as ES.
      { unfold hS. rewrite get_write_ne by (by right).
        by rewrite (origin_get_made _ _ _ _ _ _ _ _ Hok Han). }
      unfold hL. destruct (bool_decide _); [|done].
      rewrite legacy_steps_get; [done|done|].
      intros [_ Hin]. revert Hin. not_in_list. }
    unfold images. rewrite EL. apply get_write_eq. lia.
  - rewrite (old_get _ _ _ _ _ _ _ _ Hok Han); done.
Qed.

(** ** Examples *)

Ltac by_evaluation := vm_compute; first [reflexivity | done | lia].

(** The engine of the sample specification, which has only a type. *)
Lemma migration_shares_attributes_witness :
  2 < length Samples.partial_heap
  ∧ post (leaf_new LEngine VNone (VRef 2)) Samples.partial_heap
      (λ e h',
         e = length Samples.partial_heap
         ∧ length h' = S (length Samples.partial_heap)
         ∧ class_of h' e = Some (leaf_class LEngine)
         ∧ (∀ G, G ∈ leaf_fields LEngine → get h' e G = get h' 2 G)
         ∧ (∀ b k, b < length Samples.partial_heap → k ≠ "parent" →
              get h' b k = get Samples.partial_heap b k)
         ∧ (∀ b, b < length Samples.partial_heap →
              get h' b "parent" = get Samples.partial_heap b "parent"
              ∨ ((∃ G, G ∈ leaf_fields LEngine
                       ∧ get Samples.partial_heap 2 G = Some (VRef b))
                 ∧ get h' b "parent" = Some (VRef e)))).
Proof.
  assert (2 < length Samples.partial_heap) as Hlt by by_evaluation.
  split; [exact Hlt|].
  exact (migration_shares_attributes LEngine VNone Samples.partial_heap 2
           Hlt).
Defined.

(** The same engine, migrated twice. *)
Lemma migration_chain_witness :
  2 < length Samples.partial_heap
  ∧ post (let* e1 := leaf_new LEngine VNone (VRef 2) in
          leaf_new LEngine VNone (VRef e1)) Samples.partial_heap
      (λ e2 h',
         e2 = S (length Samples.partial_heap)
         ∧ ∀ G, G ∈ leaf_fields LEngine →
             get h' e2 G = get Samples.partial_heap 2 G
             ∧ get h' (length Samples.partial_heap) G
               = get Samples.partial_heap 2 G
             ∧ ∀ b, get Samples.partial_heap 2 G = Some (VRef b) →
                    is_Some (get Samples.partial_heap b "parent") →
                    get h' b "parent" = Some (VRef e2)).
Proof.
  assert (2 < length Samples.partial_heap) as Hlt by by_evaluation.
  split; [exact Hlt|].
  exact (migration_chain LEngine VNone VNone Samples.partial_heap 2 Hlt).
Defined.

(** An electric vehicle migrated from the vehicle of the sample garage. *)
Lemma vehicle_migration_frame_witness :
  vehicle_ok false Vehicle.Electric Samples.garage 0
  ∧ post (Vehicle.new false Vehicle.Electric Samples.vin VNone VNone
            (VRef 0)) Samples.garage
      (λ v h',
         v = length Samples.garage
         ∧ class_of h' v = Some (Vehicle.class_of_kind Vehicle.Electric)
         ∧ (∀ a, a < length Samples.garage →
              class_of h' a = class_of Samples.garage a)
         ∧ (∀ a f, a < length Samples.garage → f ≠ "parent" →
              (f = "value" →
               get Samples.garage 0 "manufacturer" ≠ Some (VRef a)) →
              get h' a f = get Samples.garage a f)).
Proof.
  assert (vehicle_ok false Vehicle.Electric Samples.garage 0) as Hok.
  { apply vehicle_okb_sound. by_evaluation. }
  split; [exact Hok|].
  exact (vehicle_migration_frame false Vehicle.Electric Samples.vin VNone
           VNone Samples.garage 0 Hok).
Defined.

(** The vehicle of an earlier version whose [specification] is [None]:
    its colour and model year are not taken over. *)
Lemma specification_none_defaulted_witness :
  (vehicle_ok false Vehicle.Generic Samples.none_garage 0
   ∧ get Samples.none_garage 0 "specification" = Some VNone
   ∧ get Samples.none_garage 0 "spec_model_year" = Some (VRef 5))
  ∧ post (Vehicle.new false Vehicle.Generic Samples.vin VNone VNone
            (VRef 0)) Samples.none_garage
      (λ v h',
         ∃ s, get h' v "specification" = Some (VRef s)
              ∧ length Samples.none_garage < s
              ∧ class_of h' s = Some CSpecification
              ∧ get h' s "parent" = Some (VRef v)
              ∧ (∀ G, G ∈ spec_scalars → has_default h' s G)
              ∧ ∀ l, has_default_nested h' s (leaf_name l) (leaf_class l)
                       (leaf_fields l)).
Proof.
  assert (vehicle_ok false Vehicle.Generic Samples.none_garage 0) as Hok.
  { apply vehicle_okb_sound. by_evaluation. }
  assert (get Samples.none_garage 0 "specification" = Some VNone) as Es
    by by_evaluation.
  split; [split_and!; [exact Hok|exact Es|by_evaluation]|].
  exact (specification_none_defaulted false Vehicle.Generic Samples.vin
           VNone VNone Samples.none_garage 0 Hok Es).
Defined.

(** A hybrid vehicle migrated from a vehicle constructed with image
    support. *)
Lemma car_images_shared_witness :
  vehicle_ok true Vehicle.Hybrid Samples.image_garage 0
  ∧ post (Vehicle.new true Vehicle.Hybrid Samples.vin VNone VNone
            (VRef 0)) Samples.image_garage
      (λ v h',
         ∃ i, get Samples.image_garage 0 "_car_images" = Some i
              ∧ get h' v "_car_images" = Some i
              ∧ get h' 0 "_car_images" = Some i).
Proof.
  assert (vehicle_ok true Vehicle.Hybrid Samples.image_garage 0) as Hok.
  { apply vehicle_okb_sound. by_evaluation. }
  split; [exact Hok|].
  exact (car_images_shared Vehicle.Hybrid Samples.vin VNone VNone
           Samples.image_garage 0 Hok).
Defined.

End MigrationExtras.
